(** * jkds: array-backed heaps and the indexed priority queue

    A shallow embedding of [include/jkds/container/heap.h],
    [binary_heap.h], [k_heap.h] and [priority_queue.h], together with the
    two utilities the priority queue consumes ([util/range.h] and
    [functional/zip.h]).

    The development has two layers.

    - The _machine model_ follows the C++ text: indices are [std::size_t]
      values (a [Z] reduced modulo [2^64] after every arithmetic step),
      [std::vector::at] is range checked, [operator[]] is not, loops carry
      fuel, and every method returns in an error monad.  The virtual method
      [swap_nodes] is a field of the type class [HeapState], so that the
      code of [Heap] runs unchanged over a plain vector and over the state
      of a [PriorityQueue], which overrides that method.

    - The _sequence model_ is a set of total functions on lists, indexed by
      [nat].  The machine model is shown to compute exactly these functions
      whenever the vector is no longer than [max_size]; ordering and
      permutation arguments are carried out on the sequence model.

    Main results: the heap property is established by construction and kept
    by [push] and [pop]; popping a heap until it is empty sorts its input;
    the k-ary algorithms at arity two are the binary ones; the two maps of
    the priority queue stay the inverse of its sequence as long as pushed
    values are new and updated values are present, and what happens when
    they are not.

    The same machine model carries the rest of the library: the utilities
    [functional/fmap.h], [util/resize.h] and [util/shift_to_value.h];
    [sparse_byte_set.h], whose two arrays start out holding arbitrary bytes;
    and [disjoint_set.h], whose parent links are read as a forest through
    the relation [root_at].  Further results: the priority queue is a heap
    of its values, which [update_key] never reorders; the sparse set
    contains exactly the bytes added, whatever its arrays held at first;
    [unite] merges exactly two sets and [are_connected] decides membership
    in the same set, while the rank of a representative stays 0. *)

From stdpp Require Import base list list_numbers gmap sorting.
From Stdlib Require Import ZArith Lia.

Local Open Scope Z_scope.

(** ** Errors and results *)

Inductive error : Type :=
| out_of_range          (* thrown by [std::vector::at], [std::unordered_map::at] *)
| length_error          (* thrown by [emplace_back] at [max_size] *)
| assertion_failure     (* a failed [assert] *)
| terminate             (* an exception leaving a [noexcept] function *)
| undefined_behaviour   (* an out-of-bounds [operator[]], [back()] of an empty vector *)
| configuration_error   (* template arity outside (2, 64] *)
| out_of_fuel.          (* a loop exhausted its fuel *)

Inductive result (A : Type) : Type :=
| Ok (a : A)
| Err (e : error).
Arguments Ok {A} a.
Arguments Err {A} e.

#[global] Instance result_ret : MRet result := @Ok.
#[global] Instance result_bind : MBind result := λ A B f m,
  match m with
  | Ok a => f a
  | Err e => Err e
  end.

(** An exception escaping a function declared [noexcept] calls
    [std::terminate]. *)
Definition noexcept {A} (r : result A) : result A :=
  match r with
  | Err out_of_range => Err terminate
  | Err length_error => Err terminate
  | _ => r
  end.

Definition assert (b : bool) : result unit :=
  if b then Ok tt else Err assertion_failure.

Fixpoint foldM {A B} (f : B → A → result B) (l : list A) (b : B) : result B :=
  match l with
  | [] => Ok b
  | x :: l' => b' ← f b x; foldM f l' b'
  end.

(** ** [std::size_t] *)

Definition size_t_modulus : Z := 2 ^ 64.
Definition wrap (z : Z) : Z := z mod size_t_modulus.

(** [std::vector<T>::max_size()] is at most [PTRDIFF_MAX]. *)
Definition max_size : Z := 2 ^ 63 - 1.

(** ** [std::vector<T>] *)

Section vector.
Context {T : Type}.

Definition vec_size (l : list T) : Z := Z.of_nat (length l).

(* [v.at(i)]: range checked *)
Definition vec_at (l : list T) (i : Z) : result T :=
  match l !! Z.to_nat i with
  | Some x => Ok x
  | None => Err out_of_range
  end.

(* [v[i]]: unchecked *)
Definition vec_subscript (l : list T) (i : Z) : result T :=
  match l !! Z.to_nat i with
  | Some x => Ok x
  | None => Err undefined_behaviour
  end.

(* [v.at(0) = v.back()].  The right operand of an assignment is evaluated
   first: on an empty vector [back()] has no element to refer to, which is
   undefined, and the range check of [at(0)] is never reached. *)
Definition vec_front_assign_back (l : list T) : result (list T) :=
  match last l with
  | Some b => _ ← vec_at l 0; Ok (<[0%nat:=b]> l)
  | None => Err undefined_behaviour
  end.

(* [v.pop_back()] *)
Definition vec_pop_back (l : list T) : list T := take (Nat.pred (length l)) l.

(* [v.emplace_back(x)] *)
Definition vec_emplace_back (x : T) (l : list T) : result (list T) :=
  if max_size <=? vec_size l then Err length_error else Ok (l ++ [x]).

(* [std::swap(v.at(i), v.at(j))] *)
Definition vec_swap_at (i j : Z) (l : list T) : result (list T) :=
  a ← vec_at l i;
  b ← vec_at l j;
  Ok (<[Z.to_nat j:=a]> (<[Z.to_nat i:=b]> l)).
End vector.

(** ** Comparators *)

Inductive heap_type : Type := min_heap | max_heap.

(** [std::less<T>] and [std::greater<T>] *)
Class Ordered (T : Type) : Type := {
  less : T → T → bool;
  greater : T → T → bool
}.

(** [Heap::Compare] *)
Definition Compare {T} `{Ordered T} (HeapT : heap_type) : T → T → bool :=
  match HeapT with
  | min_heap => greater
  | max_heap => less
  end.

#[global] Instance Z_Ordered : Ordered Z := {| less := Z.ltb; greater := Z.gtb |}.

(** ** The state a heap runs on

    [nodes_] is the protected vector of [Heap]; [set_nodes_] is a direct
    assignment to it; [swap_nodes] is the virtual method. *)

Class HeapState (T St : Type) : Type := {
  nodes_ : St → list T;
  set_nodes_ : list T → St → St;
  swap_nodes : Z → Z → St → result St
}.

(** [Heap::swap_nodes], the base implementation *)
Definition Heap_swap_nodes {T} (i j : Z) (l : list T) : result (list T) :=
  noexcept (vec_swap_at i j l).

#[global] Instance Heap_state (T : Type) : HeapState T (list T) := {|
  nodes_ := λ l, l;
  set_nodes_ := λ l _, l;
  swap_nodes := Heap_swap_nodes
|}.

(** ** [heap.h], [binary_heap.h], [k_heap.h] *)

(** The class derived from [Heap] that supplies [parent], [heapify_down]
    and [build_heap]. *)
Inductive HeapC : Type :=
| binary_heap
| k_heap (K : Z).

Section heap.
Context {T St : Type} `{HeapState T St}.

Definition size (s : St) : Z := vec_size (nodes_ s).
Definition empty (s : St) : bool := size s =? 0.

(* [Heap::top] *)
Definition top (s : St) : result T := vec_at (nodes_ s) 0.
End heap.

Module BinaryHeap.
Section binary_heap.
Context {T St : Type} `{HeapState T St}.
Variable comp_ : T → T → bool.

Definition left (i : Z) : Z := wrap (wrap (Z.shiftl i 1) + 1).
Definition right (i : Z) : Z := wrap (wrap (Z.shiftl i 1) + 2).

Definition is_leaf (s : St) (i : Z) : bool :=
  wrap (Z.shiftr (size s) 1 + 1) <=? i.

Definition parent (i : Z) : Z := Z.shiftr (wrap (i - 1)) 1.

(* one child test of [heapify_down]:
   [if (c < len && comp_(nodes_[comp_est], nodes_[c])) comp_est = c;] *)
Definition consider (len : Z) (l : list T) (comp_est c : Z) : result Z :=
  if c <? len then
    a ← vec_subscript l comp_est;
    b ← vec_subscript l c;
    Ok (if comp_ a b then c else comp_est)
  else Ok comp_est.

Fixpoint heapify_down_loop (fuel : nat) (len i : Z) (s : St) : result St :=
  match fuel with
  | O => Err out_of_fuel
  | S fuel' =>
    if is_leaf s i then Ok s
    else
      let l := left i in
      let r := right i in
      comp_est ← consider len (nodes_ s) i l;
      comp_est ← consider len (nodes_ s) comp_est r;
      if i =? comp_est then Ok s
      else
        s' ← swap_nodes i comp_est s;
        heapify_down_loop fuel' len comp_est s'
  end.

Definition heapify_down (index_to_fix : Z) (s : St) : result St :=
  let len := size s in
  noexcept (heapify_down_loop (S (length (nodes_ s))) len index_to_fix s).

(* [for (i = (size() >> 1) + 1; i > 0; --i) heapify_down(i - 1);] *)
Fixpoint build_heap_loop (i : nat) (s : St) : result St :=
  match i with
  | O => Ok s
  | S i' => s' ← heapify_down (Z.of_nat i') s; build_heap_loop i' s'
  end.

Definition build_heap (s : St) : result St :=
  build_heap_loop (Z.to_nat (wrap (Z.shiftr (size s) 1 + 1))) s.
End binary_heap.
End BinaryHeap.

Module KHeap.
Section k_heap.
Context {T St : Type} `{HeapState T St}.
Variable comp_ : T → T → bool.
Variable K : Z.

(* [std::enable_if<(K > 2 && K <= 64)>] *)
Definition arity_ok : bool := (2 <? K) && (K <=? 64).

Definition child (i j : Z) : Z := wrap (wrap (wrap (K * i) + j) + 1).

Definition is_leaf (s : St) (i : Z) : bool :=
  wrap (size s - 2) / K <? i.

Definition parent (i : Z) : Z := wrap (i - 1) / K.

(* the body of the [for] loop over [j] *)
Definition consider (len : Z) (l : list T) (i comp_est j : Z) : result Z :=
  let son := child i j in
  if son <? len then
    a ← vec_subscript l comp_est;
    b ← vec_subscript l son;
    Ok (if comp_ a b then son else comp_est)
  else Ok comp_est.

Fixpoint heapify_down_loop (fuel : nat) (len i comp_est : Z) (s : St) : result St :=
  match fuel with
  | O => Err out_of_fuel
  | S fuel' =>
    if is_leaf s i then Ok s
    else
      comp_est ← foldM (consider len (nodes_ s) i) (seqZ 0 K) comp_est;
      if i =? comp_est then Ok s
      else
        s' ← swap_nodes i comp_est s;
        heapify_down_loop fuel' len comp_est comp_est s'
  end.

Definition heapify_down (index_to_fix : Z) (s : St) : result St :=
  let len := size s in
  let i := index_to_fix in
  let comp_est := i in
  noexcept (heapify_down_loop (S (length (nodes_ s))) len i comp_est s).

(* [for (i = (size() / K) + 1; i > 0; --i) heapify_down(i - 1);] *)
Fixpoint build_heap_loop (i : nat) (s : St) : result St :=
  match i with
  | O => Ok s
  | S i' => s' ← heapify_down (Z.of_nat i') s; build_heap_loop i' s'
  end.

Definition build_heap (s : St) : result St :=
  build_heap_loop (Z.to_nat (wrap (size s / K + 1))) s.
End k_heap.
End KHeap.

Section heap_methods.
Context {T St : Type} `{HeapState T St}.
Variable comp_ : T → T → bool.
Variable C : HeapC.

(** virtual dispatch *)
Definition parent (i : Z) : Z :=
  match C with
  | binary_heap => BinaryHeap.parent i
  | k_heap K => KHeap.parent K i
  end.

Definition heapify_down (index_to_fix : Z) (s : St) : result St :=
  match C with
  | binary_heap => BinaryHeap.heapify_down comp_ index_to_fix s
  | k_heap K => KHeap.heapify_down comp_ K index_to_fix s
  end.

Definition build_heap (s : St) : result St :=
  match C with
  | binary_heap => BinaryHeap.build_heap comp_ s
  | k_heap K => KHeap.build_heap comp_ K s
  end.

(* [Heap::heapify_up] *)
Fixpoint heapify_up_loop (fuel : nat) (i : Z) (s : St) : result St :=
  match fuel with
  | O => Err out_of_fuel
  | S fuel' =>
    if 0 <? i then
      a ← vec_at (nodes_ s) (parent i);
      b ← vec_at (nodes_ s) i;
      if comp_ a b then
        let p := parent i in
        s' ← swap_nodes i p s;
        heapify_up_loop fuel' p s'
      else Ok s
    else Ok s
  end.

Definition heapify_up (index_to_fix : Z) (s : St) : result St :=
  noexcept (heapify_up_loop (S (length (nodes_ s))) index_to_fix s).

(* [Heap::heapify] *)
Definition heapify (IsHeap : bool) (s : St) : result St :=
  if IsHeap then Ok s else build_heap s.

(* [Heap::pop] *)
Definition pop (s : St) : result St :=
  l ← vec_front_assign_back (nodes_ s);
  let s := set_nodes_ (vec_pop_back l) s in
  heapify_down 0 s.

(* [Heap::push] *)
Definition push (x : T) (s : St) : result St :=
  let index_to_fix := size s in
  l ← vec_emplace_back x (nodes_ s);
  let s := set_nodes_ l s in
  heapify_up index_to_fix s.
End heap_methods.

(** *** Factories *)

Section factories.
Context {T : Type} `{Ordered T}.

Definition make_heap (HeapT : heap_type) (C : HeapC) (IsHeap : bool)
    (inputs : list T) : result (list T) :=
  match C with
  | binary_heap => heapify (Compare HeapT) C IsHeap inputs
  | k_heap K =>
    if KHeap.arity_ok K then heapify (Compare HeapT) C IsHeap inputs
    else Err configuration_error
  end.

Definition make_min_heap := make_heap min_heap binary_heap.
Definition make_max_heap := make_heap max_heap binary_heap.
Definition make_min_k_heap (K : Z) := make_heap min_heap (k_heap K).
Definition make_max_k_heap (K : Z) := make_heap max_heap (k_heap K).

(** The extraction loop of the test suite:
    [for (...) { x = h.top(); ...; h.pop(); }], run [n] times. *)
Fixpoint pop_all (HeapT : heap_type) (C : HeapC) (n : nat) (h : list T)
    : result (list T) :=
  match n with
  | O => Ok []
  | S n' =>
    x ← top h;
    h' ← pop (Compare HeapT) C h;
    rest ← pop_all HeapT C n' h';
    Ok (x :: rest)
  end.

Definition extraction_order (HeapT : heap_type) (C : HeapC) (h : list T)
    : result (list T) :=
  pop_all HeapT C (length h) h.
End factories.

(** ** [util/range.h] and [functional/zip.h] *)

(* [range<size_t>(size, start)]: [std::iota] over a vector of [size] slots *)
Definition range (size start : Z) : list Z := wrap <$> seqZ start size.

(* [zip(a, b)]: iteration stops as soon as either range is exhausted *)
Fixpoint zip {A B} (a : list A) (b : list B) : list (A * B) :=
  match a, b with
  | x :: a', y :: b' => (x, y) :: zip a' b'
  | _, _ => []
  end.

(** ** [std::unordered_map<ValueT, V>] *)

Section unordered_map.
Context {ValueT : Type} `{Countable ValueT} {V : Type}.

(* [m.at(k)] *)
Definition umap_at (m : gmap ValueT V) (k : ValueT) : result V :=
  match m !! k with
  | Some v => Ok v
  | None => Err out_of_range
  end.

(* the insertion performed by [m[k]] when [k] is absent: the mapped value
   is value-initialised to [d] *)
Definition umap_touch (d : V) (k : ValueT) (m : gmap ValueT V) : gmap ValueT V :=
  match m !! k with
  | Some _ => m
  | None => <[k:=d]> m
  end.

(* the value read through [m[k]] *)
Definition umap_subscript (d : V) (m : gmap ValueT V) (k : ValueT) : V :=
  default d (m !! k).

(* [std::swap(m[a], m[b])] *)
Definition umap_swap (d : V) (a b : ValueT) (m : gmap ValueT V) : gmap ValueT V :=
  let m := umap_touch d b (umap_touch d a m) in
  let va := umap_subscript d m a in
  let vb := umap_subscript d m b in
  <[b:=va]> (<[a:=vb]> m).
End unordered_map.

(** ** [priority_queue.h] *)

Module PriorityQueue.
(* the members of the base class, as the source names them through [super::] *)
Local Abbreviation super_size := size.
Local Abbreviation super_empty := empty.
Local Abbreviation super_top := top.
Local Abbreviation super_push := push.
Local Abbreviation super_heapify := heapify.

Section priority_queue.
Context {KeyT ValueT : Type} `{Countable ValueT} `{Ordered ValueT}.

Record state : Type := mk_state {
  pq_nodes : list ValueT;            (* the inherited [nodes_] *)
  key_map_ : gmap ValueT KeyT;
  index_map_ : gmap ValueT Z
}.

(* the override of the virtual method *)
Definition swap_nodes (i j : Z) (q : state) : result state :=
  noexcept (
    node_i ← vec_subscript (pq_nodes q) i;
    node_j ← vec_subscript (pq_nodes q) j;
    (* swap the indexes first, then the nodes *)
    let index_map := umap_swap 0 node_i node_j (index_map_ q) in
    nodes ← Heap_swap_nodes i j (pq_nodes q);
    Ok (mk_state nodes (key_map_ q) index_map)).

#[global] Instance heap_state : HeapState ValueT state :=
  Build_HeapState ValueT state
    pq_nodes
    (λ l q, mk_state l (key_map_ q) (index_map_ q))
    swap_nodes.

Definition build_key_map (keys : list KeyT) (nodes : list ValueT)
    : result (gmap ValueT KeyT) :=
  _ ← assert (vec_size keys =? vec_size nodes);
  Ok (fold_left (λ key_map '(key, node), <[node:=key]> key_map) (zip keys nodes) ∅).

Definition build_index_map (nodes : list ValueT) : gmap ValueT Z :=
  let n := vec_size nodes in
  let indexes := range n 0 in
  fold_left (λ index_map '(node, index), <[node:=index]> index_map)
    (zip nodes indexes) ∅.

Variable HeapT : heap_type.
Variable C : HeapC.
Variable IsHeap : bool.

(* the constructor taking rvalues, the one the factories call *)
Definition construct (keys : list KeyT) (inputs : list ValueT) : result state :=
  key_map ← build_key_map keys inputs;
  let index_map := build_index_map inputs in
  super_heapify (Compare HeapT) C IsHeap (mk_state inputs key_map index_map).

Definition size (q : state) : Z := super_size q.
Definition empty (q : state) : bool := super_empty q.

Definition push (key : KeyT) (element : ValueT) (q : state) : result state :=
  let index_to_fix := size q in
  let q := mk_state (pq_nodes q) (key_map_ q) (<[element:=index_to_fix]> (index_map_ q)) in
  let q := mk_state (pq_nodes q) (<[element:=key]> (key_map_ q)) (index_map_ q) in
  super_push (Compare HeapT) C element q.

(* with assertions compiled out, an empty queue fails one statement later,
   at the range-checked [nodes_.at(0)] *)
Definition pop (q : state) : result state :=
  _ ← assert (0 <? size q);
  let index_to_remove := 0 in
  node ← vec_at (pq_nodes q) index_to_remove;
  let index_map := delete node (index_map_ q) in
  let key_map := delete node (key_map_ q) in
  (* replace root of the heap with the last element of the vector *)
  nodes ← match last (pq_nodes q) with
          | Some b => Ok (<[0%nat:=b]> (pq_nodes q))
          | None => Err undefined_behaviour
          end;
  (* remove the last element of the vector *)
  let nodes := vec_pop_back nodes in
  let q := mk_state nodes key_map index_map in
  if 0 <? size q then
    match head (pq_nodes q) with
    | Some front =>
      let q := mk_state (pq_nodes q) (key_map_ q) (<[front:=0]> (index_map_ q)) in
      heapify_down (Compare HeapT) C 0 q
    | None => Err undefined_behaviour
    end
  else Ok q.

Definition update_key (key : KeyT) (element : ValueT) (q : state) : result state :=
  let index_to_fix := umap_subscript 0 (index_map_ q) element in
  let q := mk_state (pq_nodes q) (key_map_ q) (umap_touch 0 element (index_map_ q)) in
  let q := mk_state (pq_nodes q) (<[element:=key]> (key_map_ q)) (index_map_ q) in
  match HeapT with
  | min_heap => heapify_up (Compare HeapT) C index_to_fix q
  | max_heap => heapify_down (Compare HeapT) C index_to_fix q
  end.

Definition key_at (element : ValueT) (q : state) : result KeyT :=
  umap_at (key_map_ q) element.

Definition contains (element : ValueT) (q : state) : bool :=
  bool_decide (is_Some (index_map_ q !! element)).

Definition top (q : state) : result ValueT := super_top q.

Definition top_key_value (q : state) : result (KeyT * ValueT) :=
  top_value ← top q;
  top_key ← key_at top_value q;
  Ok (top_key, top_value).
End priority_queue.
End PriorityQueue.

Section pq_factories.
Context {KeyT ValueT : Type} `{Countable ValueT} `{Ordered ValueT}.

Definition make_priority_queue (HeapT : heap_type) (C : HeapC) (IsHeap : bool)
    (keys : list KeyT) (values : list ValueT)
    : result (@PriorityQueue.state KeyT ValueT _ _) :=
  match C with
  | binary_heap => PriorityQueue.construct HeapT C IsHeap keys values
  | k_heap K =>
    if KHeap.arity_ok K then PriorityQueue.construct HeapT C IsHeap keys values
    else Err configuration_error
  end.

Definition make_min_priority_queue := make_priority_queue min_heap binary_heap.
Definition make_max_priority_queue := make_priority_queue max_heap binary_heap.
Definition make_min_k_priority_queue (K : Z) := make_priority_queue min_heap (k_heap K).
Definition make_max_k_priority_queue (K : Z) := make_priority_queue max_heap (k_heap K).

(** The loop of the priority-queue tests:
    [for (...) { q.top_key_value(); q.pop(); }] *)
Fixpoint pq_pop_all (HeapT : heap_type) (C : HeapC) (n : nat)
    (q : @PriorityQueue.state KeyT ValueT _ _) : result (list (KeyT * ValueT)) :=
  match n with
  | O => Ok []
  | S n' =>
    kv ← PriorityQueue.top_key_value q;
    q' ← PriorityQueue.pop HeapT C q;
    rest ← pq_pop_all HeapT C n' q';
    Ok (kv :: rest)
  end.
End pq_factories.

(** ** The sequence model

    Total functions on lists with [nat] indices.  [arity] is the branching
    factor of a heap class. *)

Definition arity (C : HeapC) : nat :=
  match C with
  | binary_heap => 2
  | k_heap K => Z.to_nat K
  end.

Section sequence_model.
Local Open Scope nat_scope.
Context {T : Type}.
Variable comp : T → T → bool.
Variable K : nat.

Definition list_swap (i j : nat) (l : list T) : list T :=
  match l !! i, l !! j with
  | Some a, Some b => <[j:=a]> (<[i:=b]> l)
  | _, _ => l
  end.

Definition child_idx (i j : nat) : nat := K * i + j + 1.
Definition parent_idx (i : nat) : nat := (i - 1) / K.

(* the candidate after comparing it with slot [c] *)
Definition better (l : list T) (ce c : nat) : nat :=
  match l !! ce, l !! c with
  | Some a, Some b => if comp a b then c else ce
  | _, _ => ce
  end.

(* the slot chosen among [i] and its first [n] children, scanned left
   to right *)
Definition select_upto (n i : nat) (l : list T) : nat :=
  fold_left (better l) (child_idx i <$> seq 0 n) i.

Definition select (i : nat) (l : list T) : nat := select_upto K i l.

Fixpoint sift_down (fuel i : nat) (l : list T) : list T :=
  match fuel with
  | O => l
  | S fuel' =>
    let ce := select i l in
    if decide (ce = i) then l else sift_down fuel' ce (list_swap i ce l)
  end.

Fixpoint sift_up (fuel i : nat) (l : list T) : list T :=
  match fuel with
  | O => l
  | S fuel' =>
    match i, l !! parent_idx i, l !! i with
    | S _, Some a, Some b =>
      if comp a b then sift_up fuel' (parent_idx i) (list_swap i (parent_idx i) l)
      else l
    | _, _, _ => l
    end
  end.

(* the slot at which [sift_up] leaves the element it started with *)
Fixpoint sift_up_pos (fuel i : nat) (l : list T) : nat :=
  match fuel with
  | O => i
  | S fuel' =>
    match i, l !! parent_idx i, l !! i with
    | S _, Some a, Some b =>
      if comp a b then sift_up_pos fuel' (parent_idx i) (list_swap i (parent_idx i) l)
      else i
    | _, _, _ => i
    end
  end.

Fixpoint build_from (n : nat) (l : list T) : list T :=
  match n with
  | O => l
  | S n' => build_from n' (sift_down (length l) n' l)
  end.

Definition build (l : list T) : list T := build_from (length l / K + 1) l.

Definition seq_pop (l : list T) : list T :=
  match last l with
  | Some b => let l' := take (Nat.pred (length l)) (<[0:=b]> l) in
              sift_down (length l') 0 l'
  | None => l
  end.

Definition seq_push (x : T) (l : list T) : list T :=
  sift_up (S (length (l ++ [x]))) (length l) (l ++ [x]).

Fixpoint seq_pop_all (n : nat) (l : list T) : list T :=
  match n, l with
  | S n', x :: _ => x :: seq_pop_all n' (seq_pop l)
  | _, _ => []
  end.

(** The heap property, as the specification words it: for every slot
    [i] and every in-bounds child [c], [comp (nodes[i], nodes[c])] is
    false. *)
Definition heap_property (l : list T) : Prop :=
  ∀ i j x y, j < K → l !! i = Some x → l !! child_idx i j = Some y →
    comp x y = false.

(* the heap property restricted to parents at slot [k] or beyond *)
Definition heap_from (k : nat) (l : list T) : Prop :=
  ∀ i j x y, k ≤ i → j < K → l !! i = Some x → l !! child_idx i j = Some y →
    comp x y = false.

(* the heap property with slot [cur] possibly too low in the tree *)
Definition down_inv (k cur : nat) (l : list T) : Prop :=
  (∀ i j x y, k ≤ i → i ≠ cur → j < K →
     l !! i = Some x → l !! child_idx i j = Some y → comp x y = false) ∧
  (∀ p j j' x y, k ≤ p → j < K → j' < K → cur = child_idx p j →
     l !! p = Some x → l !! child_idx cur j' = Some y → comp x y = false).

(* the heap property with slot [cur] possibly too high in the tree *)
Definition up_inv (cur : nat) (l : list T) : Prop :=
  (∀ i j x y, j < K → child_idx i j ≠ cur →
     l !! i = Some x → l !! child_idx i j = Some y → comp x y = false) ∧
  (∀ p j j' x y, j < K → j' < K → cur = child_idx p j →
     l !! p = Some x → l !! child_idx cur j' = Some y → comp x y = false).
End sequence_model.

(** A decision procedure for the heap property. *)
Definition heap_propertyb {T} (comp : T → T → bool) (K : nat) (l : list T) : bool :=
  forallb (λ i,
    forallb (λ j,
      match l !! i, l !! child_idx K i j with
      | Some x, Some y => negb (comp x y)
      | _, _ => true
      end) (seq 0 K)) (seq 0 (length l)).

(** The comparator requirement of the C++ standard library: a strict weak
    ordering. *)
Class StrictWeakOrder {T} (comp : T → T → bool) : Prop := {
  swo_irrefl : ∀ a, comp a a = false;
  swo_trans : ∀ a b c, comp a b = true → comp b c = true → comp a c = true;
  swo_incomp : ∀ a b c, comp a b = false → comp b c = false → comp a c = false
}.

(** The arities for which the index arithmetic of a heap class is free of
    overflow on every vector.  (The public k-ary factories accept fewer:
    see [KHeap.arity_ok].) *)
Definition arity_in_range (C : HeapC) : Prop :=
  match C with
  | binary_heap => True
  | k_heap K => 0 < K ≤ 64
  end.

(** The heap classes the factories can be instantiated with. *)
Definition HeapC_ok (C : HeapC) : Prop :=
  match C with
  | binary_heap => True
  | k_heap K => KHeap.arity_ok K = true
  end.

(** A sequence of mutating operations on a heap. *)
Inductive heap_op (T : Type) : Type :=
| op_push (x : T)
| op_pop.
Arguments op_push {T} x.
Arguments op_pop {T}.

Fixpoint run_heap_ops {T} (comp : T → T → bool) (C : HeapC)
    (ops : list (heap_op T)) (h : list T) : result (list T) :=
  match ops with
  | [] => Ok h
  | op_push x :: ops' => h' ← push comp C x h; run_heap_ops comp C ops' h'
  | op_pop :: ops' => h' ← pop comp C h; run_heap_ops comp C ops' h'
  end.

(** The heap property of a heap of class [C]. *)
Definition is_heap {T} (comp : T → T → bool) (C : HeapC) (l : list T) : Prop :=
  heap_property comp (arity C) l.

(** ** The indexed priority queue: consistency of the maps *)

#[global] Instance result_fmap : FMap result := λ A B f r,
  match r with
  | Ok a => Ok (f a)
  | Err e => Err e
  end.

Section pq_model.
Context {KeyT ValueT : Type} `{Countable ValueT} `{Ordered ValueT}.
Local Abbreviation pq := (@PriorityQueue.state KeyT ValueT _ _).

(** The two maps are the inverse of the sequence: [index_map_] sends a
    value to a slot exactly when that slot holds the value, and [key_map_]
    is defined exactly on the values the sequence holds. *)
Definition maps_consistent (q : pq) : Prop :=
  (∀ v (z : Z), PriorityQueue.index_map_ q !! v = Some z ↔
     ∃ n : nat, z = Z.of_nat n ∧ PriorityQueue.pq_nodes q !! n = Some v) ∧
  (∀ v, is_Some (PriorityQueue.key_map_ q !! v) ↔ v ∈ PriorityQueue.pq_nodes q).

(** A decision procedure for [maps_consistent]. *)
Definition maps_consistentb (q : pq) : bool :=
  bool_decide (NoDup (PriorityQueue.pq_nodes q)) &&
  bool_decide (PriorityQueue.index_map_ q
               = list_to_map (imap (λ n v, (v, Z.of_nat n)) (PriorityQueue.pq_nodes q))) &&
  bool_decide (dom (PriorityQueue.key_map_ q) = list_to_set (PriorityQueue.pq_nodes q)).

(* the queue [q] with its key map replaced *)
Definition with_keys (key_map : gmap ValueT KeyT) (q : pq) : pq :=
  PriorityQueue.mk_state (PriorityQueue.pq_nodes q) key_map (PriorityQueue.index_map_ q).

Inductive pq_op : Type :=
| pq_push (key : KeyT) (element : ValueT)
| pq_pop
| pq_update_key (key : KeyT) (element : ValueT).

Definition pq_step (HeapT : heap_type) (C : HeapC) (op : pq_op) (q : pq) : result pq :=
  match op with
  | pq_push key element => PriorityQueue.push HeapT C key element q
  | pq_pop => PriorityQueue.pop HeapT C q
  | pq_update_key key element => PriorityQueue.update_key HeapT C key element q
  end.

(** What the source asks of the caller: a pushed value is not yet in the
    queue, an updated value is. *)
Definition pq_op_pre (op : pq_op) (q : pq) : Prop :=
  match op with
  | pq_push _ element => PriorityQueue.contains element q = false
  | pq_pop => True
  | pq_update_key _ element => PriorityQueue.contains element q = true
  end.

(** [pq_trace q0 ops q]: the operations [ops], each called within its
    precondition, take the queue from [q0] to [q]. *)
Inductive pq_trace (HeapT : heap_type) (C : HeapC) (q0 : pq) : list pq_op → pq → Prop :=
| pq_trace_nil : pq_trace HeapT C q0 [] q0
| pq_trace_snoc ops q op q' :
    pq_trace HeapT C q0 ops q →
    pq_op_pre op q →
    pq_step HeapT C op q = Ok q' →
    pq_trace HeapT C q0 (ops ++ [op]) q'.

(** The same without the preconditions. *)
Definition run_pq_ops (HeapT : heap_type) (C : HeapC) (ops : list pq_op) (q : pq)
    : result pq :=
  foldM (λ q op, pq_step HeapT C op q) ops q.

(** The key most recently assigned to [v] by [push] or [update_key], given
    the key [init] it had before the operations. *)
Definition assign (v : ValueT) (acc : option KeyT) (op : pq_op) : option KeyT :=
  match op with
  | pq_push key element | pq_update_key key element =>
    if decide (element = v) then Some key else acc
  | pq_pop => acc
  end.

Definition last_assigned (ops : list pq_op) (v : ValueT) (init : option KeyT)
    : option KeyT :=
  fold_left (assign v) ops init.
End pq_model.

(** A small queue over the integers: values 3 and 7 with keys 10 and 20. *)
Definition example_queue : @PriorityQueue.state Z Z _ _ :=
  PriorityQueue.mk_state [3; 7] {[3 := 10; 7 := 20]} {[3 := 0; 7 := 1]}.

(** ** [functional/fmap.h], [util/resize.h], [util/shift_to_value.h] *)

(* [fmap(f, container)]: [std::transform] into a new vector *)
Definition fmap_vec {A B} (f : A → B) (container : list A) : list B := f <$> container.

(* [fmap(f, first, last)] over the iterators at offsets [first] and [last] *)
Definition fmap_iter {A B} (f : A → B) (container : list A) (first last : nat) : list B :=
  fmap_vec f (take (last - first) (drop first container)).

(* [container.erase(std::end(container) - amount, std::end(container))]:
   an iterator before [begin()] is undefined *)
Definition resize {T} (container : list T) (amount : Z) : result (list T) :=
  if (0 <=? amount) && (amount <=? vec_size container)
  then Ok (take (Z.to_nat (vec_size container - amount)) container)
  else Err undefined_behaviour.

Section shift_to_value.
Context {T : Type} `{EqDecision T}.

(* [std::find(first, last, value) - first] *)
Fixpoint find_offset (value : T) (l : list T) : nat :=
  match l with
  | [] => 0
  | x :: l' => if decide (x = value) then 0 else S (find_offset value l')
  end.

(* [std::rotate(first, first + middle, last)] *)
Definition std_rotate (middle : nat) (l : list T) : list T :=
  drop middle l ++ take middle l.

Definition shift_to_value (container : list T) (value : T) : list T :=
  let pos_it := find_offset value container in
  std_rotate pos_it container.
End shift_to_value.

(** ** [sparse_byte_set.h] *)

(** [uint8_t] and [uint16_t] values are integers reduced modulo [2^8] and
    [2^16]. *)
Definition uint8 (z : Z) : Z := z mod 2 ^ 8.
Definition uint16 (z : Z) : Z := z mod 2 ^ 16.
Definition is_byte (z : Z) : Prop := 0 ≤ z < 2 ^ 8.

#[global] Instance is_byte_dec z : Decision (is_byte z).
Proof. unfold is_byte. apply _. Defined.

(* [a[i] = x] on a built-in array: unchecked *)
Definition array_store {T} (l : list T) (i : Z) (x : T) : result (list T) :=
  if (0 <=? i) && (i <? vec_size l) then Ok (<[Z.to_nat i:=x]> l)
  else Err undefined_behaviour.

Module SparseByteSet.
Definition capacity : Z := 256.

Record state : Type := mk_state {
  size_ : Z;            (* [uint16_t] *)
  sparse_ : list Z;     (* [uint8_t sparse_[capacity]] *)
  dense_ : list Z       (* [uint8_t dense_[capacity]] *)
}.

(* the constructor sets [size_] only: the two arrays keep whatever bytes
   their storage holds, here [sparse] and [dense] *)
Definition construct (sparse dense : list Z) : state := mk_state 0 sparse dense.

Definition contains (byte : Z) (s : state) : result bool :=
  i ← vec_subscript (sparse_ s) byte;
  if i <? size_ s then
    d ← vec_subscript (dense_ s) i;
    Ok (d =? byte)
  else Ok false.

Definition add (byte : Z) (s : state) : result (bool * state) :=
  c ← contains byte s;
  let result := negb c in
  if result then
    dense ← array_store (dense_ s) (size_ s) byte;
    sparse ← array_store (sparse_ s) byte (uint8 (size_ s));
    Ok (result, mk_state (uint16 (size_ s + 1)) sparse dense)
  else Ok (result, s).

Definition reset (s : state) : state :=
  mk_state 0 (replicate (Z.to_nat capacity) 0) (replicate (Z.to_nat capacity) 0).

(* [for (b : bytes) s.add(b);] *)
Definition add_all (bytes : list Z) (s : state) : result state :=
  foldM (λ s byte, '(_, s') ← add byte s; Ok s') bytes s.

(** The bytes the set holds: the first [size_] slots of [dense_]. *)
Definition members (s : state) : list Z := take (Z.to_nat (size_ s)) (dense_ s).

(** The representation invariant: both arrays have [capacity] byte slots,
    and every one of the first [size_] slots of [dense_] is pointed at by
    the [sparse_] slot of the byte it holds. *)
Definition wf (s : state) : Prop :=
  length (sparse_ s) = Z.to_nat capacity ∧
  length (dense_ s) = Z.to_nat capacity ∧
  Forall is_byte (sparse_ s) ∧
  Forall is_byte (dense_ s) ∧
  0 ≤ size_ s ≤ capacity ∧
  ∀ (k : nat) b, Z.of_nat k < size_ s → dense_ s !! k = Some b →
    sparse_ s !! Z.to_nat b = Some (Z.of_nat k).
End SparseByteSet.

(** ** [disjoint_set.h] *)

(* [m.emplace(k, v)]: inserts only when [k] is absent; yields the map, the
   mapped value the returned iterator points at, and whether it inserted *)
Definition umap_emplace {K V} `{Countable K} (k : K) (v : V) (m : gmap K V)
    : gmap K V * V * bool :=
  match m !! k with
  | Some v' => (m, v', false)
  | None => (<[k:=v]> m, v, true)
  end.

Module DisjointSet.
Record Node : Type := mk_Node {
  parent : Z;
  rank : Z
}.

(* [Node(std::size_t parent)], with the default member initialiser of [rank] *)
Definition Node_init (parent : Z) : Node := mk_Node parent 0.

(* [nodes_[index].parent = p] and [++(nodes_[index].rank)] *)
Definition set_parent (index p : Z) (nodes : list Node) : result (list Node) :=
  n ← vec_subscript nodes index;
  Ok (<[Z.to_nat index:=mk_Node p (rank n)]> nodes).

Definition incr_rank (index : Z) (nodes : list Node) : result (list Node) :=
  n ← vec_subscript nodes index;
  Ok (<[Z.to_nat index:=mk_Node (parent n) (wrap (rank n + 1))]> nodes).

Section disjoint_set.
Context {T : Type} `{Countable T}.

Record state : Type := mk_state {
  nodes_ : list Node;
  index_map_ : gmap T Z
}.

(* initialize every item as the parent of itself with rank 0 *)
Definition init_nodes (size : Z) : list Node :=
  let parents := range size 0 in
  fmap_vec (λ parent, Node_init parent) parents.

(* initialize the index map in sequential order, starting from 0 *)
Definition init_index_map (inputs : list T) : gmap T Z :=
  let size := vec_size inputs in
  fold_left (λ index_map '(x, i), (umap_emplace x i index_map).1.1)
    (zip inputs (range size 0)) ∅.

(* the [while] loop of [find], with path splitting *)
Fixpoint find_loop (fuel : nat) (index : Z) (nodes : list Node)
    : result (Z * list Node) :=
  match fuel with
  | O => Err out_of_fuel
  | S fuel' =>
    n ← vec_subscript nodes index;
    if index =? parent n then Ok (index, nodes)
    else
      (* skip parent and point to grandparent *)
      p ← vec_subscript nodes (parent n);
      let grandparent := parent p in
      nodes ← set_parent index grandparent nodes;
      find_loop fuel' grandparent nodes
  end.

Definition find (index : Z) (s : state) : result (Z * state) :=
  noexcept (
    '(index, nodes) ← find_loop (S (length (nodes_ s))) index (nodes_ s);
    Ok (index, mk_state nodes (index_map_ s))).

Definition construct (inputs : list T) : state :=
  mk_state (init_nodes (vec_size inputs)) (init_index_map inputs).

Definition add (x : T) (s : state) : result (Z * state) :=
  let i := vec_size (nodes_ s) in
  nodes ← vec_emplace_back (Node_init i) (nodes_ s);
  let '(index_map, it_second, ok) := umap_emplace x i (index_map_ s) in
  _ ← assert ok;
  Ok (it_second, mk_state nodes index_map).

Definition unite (x y : T) (s : state) : result state :=
  noexcept (
    ix ← umap_at (index_map_ s) x;
    '(i, s) ← find ix s;
    iy ← umap_at (index_map_ s) y;
    '(j, s) ← find iy s;
    if i =? j then Ok s
    else
      (* if two sets are united and have different ranks,
         the resulting set's rank is the larger of the two *)
      ni ← vec_subscript (nodes_ s) i;
      nj ← vec_subscript (nodes_ s) j;
      let '(i, j) := if rank ni <? rank nj then (j, i) else (i, j) in
      nodes ← set_parent j i (nodes_ s);
      (* if two sets are united and have the same rank,
         the resulting representative set's rank is one unit larger *)
      ni ← vec_subscript nodes i;
      nj ← vec_subscript nodes j;
      if rank ni =? rank nj then
        nodes ← incr_rank j nodes;
        Ok (mk_state nodes (index_map_ s))
      else Ok (mk_state nodes (index_map_ s))).

(* [find(index_map_.at(x)) == find(index_map_.at(y))]: the two operands are
   evaluated in either order; [lhs_first] says which *)
Definition are_connected (lhs_first : bool) (x y : T) (s : state)
    : result (bool * state) :=
  noexcept (
    if lhs_first then
      ix ← umap_at (index_map_ s) x;
      '(i, s) ← find ix s;
      iy ← umap_at (index_map_ s) y;
      '(j, s) ← find iy s;
      Ok (i =? j, s)
    else
      iy ← umap_at (index_map_ s) y;
      '(j, s) ← find iy s;
      ix ← umap_at (index_map_ s) x;
      '(i, s) ← find ix s;
      Ok (i =? j, s)).

(* [for (auto&& [x, index] : index_map_) sets[find(index)].emplace_back(x);]
   the map is visited in the order [entries], which the standard library
   leaves unspecified *)
Definition get_sets_from (entries : list (T * Z)) (s : state)
    : result (gmap Z (list T) * state) :=
  noexcept (
    foldM (λ '(sets, s) '(x, index),
             '(r, s) ← find index s;
             Ok (<[r:=default [] (sets !! r) ++ [x]]> sets, s))
      entries (∅, s)).
End disjoint_set.
End DisjointSet.

(** ** The disjoint set: forests and representatives *)

Section disjoint_set_model.
Import DisjointSet.
Context {T : Type} `{Countable T}.

(** [root_at nodes i r d]: following the parent links from slot [i] reaches,
    after [d] steps, the slot [r] that is its own parent. *)
Inductive root_at (nodes : list Node) : nat → nat → nat → Prop :=
| root_at_self i n :
    nodes !! i = Some n → parent n = Z.of_nat i → root_at nodes i i 0
| root_at_step i n p r d :
    nodes !! i = Some n → parent n = Z.of_nat p → p ≠ i →
    root_at nodes p r d → root_at nodes i r (S d).

(** What [find] may change: no length, no rank, no representative. *)
Definition roots_kept (nodes nodes' : list Node) : Prop :=
  length nodes' = length nodes ∧
  (∀ k, rank <$> nodes' !! k = rank <$> nodes !! k) ∧
  (∀ k r d, root_at nodes k r d → ∃ d', root_at nodes' k r d').

(** The states the public methods produce: the parent links form a forest
    inside the vector, a slot that is its own parent has rank 0 (and no rank
    exceeds 1), and the index map sends distinct elements to distinct slots
    of the vector. *)
Definition ds_wf (s : @state T _ _) : Prop :=
  vec_size (nodes_ s) ≤ max_size ∧
  (∀ i, (i < length (nodes_ s))%nat → ∃ r d, root_at (nodes_ s) i r d) ∧
  (∀ i n, nodes_ s !! i = Some n → 0 ≤ rank n ≤ 1) ∧
  (∀ i n, nodes_ s !! i = Some n → parent n = Z.of_nat i → rank n = 0) ∧
  (∀ x z, index_map_ s !! x = Some z → 0 ≤ z < vec_size (nodes_ s)) ∧
  (∀ x y z, index_map_ s !! x = Some z → index_map_ s !! y = Some z → x = y).

(** [r] is the representative of the element [x]. *)
Definition representative (s : @state T _ _) (x : T) (r : nat) : Prop :=
  ∃ (i d : nat), index_map_ s !! x = Some (Z.of_nat i) ∧ root_at (nodes_ s) i r d.

Definition same_set (s : @state T _ _) (x y : T) : Prop :=
  ∃ r, representative s x r ∧ representative s y r.
End disjoint_set_model.

Section disjoint_set_check.
Import DisjointSet.
Context {T : Type} `{Countable T}.

(* the slot reached from [i] by at most [fuel] parent links, if it is a root *)
Fixpoint climb (nodes : list Node) (fuel i : nat) : option nat :=
  match fuel with
  | O => None
  | S fuel' =>
    match nodes !! i with
    | Some n =>
      if decide (parent n = Z.of_nat i) then Some i
      else if decide (0 ≤ parent n) then climb nodes fuel' (Z.to_nat (parent n))
      else None
    | None => None
    end
  end.

(** A decision procedure for [ds_wf]. *)
Definition ds_wfb (s : @state T _ _) : bool :=
  bool_decide (vec_size (nodes_ s) ≤ max_size) &&
  forallb (λ i, bool_decide (is_Some (climb (nodes_ s) (length (nodes_ s)) i)))
    (seq 0 (length (nodes_ s))) &&
  forallb (λ p, bool_decide (0 ≤ rank p.2 ≤ 1) &&
                bool_decide (parent p.2 = Z.of_nat p.1 → rank p.2 = 0))
    (imap (λ i n, (i, n)) (nodes_ s)) &&
  bool_decide (map_Forall (λ _ z, 0 ≤ z < vec_size (nodes_ s)) (index_map_ s)) &&
  bool_decide (NoDup (map_to_list (index_map_ s)).*2).
End disjoint_set_check.

(** The disjoint set over the integers 1, 2, 3 after [unite(1, 2)]. *)
Definition example_disjoint_set : @DisjointSet.state Z _ _ :=
  DisjointSet.mk_state
    [DisjointSet.mk_Node 0 0; DisjointSet.mk_Node 0 1; DisjointSet.mk_Node 2 0]
    {[1 := 0; 2 := 1; 3 := 2]}.

(** * Proofs *)

(** ** Results *)

Lemma bind_Ok {A B} (f : A → result B) (a : A) : (Ok a ≫= f) = f a.
Proof. reflexivity. Qed.

(** ** Strict weak orders *)

Section order.
Context {T : Type} (comp : T → T → bool) `{!StrictWeakOrder comp}.

Lemma swo_asym a b : comp a b = true → comp b a = false.
Proof.
  intros Hab. destruct (comp b a) eqn:Hba; [|done].
  by rewrite <- (swo_irrefl a), <- (swo_trans a b a Hab Hba).
Qed.

Lemma swo_below_above a b c : comp a b = true → comp a c = false → comp b c = false.
Proof.
  intros Hab Hac. destruct (comp b c) eqn:Hbc; [|done].
  by rewrite <- Hac, (swo_trans a b c Hab Hbc).
Qed.
End order.

#[global] Instance Z_less_swo : StrictWeakOrder Z.ltb.
Proof. split; intros *; rewrite ?Z.ltb_lt, ?Z.ltb_ge; lia. Qed.

#[global] Instance Z_greater_swo : StrictWeakOrder Z.gtb.
Proof. split; intros *; rewrite !Z.gtb_ltb, ?Z.ltb_lt, ?Z.ltb_ge; lia. Qed.

#[global] Instance Z_Compare_swo HeapT : StrictWeakOrder (Compare (T:=Z) HeapT).
Proof. destruct HeapT; apply _. Qed.

(** ** Exchanging two slots *)

Section list_swap.
Local Open Scope nat_scope.
Context {T : Type}.
Implicit Types l : list T.

Lemma length_list_swap i j l : length (list_swap i j l) = length l.
Proof.
  unfold list_swap. destruct (l !! i), (l !! j); by rewrite ?length_insert.
Qed.

Lemma list_swap_perm i j l : list_swap i j l ≡ₚ l.
Proof.
  unfold list_swap. destruct (l !! i) eqn:Hi, (l !! j) eqn:Hj; try done.
  by apply Permutation_insert_swap.
Qed.

Lemma lookup_list_swap i j l k :
  i < length l → j < length l →
  list_swap i j l !! k =
    if decide (k = j) then l !! i else if decide (k = i) then l !! j else l !! k.
Proof.
  intros Hi Hj. unfold list_swap.
  destruct (lookup_lt_is_Some_2 l i Hi) as [a Ha].
  destruct (lookup_lt_is_Some_2 l j Hj) as [b Hb].
  rewrite Ha, Hb. destruct (decide (k = j)) as [->|Hkj].
  - by rewrite list_lookup_insert_eq by (by rewrite length_insert).
  - rewrite list_lookup_insert_ne by done.
    destruct (decide (k = i)) as [->|Hki].
    + by rewrite list_lookup_insert_eq.
    + by rewrite list_lookup_insert_ne.
Qed.

Lemma list_swap_l i j l x y :
  l !! i = Some x → l !! j = Some y → list_swap i j l !! i = Some y.
Proof.
  intros Hi Hj. rewrite lookup_list_swap by eauto using lookup_lt_Some.
  destruct (decide (i = j)) as [->|]; [congruence|]. by rewrite decide_True.
Qed.

Lemma list_swap_r i j l x y :
  l !! i = Some x → l !! j = Some y → list_swap i j l !! j = Some x.
Proof.
  intros Hi Hj. rewrite lookup_list_swap by eauto using lookup_lt_Some.
  by rewrite decide_True.
Qed.

Lemma list_swap_other i j l k :
  k ≠ i → k ≠ j → list_swap i j l !! k = l !! k.
Proof.
  intros Hi Hj. unfold list_swap.
  destruct (l !! i), (l !! j); try done.
  by rewrite !list_lookup_insert_ne.
Qed.
End list_swap.

(** ** The sequence model: index arithmetic and child selection *)

Section select.
Local Open Scope nat_scope.
Context {T : Type} (comp : T → T → bool) `{!StrictWeakOrder comp}.
Variable K : nat.
Implicit Types l : list T.

Lemma child_idx_gt i j : j < K → i < child_idx K i j.
Proof. unfold child_idx. intros. nia. Qed.

Lemma parent_child_idx i j : j < K → parent_idx K (child_idx K i j) = i.
Proof.
  unfold parent_idx, child_idx. intros Hj.
  replace (K * i + j + 1 - 1) with (j + i * K) by lia.
  rewrite Nat.div_add by lia. rewrite Nat.div_small by done. lia.
Qed.

Lemma child_idx_inj i j i' j' :
  j < K → j' < K → child_idx K i j = child_idx K i' j' → i = i' ∧ j = j'.
Proof.
  intros Hj Hj' Heq.
  assert (i = i') as <-.
  { by rewrite <- (parent_child_idx i j), Heq, parent_child_idx. }
  split; [done|]. unfold child_idx in Heq. lia.
Qed.

Lemma child_parent_idx i :
  0 < K → 0 < i → ∃ j, j < K ∧ i = child_idx K (parent_idx K i) j.
Proof.
  intros HK Hi. exists ((i - 1) mod K). split.
  - apply Nat.mod_upper_bound. lia.
  - unfold child_idx, parent_idx.
    pose proof (Nat.div_mod_eq (i - 1) K). lia.
Qed.

Lemma select_upto_S n i l :
  select_upto comp K (S n) i l
  = better comp l (select_upto comp K n i l) (child_idx K i n).
Proof.
  unfold select_upto. by rewrite seq_S, fmap_app, fold_left_app.
Qed.

Lemma select_upto_where n i l :
  let ce := select_upto comp K n i l in
  ce = i ∨ ∃ j, j < n ∧ ce = child_idx K i j ∧ ce < length l.
Proof.
  induction n as [|n IH]; simpl; [by left|].
  rewrite select_upto_S. unfold better. simpl in IH.
  destruct (l !! select_upto comp K n i l) as [a|].
  - destruct (l !! child_idx K i n) as [b|] eqn:Hb.
    + destruct (comp a b).
      * right. exists n. split; [lia|]. split; [done|]. by eapply lookup_lt_Some.
      * destruct IH as [?|(j & ? & ? & ?)]; [by left|].
        right. exists j. split; [lia|done].
    + destruct IH as [?|(j & ? & ? & ?)]; [by left|].
      right. exists j. split; [lia|done].
  - destruct IH as [?|(j & ? & ? & ?)]; [by left|].
    right. exists j. split; [lia|done].
Qed.

Lemma select_upto_spec n i l :
  n ≤ K →
  let ce := select_upto comp K n i l in
  (ce = i ∨ ∃ j, j < n ∧ ce = child_idx K i j ∧ ce < length l) ∧
  (∀ x z, l !! i = Some x → l !! ce = Some z → comp z x = false) ∧
  (∀ j y z, j < n → l !! child_idx K i j = Some y → l !! ce = Some z →
     comp z y = false).
Proof.
  induction n as [|n IH]; intros Hn; simpl.
  - split; [by left|]. split; [|intros; lia].
    unfold select_upto; simpl. intros x z ? ?. simplify_eq. apply swo_irrefl.
  - destruct IH as (Hwhere & Hroot & Hsons); [lia|].
    rewrite select_upto_S. set (ce := select_upto comp K n i l) in *.
    unfold better.
    destruct (l !! ce) as [a|] eqn:Ha; cycle 1.
    { split; [|split].
      - destruct Hwhere as [?|(j & ? & ? & ?)]; [by left|].
        right. exists j. split; [lia|done].
      - rewrite Ha. congruence.
      - rewrite Ha. congruence. }
    destruct (l !! child_idx K i n) as [b|] eqn:Hb; cycle 1.
    { rewrite Ha. split; [|split].
      - destruct Hwhere as [?|(j & ? & ? & ?)]; [by left|].
        right. exists j. split; [lia|done].
      - done.
      - intros j y z Hj Hy Hz. destruct (decide (j = n)) as [->|]; [congruence|].
        apply (Hsons j); [lia|done..]. }
    destruct (comp a b) eqn:Hab.
    + rewrite Hb. split; [|split].
      * right. exists n. split; [lia|]. split; [done|]. by eapply lookup_lt_Some.
      * intros x z Hx Hz. simplify_eq.
        eapply swo_below_above; eauto.
      * intros j y z Hj Hy Hz. simplify_eq.
        destruct (decide (j = n)) as [->|].
        -- rewrite Hb in Hy. simplify_eq. by apply swo_irrefl.
        -- eapply swo_below_above; [done..|]. apply (Hsons j); [lia|done..].
    + rewrite Ha. split; [|split].
      * destruct Hwhere as [?|(j & ? & ? & ?)]; [by left|].
        right. exists j. split; [lia|done].
      * done.
      * intros j y z Hj Hy Hz. destruct (decide (j = n)) as [->|].
        -- rewrite Hb in Hy. by simplify_eq.
        -- apply (Hsons j); [lia|done..].
Qed.

Lemma select_eq i l : select comp K i l = select_upto comp K K i l.
Proof. reflexivity. Qed.

Lemma select_cases i l :
  select comp K i l = i ∨
  ∃ j, j < K ∧ select comp K i l = child_idx K i j ∧ select comp K i l < length l.
Proof.
  rewrite select_eq.
  destruct (select_upto_where K i l) as [?|(j & ? & ? & ?)]; [by left|].
  right. by exists j.
Qed.

Lemma select_above_root i l x z :
  l !! i = Some x → l !! select comp K i l = Some z → comp z x = false.
Proof.
  destruct (select_upto_spec K i l) as (_ & Hr & _); [done|]. apply Hr.
Qed.

Lemma select_above_sons i l j y z :
  j < K → l !! child_idx K i j = Some y → l !! select comp K i l = Some z →
  comp z y = false.
Proof.
  destruct (select_upto_spec K i l) as (_ & _ & Hs); [done|]. apply Hs.
Qed.

Lemma select_no_sons i l :
  length l ≤ child_idx K i 0 → select comp K i l = i.
Proof.
  intros Hlen. destruct (select_cases i l) as [?|(j & Hj & Hc & Hlt)]; [done|].
  rewrite Hc in Hlt. unfold child_idx in *. lia.
Qed.

Lemma select_gt i l : select comp K i l ≠ i → i < select comp K i l < length l.
Proof.
  intros Hne. destruct (select_cases i l) as [?|(j & Hj & Hc & Hlt)]; [done|].
  split; [|done]. rewrite Hc. by apply child_idx_gt.
Qed.
End select.

(** ** The sequence model: sifting down and building *)

Section sift_down.
Local Open Scope nat_scope.
Context {T : Type} (comp : T → T → bool) `{!StrictWeakOrder comp}.
Variable K : nat.
Implicit Types l : list T.

Lemma length_sift_down fuel i l : length (sift_down comp K fuel i l) = length l.
Proof.
  revert i l. induction fuel as [|fuel IH]; intros i l; simpl; [done|].
  case_decide; [done|]. by rewrite IH, length_list_swap.
Qed.

Lemma sift_down_perm fuel i l : sift_down comp K fuel i l ≡ₚ l.
Proof.
  revert i l. induction fuel as [|fuel IH]; intros i l; simpl; [done|].
  case_decide; [done|]. by rewrite IH, list_swap_perm.
Qed.

Lemma heap_from_0 l : heap_from comp K 0 l ↔ heap_property comp K l.
Proof.
  split.
  - intros Hh i j x y. apply Hh. lia.
  - intros Hh i j x y _. apply Hh.
Qed.

Lemma heap_from_beyond k l : length l ≤ child_idx K k 0 → heap_from comp K k l.
Proof.
  intros Hlen i j x y Hi Hj _ Hy. apply lookup_lt_Some in Hy.
  unfold child_idx in *. nia.
Qed.

Lemma sift_down_no_sons fuel i l :
  length l ≤ child_idx K i 0 → sift_down comp K fuel i l = l.
Proof.
  intros Hlen. destruct fuel; simpl; [done|].
  by rewrite decide_True by by apply select_no_sons.
Qed.

Lemma down_inv_swap k i l :
  k ≤ i → down_inv comp K k i l → select comp K i l ≠ i →
  down_inv comp K k (select comp K i l) (list_swap i (select comp K i l) l).
Proof.
  intros Hk [Ha Hb] Hne.
  destruct (select_gt comp K i l Hne) as [Hgt Hlt].
  destruct (select_cases comp K i l) as [?|(j0 & Hj0 & Hce & _)]; [done|].
  pose proof (select_above_root comp K i l) as Hroot.
  pose proof (select_above_sons comp K i l) as Hsons.
  generalize dependent (select comp K i l). intros ce Hne Hgt Hlt Hce Hroot Hsons.
  assert (i < length l) as Hi by lia.
  destruct (lookup_lt_is_Some_2 l i Hi) as [xi Hxi].
  destruct (lookup_lt_is_Some_2 l ce Hlt) as [xc Hxc].
  split.
  - intros p j x y Hp Hpce Hj. rewrite !lookup_list_swap by done.
    pose proof (child_idx_gt K p j Hj) as Hgtp.
    rewrite (decide_False (P := p = ce)) by done.
    destruct (decide (p = i)) as [->|Hpi].
    + rewrite Hxc. intros [= <-].
      destruct (decide (child_idx K i j = ce)) as [Hc|Hc].
      * rewrite Hxi. intros [= <-]. by eapply Hroot.
      * rewrite decide_False by lia. intros Hy. by eapply Hsons.
    + intros Hx. destruct (decide (child_idx K p j = ce)) as [Hc|Hc].
      { rewrite Hce in Hc. apply child_idx_inj in Hc as [? _]; done. }
      destruct (decide (child_idx K p j = i)) as [Hc'|Hc'].
      * rewrite Hxc. intros [= <-].
        apply (Hb p j j0 x xc); try done. by rewrite <- Hce.
      * intros Hy. by apply (Ha p j x y).
  - intros p j j' x y Hp Hj Hj' Hcur.
    rewrite Hce in Hcur. apply child_idx_inj in Hcur as [<- <-]; [|done..].
    pose proof (child_idx_gt K ce j' Hj') as Hgt'.
    rewrite !lookup_list_swap by done.
    rewrite (decide_False (P := i = ce)) by lia.
    rewrite (decide_True (P := i = i)) by done.
    rewrite (decide_False (P := child_idx K ce j' = ce)) by lia.
    rewrite (decide_False (P := child_idx K ce j' = i)) by lia.
    rewrite Hxc. intros [= <-] Hy.
    apply (Ha ce j' xc y); try done; lia.
Qed.

Lemma sift_down_heap_from fuel k i l :
  length l ≤ fuel + i → k ≤ i → down_inv comp K k i l →
  heap_from comp K k (sift_down comp K fuel i l).
Proof.
  revert i l. induction fuel as [|fuel IH]; intros i l Hfuel Hk Hinv; simpl.
  - destruct Hinv as [Ha _]. intros p j x y Hp Hj Hx Hy.
    destruct (decide (p = i)) as [->|]; [|by eapply Ha].
    apply lookup_lt_Some in Hy. pose proof (child_idx_gt K i j Hj). lia.
  - case_decide as Hsel.
    + destruct Hinv as [Ha _]. intros p j x y Hp Hj Hx Hy.
      destruct (decide (p = i)) as [->|]; [|by eapply Ha].
      eapply select_above_sons; [done..|]. by rewrite Hsel.
    + destruct (select_gt comp K i l Hsel).
      apply IH; [rewrite length_list_swap; lia|lia|].
      by apply down_inv_swap.
Qed.

Lemma down_inv_start k l :
  heap_from comp K (S k) l → down_inv comp K k k l.
Proof.
  intros Hh. split.
  - intros i j x y Hi Hne. apply Hh. lia.
  - intros p j j' x y Hp Hj Hj' ->. pose proof (child_idx_gt K p j Hj). lia.
Qed.

Lemma length_build_from n l : length (build_from comp K n l) = length l.
Proof.
  revert l. induction n as [|n IH]; intros l; simpl; [done|].
  by rewrite IH, length_sift_down.
Qed.

Lemma build_from_perm n l : build_from comp K n l ≡ₚ l.
Proof.
  revert l. induction n as [|n IH]; intros l; simpl; [done|].
  by rewrite IH, sift_down_perm.
Qed.

Lemma build_from_heap n l :
  heap_from comp K n l → heap_property comp K (build_from comp K n l).
Proof.
  revert l. induction n as [|n IH]; intros l Hh; simpl.
  - by apply heap_from_0.
  - apply IH. apply sift_down_heap_from; [lia|done|].
    by apply down_inv_start.
Qed.

Lemma build_heap_property l : 0 < K → heap_property comp K (build comp K l).
Proof.
  intros HK. apply build_from_heap.
  apply heap_from_beyond. unfold child_idx.
  pose proof (Nat.div_mod_eq (length l) K).
  pose proof (Nat.mod_upper_bound (length l) K). nia.
Qed.

Lemma length_build l : length (build comp K l) = length l.
Proof. apply length_build_from. Qed.

Lemma build_perm l : build comp K l ≡ₚ l.
Proof. apply build_from_perm. Qed.

(** On a sequence that already is a heap, neither sifting down nor
    building moves anything. *)
Lemma select_heap i l : heap_property comp K l → select comp K i l = i.
Proof.
  intros Hh. rewrite select_eq.
  assert (∀ n, n ≤ K → select_upto comp K n i l = i) as Hn; [|by apply Hn].
  induction n as [|n IH]; intros Hle; [done|].
  rewrite select_upto_S, IH by lia. unfold better.
  destruct (l !! i) as [x|] eqn:Hx; [|done].
  destruct (l !! child_idx K i n) as [y|] eqn:Hy; [|done].
  by rewrite (Hh i n x y).
Qed.

Lemma sift_down_heap fuel i l :
  heap_property comp K l → sift_down comp K fuel i l = l.
Proof.
  intros Hh. destruct fuel; simpl; [done|]. by rewrite decide_True by by apply select_heap.
Qed.

Lemma build_from_heap_id n l :
  heap_property comp K l → build_from comp K n l = l.
Proof.
  intros Hh. induction n as [|n IH]; simpl; [done|].
  by rewrite sift_down_heap.
Qed.
End sift_down.

(** ** The sequence model: sifting up *)

Section sift_up.
Local Open Scope nat_scope.
Context {T : Type} (comp : T → T → bool) `{!StrictWeakOrder comp}.
Variable K : nat.
Hypothesis K_pos : 0 < K.
Implicit Types l : list T.

Lemma parent_idx_lt' i : 0 < i → parent_idx K i < i.
Proof.
  intros Hi. unfold parent_idx.
  pose proof (Nat.div_mod_eq (i - 1) K). nia.
Qed.

Lemma length_sift_up fuel i l : length (sift_up comp K fuel i l) = length l.
Proof.
  revert i l. induction fuel as [|fuel IH]; intros i l; simpl; [done|].
  destruct i as [|i]; [done|].
  destruct (l !! parent_idx K (S i)), (l !! S i); try done.
  destruct (comp _ _); [|done]. by rewrite IH, length_list_swap.
Qed.

Lemma sift_up_perm fuel i l : sift_up comp K fuel i l ≡ₚ l.
Proof.
  revert i l. induction fuel as [|fuel IH]; intros i l; simpl; [done|].
  destruct i as [|i]; [done|].
  destruct (l !! parent_idx K (S i)), (l !! S i); try done.
  destruct (comp _ _); [|done]. by rewrite IH, list_swap_perm.
Qed.

Lemma up_inv_done i l :
  up_inv comp K i l →
  (∀ a b, 0 < i → l !! parent_idx K i = Some a → l !! i = Some b → comp a b = false) →
  heap_property comp K l.
Proof.
  intros [Ha _] Hstop q j x y Hj Hx Hy.
  destruct (decide (child_idx K q j = i)) as [Hc|Hc]; [|by eapply Ha].
  apply (Hstop x y).
  - pose proof (child_idx_gt K q j Hj). lia.
  - by rewrite <- Hc, parent_child_idx.
  - by rewrite <- Hc.
Qed.

Lemma up_inv_swap i l a b :
  0 < i → up_inv comp K i l →
  l !! parent_idx K i = Some a → l !! i = Some b → comp a b = true →
  up_inv comp K (parent_idx K i) (list_swap i (parent_idx K i) l).
Proof.
  intros Hi [Ha Hb] Hpa Hib Hab.
  pose proof (parent_idx_lt' i Hi) as Hlt.
  destruct (child_parent_idx K i K_pos Hi) as (j0 & Hj0 & Hchild).
  generalize dependent (parent_idx K i). intros p Hpa Hlt Hchild.
  pose proof (lookup_lt_Some _ _ _ Hpa) as Hplen.
  pose proof (lookup_lt_Some _ _ _ Hib) as Hilen.
  split.
  - intros q j x y Hj Hne. pose proof (child_idx_gt K q j Hj) as Hgt.
    rewrite !lookup_list_swap by done.
    rewrite (decide_False (P := child_idx K q j = p)) by done.
    destruct (decide (q = p)) as [->|Hqp].
    + rewrite Hib. intros [= <-].
      destruct (decide (child_idx K p j = i)) as [Hc|Hc].
      * rewrite Hpa. intros [= <-]. by apply swo_asym.
      * intros Hy. eapply swo_below_above; [done..|]. by apply (Ha p j).
    + destruct (decide (q = i)) as [->|Hqi].
      * rewrite Hpa. intros [= <-].
        rewrite (decide_False (P := child_idx K i j = i)) by lia.
        intros Hy. by apply (Hb p j0 j).
      * intros Hx. destruct (decide (child_idx K q j = i)) as [Hc|Hc].
        { rewrite Hchild in Hc. apply child_idx_inj in Hc as [? _]; done. }
        intros Hy. by apply (Ha q j).
  - intros pp j j' x y Hj Hj' Hcur.
    pose proof (child_idx_gt K pp j Hj) as Hgt.
    pose proof (child_idx_gt K p j' Hj') as Hgt'.
    rewrite !lookup_list_swap by done.
    rewrite (decide_False (P := pp = p)) by lia.
    rewrite (decide_False (P := pp = i)) by lia.
    rewrite (decide_False (P := child_idx K p j' = p)) by lia.
    intros Hx.
    assert (comp x a = false) as Hxa.
    { apply (Ha pp j); [done|lia|done|by rewrite <- Hcur]. }
    destruct (decide (child_idx K p j' = i)) as [Hc|Hc].
    + rewrite Hpa. by intros [= <-].
    + intros Hy. eapply swo_incomp; [done..|]. by apply (Ha p j').
Qed.

Lemma sift_up_heap fuel i l :
  i < fuel → up_inv comp K i l → heap_property comp K (sift_up comp K fuel i l).
Proof.
  revert i l. induction fuel as [|fuel IH]; intros i l Hfuel Hinv; [lia|].
  simpl. destruct i as [|i].
  { apply (up_inv_done 0); [done|]. intros; lia. }
  destruct (l !! parent_idx K (S i)) as [a|] eqn:Hpa; cycle 1.
  { apply (up_inv_done (S i)); [done|]. intros; congruence. }
  destruct (l !! S i) as [b|] eqn:Hib; cycle 1.
  { apply (up_inv_done (S i)); [done|]. intros; congruence. }
  destruct (comp a b) eqn:Hab; cycle 1.
  { apply (up_inv_done (S i)); [done|]. intros; congruence. }
  pose proof (parent_idx_lt' (S i)).
  apply IH; [lia|]. by eapply up_inv_swap; [lia|..].
Qed.

Lemma up_inv_app l x :
  heap_property comp K l → up_inv comp K (length l) (l ++ [x]).
Proof.
  intros Hh. split.
  - intros q j a b Hj Hne Ha Hb. pose proof (child_idx_gt K q j Hj).
    pose proof (lookup_lt_Some _ _ _ Hb) as Hlen. rewrite length_app in Hlen.
    simpl in Hlen. rewrite lookup_app_l in Ha, Hb by lia. by apply (Hh q j).
  - intros p j j' a b Hj Hj' _ _ Hb. pose proof (child_idx_gt K (length l) j' Hj').
    apply lookup_lt_Some in Hb. rewrite length_app in Hb. simpl in Hb. lia.
Qed.

Lemma seq_push_heap x l :
  heap_property comp K l → heap_property comp K (seq_push comp K x l).
Proof.
  intros Hh. apply sift_up_heap; [rewrite length_app; lia|]. by apply up_inv_app.
Qed.

Lemma length_seq_push x l : length (seq_push comp K x l) = S (length l).
Proof. unfold seq_push. rewrite length_sift_up, length_app. simpl. lia. Qed.

Lemma seq_push_perm x l : seq_push comp K x l ≡ₚ x :: l.
Proof.
  unfold seq_push. rewrite sift_up_perm. by rewrite Permutation_app_comm.
Qed.

(** The root is never below any other slot. *)
Lemma heap_root_top l r :
  heap_property comp K l → l !! 0 = Some r →
  ∀ i y, l !! i = Some y → comp r y = false.
Proof.
  intros Hh Hr i. induction (lt_wf i) as [i _ IH]. intros y Hy.
  destruct (decide (i = 0)) as [->|Hi].
  { rewrite Hr in Hy. injection Hy as <-. by apply swo_irrefl. }
  destruct (child_parent_idx K i K_pos) as (j & Hj & Hc); [lia|].
  pose proof (parent_idx_lt' i) as Hlt.
  destruct (lookup_lt_is_Some_2 l (parent_idx K i)) as [z Hz].
  { apply lookup_lt_Some in Hy. lia. }
  apply (swo_incomp r z y).
  - apply (IH (parent_idx K i)); [lia|done].
  - apply (Hh (parent_idx K i) j); [done..|]. by rewrite <- Hc.
Qed.
End sift_up.

(** ** The sequence model: extraction *)

Lemma last_cons_take {T} (x : T) (l : list T) (b : T) :
  last (x :: l) = Some b →
  take (length l) (<[0%nat:=b]> (x :: l)) ≡ₚ l.
Proof.
  intros Hlast. destruct (decide (l = [])) as [->|Hne]; [done|].
  destruct (exists_last Hne) as (l' & b' & ->).
  rewrite app_comm_cons, last_snoc in Hlast. injection Hlast as ->.
  simpl. rewrite length_app. simpl.
  replace (length l' + 1)%nat with (S (length l')) by lia. simpl.
  rewrite take_app_length. by rewrite Permutation_app_comm.
Qed.


Section extraction.
Local Open Scope nat_scope.
Context {T : Type} (comp : T → T → bool) `{!StrictWeakOrder comp}.
Variable K : nat.
Hypothesis K_pos : 0 < K.
Implicit Types l : list T.

Lemma seq_pop_perm x l : seq_pop comp K (x :: l) ≡ₚ l.
Proof.
  unfold seq_pop. destruct (last (x :: l)) as [b|] eqn:Hlast.
  - rewrite sift_down_perm. by apply last_cons_take.
  - by apply last_None in Hlast.
Qed.

Lemma length_seq_pop l : length (seq_pop comp K l) = Nat.pred (length l).
Proof.
  unfold seq_pop. destruct (last l) as [b|] eqn:Hlast.
  - rewrite length_sift_down, length_take, length_insert. lia.
  - apply last_None in Hlast. by subst.
Qed.

Lemma seq_pop_heap l :
  heap_property comp K l → heap_property comp K (seq_pop comp K l).
Proof.
  intros Hh. unfold seq_pop. destruct (last l) as [b|] eqn:Hlast; [|done].
  apply heap_from_0. apply sift_down_heap_from; [done|lia|lia|].
  split.
  - intros i j x y _ Hi Hj. pose proof (child_idx_gt K i j Hj).
    rewrite !lookup_take_Some. intros [Hx _] [Hy _].
    rewrite list_lookup_insert_ne in Hx, Hy by lia. by apply (Hh i j).
  - intros p j j' x y _ Hj _ Hcur. pose proof (child_idx_gt K p j Hj). lia.
Qed.

Lemma seq_pop_all_spec n l :
  n = length l → heap_property comp K l →
  seq_pop_all comp K n l ≡ₚ l ∧
  StronglySorted (λ a b, comp a b = false) (seq_pop_all comp K n l).
Proof.
  revert l. induction n as [|n IH]; intros l Hn Hh.
  { destruct l; [|done]. split; [done|constructor]. }
  destruct l as [|x l]; [done|]. simpl in Hn.
  change (seq_pop_all comp K (S n) (x :: l))
    with (x :: seq_pop_all comp K n (seq_pop comp K (x :: l))).
  destruct (IH (seq_pop comp K (x :: l))) as [Hperm Hsorted].
  { rewrite length_seq_pop. simpl. lia. }
  { by apply seq_pop_heap. }
  assert (seq_pop_all comp K n (seq_pop comp K (x :: l)) ≡ₚ l) as Hperm'.
  { etrans; [exact Hperm|apply seq_pop_perm]. }
  clear Hperm. rename Hperm' into Hperm. split; [by rewrite Hperm|].
  constructor; [done|]. rewrite Hperm. apply Forall_forall. intros y Hy.
  apply list_elem_of_lookup in Hy as [i Hi].
  by apply (heap_root_top comp K K_pos (x :: l) x Hh eq_refl (S i)).
Qed.
End extraction.

(** ** [std::size_t] arithmetic without overflow *)

Lemma wrap_small z : 0 ≤ z < 2 ^ 64 → wrap z = z.
Proof. intros. unfold wrap, size_t_modulus. by apply Z.mod_small. Qed.

(* remove the reductions modulo [2^64], innermost first *)
Ltac unwrap :=
  repeat match goal with
  | |- context [wrap ?z] =>
    lazymatch z with
    | context [wrap _] => fail
    | _ => rewrite (wrap_small z) by (try lia; nia)
    end
  end.

Lemma max_size_lt : max_size < 2 ^ 64.
Proof. unfold max_size. lia. Qed.

Section vector_facts.
Context {T : Type}.
Implicit Types l : list T.

Lemma vec_at_Some l (i : nat) a : l !! i = Some a → vec_at l (Z.of_nat i) = Ok a.
Proof. intros Hi. unfold vec_at. by rewrite Nat2Z.id, Hi. Qed.

Lemma vec_subscript_Some l (i : nat) a :
  l !! i = Some a → vec_subscript l (Z.of_nat i) = Ok a.
Proof. intros Hi. unfold vec_subscript. by rewrite Nat2Z.id, Hi. Qed.

Lemma vec_swap_at_list_swap l (i j : nat) :
  (i < length l)%nat → (j < length l)%nat →
  vec_swap_at (Z.of_nat i) (Z.of_nat j) l = Ok (list_swap i j l).
Proof.
  intros Hi Hj. unfold vec_swap_at, vec_at, list_swap. rewrite !Nat2Z.id.
  destruct (lookup_lt_is_Some_2 l i Hi) as [a ->].
  by destruct (lookup_lt_is_Some_2 l j Hj) as [b ->].
Qed.

Lemma Heap_swap_nodes_list_swap l (i j : nat) :
  (i < length l)%nat → (j < length l)%nat →
  Heap_swap_nodes (Z.of_nat i) (Z.of_nat j) l = Ok (list_swap i j l).
Proof.
  intros Hi Hj. unfold Heap_swap_nodes. by rewrite vec_swap_at_list_swap.
Qed.
End vector_facts.

Section index_arithmetic.
Implicit Types i j n : nat.

Lemma binary_left_idx i :
  2 * Z.of_nat i + 2 < 2 ^ 64 →
  BinaryHeap.left (Z.of_nat i) = Z.of_nat (child_idx 2 i 0).
Proof.
  intros Hb. unfold BinaryHeap.left, child_idx.
  rewrite Z.shiftl_mul_pow2 by lia. change (2 ^ 1) with 2.
  unwrap. lia.
Qed.

Lemma binary_right_idx i :
  2 * Z.of_nat i + 2 < 2 ^ 64 →
  BinaryHeap.right (Z.of_nat i) = Z.of_nat (child_idx 2 i 1).
Proof.
  intros Hb. unfold BinaryHeap.right, child_idx.
  rewrite Z.shiftl_mul_pow2 by lia. change (2 ^ 1) with 2.
  unwrap. lia.
Qed.

Lemma binary_parent_idx i :
  (0 < i)%nat → Z.of_nat i < 2 ^ 64 →
  BinaryHeap.parent (Z.of_nat i) = Z.of_nat (parent_idx 2 i).
Proof.
  intros Hi Hb. unfold BinaryHeap.parent, parent_idx.
  rewrite wrap_small by lia. rewrite Z.shiftr_div_pow2 by lia.
  change (2 ^ 1) with 2. rewrite Nat2Z.inj_div. f_equal. lia.
Qed.

Lemma kheap_child_idx (K : Z) i j :
  0 ≤ K → K * Z.of_nat i + Z.of_nat j + 1 < 2 ^ 64 →
  KHeap.child K (Z.of_nat i) (Z.of_nat j) = Z.of_nat (child_idx (Z.to_nat K) i j).
Proof.
  intros HK Hb. unfold KHeap.child, child_idx.
  unwrap. lia.
Qed.

Lemma kheap_parent_idx (K : Z) i :
  0 < K → (0 < i)%nat → Z.of_nat i < 2 ^ 64 →
  KHeap.parent K (Z.of_nat i) = Z.of_nat (parent_idx (Z.to_nat K) i).
Proof.
  intros HK Hi Hb. unfold KHeap.parent, parent_idx.
  rewrite wrap_small by lia. rewrite Nat2Z.inj_div, Z2Nat.id by lia.
  f_equal. lia.
Qed.

(* a leaf, by the test of [BinaryHeap], has no child in bounds *)
Lemma binary_leaf_no_sons n i :
  Z.of_nat n ≤ max_size →
  Z.of_nat n / 2 + 1 ≤ Z.of_nat i → (n ≤ child_idx 2 i 0)%nat.
Proof.
  intros Hn Hleaf. unfold child_idx.
  pose proof (Z.div_mod (Z.of_nat n) 2). pose proof (Z.mod_pos_bound (Z.of_nat n) 2).
  lia.
Qed.

(* a leaf, by the test of [KHeap], has no child in bounds *)
Lemma kheap_leaf_no_sons (K : Z) n i :
  0 < K → Z.of_nat n ≤ max_size →
  wrap (Z.of_nat n - 2) / K < Z.of_nat i → (n ≤ child_idx (Z.to_nat K) i 0)%nat.
Proof.
  intros HK Hn Hleaf. unfold child_idx.
  destruct (decide (n < 2)%nat) as [Hsmall|Hbig]; [nia|].
  pose proof max_size_lt.
  rewrite wrap_small in Hleaf by lia.
  pose proof (Z.div_mod (Z.of_nat n - 2) K). pose proof (Z.mod_pos_bound (Z.of_nat n - 2) K).
  nia.
Qed.

(* below the leaf test of [KHeap], child indices do not overflow *)
Lemma kheap_inner_no_overflow (K : Z) n i :
  0 < K ≤ 64 → Z.of_nat n ≤ max_size → (i ≤ n)%nat →
  Z.of_nat i ≤ wrap (Z.of_nat n - 2) / K →
  K * Z.of_nat i + K < 2 ^ 64.
Proof.
  intros HK Hn Hi Hinner. unfold max_size in Hn.
  destruct (decide (n < 2)%nat) as [Hsmall|Hbig]; [nia|].
  rewrite wrap_small in Hinner by lia.
  pose proof (Z.div_mod (Z.of_nat n - 2) K). pose proof (Z.mod_pos_bound (Z.of_nat n - 2) K).
  nia.
Qed.
End index_arithmetic.

(** ** The machine model computes the sequence model

    [P] is any property of the state that each exchange performed by
    [swap_nodes] preserves; the plain heap takes [P := True], the priority
    queue takes the consistency of its maps. *)

Lemma foldM_app {A B} (f : B → A → result B) (l1 l2 : list A) (b : B) :
  foldM f (l1 ++ l2) b = (b' ← foldM f l1 b; foldM f l2 b').
Proof.
  revert b. induction l1 as [|x l1 IH]; intros b; simpl; [done|].
  destruct (f b x); simpl; [apply IH|done].
Qed.

Lemma seqZ_snoc (n : nat) : seqZ 0 (Z.of_nat (S n)) = seqZ 0 (Z.of_nat n) ++ [Z.of_nat n].
Proof.
  replace (Z.of_nat (S n)) with (Z.of_nat n + 1) by lia.
  rewrite seqZ_app by lia. f_equal.
Qed.

Section refinement.
Context {T St : Type} `{HeapState T St}.
Variable comp : T → T → bool.
Implicit Types (s : St) (l : list T) (i j c ce n : nat).

Lemma binary_consider l ce c :
  (c < length l → ce < length l)%nat →
  BinaryHeap.consider comp (Z.of_nat (length l)) l (Z.of_nat ce) (Z.of_nat c)
  = Ok (Z.of_nat (better comp l ce c)).
Proof.
  intros Hce. unfold BinaryHeap.consider, better.
  destruct (Z.ltb_spec (Z.of_nat c) (Z.of_nat (length l))).
  - destruct (lookup_lt_is_Some_2 l ce) as [a Ha]; [lia|].
    destruct (lookup_lt_is_Some_2 l c) as [b Hb]; [lia|].
    rewrite (vec_subscript_Some _ _ _ Ha), (vec_subscript_Some _ _ _ Hb), Ha, Hb.
    simpl. by destruct (comp a b).
  - rewrite (lookup_ge_None_2 l c) by lia. by destruct (l !! ce).
Qed.

Lemma select_upto_in_range K n i l j :
  (j < K)%nat → (child_idx K i j < length l)%nat →
  (select_upto comp K n i l < length l)%nat.
Proof.
  intros Hj Hc. pose proof (child_idx_gt K i j Hj).
  destruct (select_upto_where comp K n i l) as [->|(? & ? & ? & ?)]; lia.
Qed.

Lemma kheap_consider_eq (K len : Z) l (i ce j : Z) :
  KHeap.consider comp K len l i ce j
  = BinaryHeap.consider comp len l ce (KHeap.child K i j).
Proof. reflexivity. Qed.

Lemma kheap_scan (K : Z) n i l :
  (Z.of_nat n ≤ K) → K * Z.of_nat i + K < 2 ^ 64 →
  foldM (KHeap.consider comp K (Z.of_nat (length l)) l (Z.of_nat i))
    (seqZ 0 (Z.of_nat n)) (Z.of_nat i)
  = Ok (Z.of_nat (select_upto comp (Z.to_nat K) n i l)).
Proof.
  intros Hn Hb. induction n as [|n IH]; [done|].
  rewrite seqZ_snoc, foldM_app, IH by lia. simpl.
  rewrite select_upto_S, kheap_consider_eq.
  rewrite kheap_child_idx by lia.
  rewrite binary_consider; [done|].
  apply select_upto_in_range. lia.
Qed.

Lemma kheap_scan_all (K : Z) i l :
  0 ≤ K → K * Z.of_nat i + K < 2 ^ 64 →
  foldM (KHeap.consider comp K (Z.of_nat (length l)) l (Z.of_nat i))
    (seqZ 0 K) (Z.of_nat i)
  = Ok (Z.of_nat (select comp (Z.to_nat K) i l)).
Proof.
  intros HK Hb. pose proof (kheap_scan K (Z.to_nat K) i l) as Hscan.
  rewrite Z2Nat.id in Hscan by done. apply Hscan; [lia|done].
Qed.

Variable P : St → Prop.
Hypothesis swap_nodes_P : ∀ s i j,
  P s → (i < length (nodes_ s))%nat → (j < length (nodes_ s))%nat → i ≠ j →
  ∃ s', swap_nodes (Z.of_nat i) (Z.of_nat j) s = Ok s' ∧ P s' ∧
        nodes_ s' = list_swap i j (nodes_ s).

Lemma kheap_heapify_down_loop (K : Z) (fuelB : nat) : ∀ (fuelA : nat) i s,
  0 < K ≤ 64 → P s → (fuelB < fuelA)%nat →
  (length (nodes_ s) ≤ fuelB + i)%nat → (i ≤ length (nodes_ s))%nat →
  Z.of_nat (length (nodes_ s)) ≤ max_size →
  ∃ s', KHeap.heapify_down_loop comp K fuelA (Z.of_nat (length (nodes_ s)))
          (Z.of_nat i) (Z.of_nat i) s = Ok s' ∧
        P s' ∧ nodes_ s' = sift_down comp (Z.to_nat K) fuelB i (nodes_ s).
Proof.
  induction fuelB as [|fuelB IH]; intros fuelA i s HK HP Hfuel Hlen Hi Hmax;
    (destruct fuelA as [|fuelA]; [lia|]); cbn [KHeap.heapify_down_loop];
    unfold KHeap.is_leaf, size, vec_size;
    destruct (Z.ltb_spec (wrap (Z.of_nat (length (nodes_ s)) - 2) / K) (Z.of_nat i))
      as [Hleaf|Hinner].
  - by exists s.
  - exists s. split; [|done].
    rewrite kheap_scan_all; cycle 1.
    { lia. } { by apply (kheap_inner_no_overflow K (length (nodes_ s)) i). }
    rewrite bind_Ok.
    rewrite select_no_sons; [by rewrite Z.eqb_refl|].
    pose proof (child_idx_gt (Z.to_nat K) i 0). unfold child_idx in *. lia.
  - exists s. rewrite sift_down_no_sons; [done|].
    apply kheap_leaf_no_sons; lia.
  - rewrite kheap_scan_all; cycle 1.
    { lia. } { by apply (kheap_inner_no_overflow K (length (nodes_ s)) i). }
    rewrite bind_Ok.
    cbn [sift_down]. case_decide as Hsel.
    + rewrite Hsel, Z.eqb_refl. by exists s.
    + destruct (select_gt comp (Z.to_nat K) i (nodes_ s) Hsel) as [Hgt Hlt].
      rewrite (proj2 (Z.eqb_neq _ _)) by lia.
      destruct (swap_nodes_P s i (select comp (Z.to_nat K) i (nodes_ s)))
        as (s' & -> & HP' & Hnodes); [done|lia|done|done|].
      rewrite bind_Ok.
      assert (length (nodes_ s') = length (nodes_ s)) as Hlen'.
      { by rewrite Hnodes, length_list_swap. }
      rewrite <- Hlen', <- Hnodes. apply IH; [done|done|lia|lia|lia|lia].
Qed.

Lemma kheap_heapify_down (K : Z) i s :
  0 < K ≤ 64 → P s → (i ≤ length (nodes_ s))%nat →
  Z.of_nat (length (nodes_ s)) ≤ max_size →
  ∃ s', KHeap.heapify_down comp K (Z.of_nat i) s = Ok s' ∧ P s' ∧
        nodes_ s' = sift_down comp (Z.to_nat K) (length (nodes_ s)) i (nodes_ s).
Proof.
  intros HK HP Hi Hmax. unfold KHeap.heapify_down, size, vec_size.
  destruct (kheap_heapify_down_loop K (length (nodes_ s)) (S (length (nodes_ s))) i s)
    as (s' & -> & ? & ?); [done|done|lia|lia|done|done|].
  by exists s'.
Qed.

Lemma binary_scan i l (c1 : Z) :
  2 * Z.of_nat i + 2 < 2 ^ 64 →
  BinaryHeap.consider comp (Z.of_nat (length l)) l (Z.of_nat i)
    (BinaryHeap.left (Z.of_nat i)) = Ok c1 →
  BinaryHeap.consider comp (Z.of_nat (length l)) l c1
    (BinaryHeap.right (Z.of_nat i)) = Ok (Z.of_nat (select comp 2 i l)).
Proof.
  intros Hb. rewrite binary_left_idx, binary_right_idx by done.
  rewrite binary_consider by (unfold child_idx; lia). intros [= <-].
  rewrite binary_consider; [done|]. intros Hc.
  apply (select_upto_in_range 2 1 i l 1); [lia|done].
Qed.

Lemma binary_scan_first i l :
  2 * Z.of_nat i + 2 < 2 ^ 64 →
  ∃ c1 : Z, BinaryHeap.consider comp (Z.of_nat (length l)) l (Z.of_nat i)
          (BinaryHeap.left (Z.of_nat i)) = Ok c1.
Proof.
  intros Hb. rewrite binary_left_idx by done.
  rewrite binary_consider by (unfold child_idx; lia). eauto.
Qed.

Lemma binary_leaf_test n :
  Z.of_nat n ≤ max_size →
  wrap (Z.shiftr (Z.of_nat n) 1 + 1) = Z.of_nat n / 2 + 1.
Proof.
  intros Hmax. unfold max_size in Hmax. rewrite Z.shiftr_div_pow2 by lia.
  change (2 ^ 1) with 2.
  pose proof (Z.div_mod (Z.of_nat n) 2). pose proof (Z.mod_pos_bound (Z.of_nat n) 2).
  apply wrap_small. lia.
Qed.

Lemma binary_inner_no_overflow n i :
  Z.of_nat n ≤ max_size → Z.of_nat i < Z.of_nat n / 2 + 1 →
  2 * Z.of_nat i + 2 < 2 ^ 64.
Proof.
  intros Hmax Hinner. unfold max_size in Hmax.
  pose proof (Z.div_mod (Z.of_nat n) 2). pose proof (Z.mod_pos_bound (Z.of_nat n) 2).
  lia.
Qed.

Lemma binary_heapify_down_loop (fuelB : nat) : ∀ (fuelA : nat) i s,
  P s → (fuelB < fuelA)%nat →
  (length (nodes_ s) ≤ fuelB + i)%nat → (i ≤ length (nodes_ s))%nat →
  Z.of_nat (length (nodes_ s)) ≤ max_size →
  ∃ s', BinaryHeap.heapify_down_loop comp fuelA (Z.of_nat (length (nodes_ s)))
          (Z.of_nat i) s = Ok s' ∧
        P s' ∧ nodes_ s' = sift_down comp 2 fuelB i (nodes_ s).
Proof.
  induction fuelB as [|fuelB IH]; intros fuelA i s HP Hfuel Hlen Hi Hmax;
    (destruct fuelA as [|fuelA]; [lia|]); cbn [BinaryHeap.heapify_down_loop];
    unfold BinaryHeap.is_leaf, size, vec_size; rewrite binary_leaf_test by done;
    (destruct (Z.leb_spec (Z.of_nat (length (nodes_ s)) / 2 + 1) (Z.of_nat i))
      as [Hleaf|Hinner]; [|
     pose proof (binary_inner_no_overflow _ _ Hmax Hinner) as Hb;
     destruct (binary_scan_first i (nodes_ s) Hb) as [c1 Hc1];
     cbv zeta; rewrite Hc1, bind_Ok, (binary_scan i (nodes_ s) c1 Hb Hc1), bind_Ok]).
  - by exists s.
  - exists s. split; [|done].
    rewrite select_no_sons; [by rewrite Z.eqb_refl|].
    unfold child_idx. lia.
  - exists s. rewrite sift_down_no_sons; [done|].
    by apply binary_leaf_no_sons.
  - cbn [sift_down]. case_decide as Hsel.
    + rewrite Hsel, Z.eqb_refl. by exists s.
    + destruct (select_gt comp 2 i (nodes_ s) Hsel) as [Hgt Hlt].
      rewrite (proj2 (Z.eqb_neq _ _)) by lia.
      destruct (swap_nodes_P s i (select comp 2 i (nodes_ s)))
        as (s' & -> & HP' & Hnodes); [done|lia|done|done|].
      rewrite bind_Ok.
      assert (length (nodes_ s') = length (nodes_ s)) as Hlen'.
      { by rewrite Hnodes, length_list_swap. }
      rewrite <- Hlen', <- Hnodes. apply IH; [done|lia|lia|lia|lia].
Qed.

Lemma binary_heapify_down i s :
  P s → (i ≤ length (nodes_ s))%nat →
  Z.of_nat (length (nodes_ s)) ≤ max_size →
  ∃ s', BinaryHeap.heapify_down comp (Z.of_nat i) s = Ok s' ∧ P s' ∧
        nodes_ s' = sift_down comp 2 (length (nodes_ s)) i (nodes_ s).
Proof.
  intros HP Hi Hmax. unfold BinaryHeap.heapify_down, size, vec_size.
  destruct (binary_heapify_down_loop (length (nodes_ s)) (S (length (nodes_ s))) i s)
    as (s' & -> & ? & ?); [done|lia|lia|done|done|].
  by exists s'.
Qed.
End refinement.

Section refinement_dispatch.
Context {T St : Type} `{HeapState T St}.
Variable comp : T → T → bool.
Variable C : HeapC.
Hypothesis C_ok : arity_in_range C.
Implicit Types (s : St) (l : list T) (i j n : nat).

Lemma arity_pos : (0 < arity C)%nat.
Proof. destruct C; simpl in *; lia. Qed.

Lemma parent_refines i :
  (0 < i)%nat → Z.of_nat i < 2 ^ 64 →
  parent C (Z.of_nat i) = Z.of_nat (parent_idx (arity C) i).
Proof.
  intros Hi Hb. destruct C as [|K]; simpl in *.
  - by apply binary_parent_idx.
  - apply kheap_parent_idx; [lia|done..].
Qed.

Section down.
Variable P : St → Prop.
Hypothesis swap_nodes_P : ∀ s i j,
  P s → (i < length (nodes_ s))%nat → (j < length (nodes_ s))%nat → i ≠ j →
  ∃ s', swap_nodes (Z.of_nat i) (Z.of_nat j) s = Ok s' ∧ P s' ∧
        nodes_ s' = list_swap i j (nodes_ s).

Lemma heapify_down_refines i s :
  P s → (i ≤ length (nodes_ s))%nat →
  Z.of_nat (length (nodes_ s)) ≤ max_size →
  ∃ s', heapify_down comp C (Z.of_nat i) s = Ok s' ∧ P s' ∧
        nodes_ s' = sift_down comp (arity C) (length (nodes_ s)) i (nodes_ s).
Proof.
  intros HP Hi Hmax. destruct C as [|K]; simpl in *.
  - by apply binary_heapify_down.
  - by apply kheap_heapify_down.
Qed.

Lemma build_heap_loop_refines n : ∀ s,
  P s → (n ≤ S (length (nodes_ s)))%nat →
  Z.of_nat (length (nodes_ s)) ≤ max_size →
  ∃ s', (match C with
         | binary_heap => BinaryHeap.build_heap_loop comp n s
         | k_heap K => KHeap.build_heap_loop comp K n s
         end) = Ok s' ∧ P s' ∧
        nodes_ s' = build_from comp (arity C) n (nodes_ s).
Proof.
  induction n as [|n IH]; intros s HP Hn Hmax.
  { exists s. by destruct C. }
  destruct (heapify_down_refines n s) as (s1 & Hs1 & HP1 & Hnodes1);
    [done|lia|done|].
  assert (length (nodes_ s1) = length (nodes_ s)) as Hlen1.
  { by rewrite Hnodes1, length_sift_down. }
  destruct (IH s1) as (s' & Hs' & HP' & Hnodes'); [done|lia|lia|].
  exists s'. split; [|split; [done|]].
  - destruct C; cbn [BinaryHeap.build_heap_loop KHeap.build_heap_loop];
      simpl in Hs1; by rewrite Hs1, bind_Ok.
  - cbn [build_from]. by rewrite <- Hnodes1.
Qed.

Lemma build_heap_refines s :
  P s → Z.of_nat (length (nodes_ s)) ≤ max_size →
  ∃ s', build_heap comp C s = Ok s' ∧ P s' ∧
        nodes_ s' = build comp (arity C) (nodes_ s).
Proof.
  intros HP Hmax.
  assert (∀ K : Z, 0 < K ≤ 64 →
    Z.to_nat (wrap (Z.of_nat (length (nodes_ s)) / K + 1))
    = (length (nodes_ s) / Z.to_nat K + 1)%nat) as Hstart.
  { intros K HK. unfold max_size in Hmax.
    pose proof (Z.div_le_upper_bound (Z.of_nat (length (nodes_ s))) K
      (Z.of_nat (length (nodes_ s)))).
    pose proof (Z.div_pos (Z.of_nat (length (nodes_ s))) K).
    rewrite wrap_small by nia.
    rewrite Z2Nat.inj_add, Z2Nat.inj_div, Nat2Z.id by lia. done. }
  destruct (build_heap_loop_refines (length (nodes_ s) / arity C + 1) s)
    as (s' & Hs' & HP' & Hnodes'); [done| |done|].
  { pose proof arity_pos. pose proof (Nat.Div0.div_le_upper_bound
      (length (nodes_ s)) (arity C) (length (nodes_ s))). nia. }
  exists s'. split; [|done].
  destruct C as [|K]; simpl in *.
  - unfold BinaryHeap.build_heap, size, vec_size.
    rewrite Z.shiftr_div_pow2 by lia. change (2 ^ 1) with 2.
    by rewrite (Hstart 2) by lia.
  - unfold KHeap.build_heap, size, vec_size. by rewrite Hstart.
Qed.
End down.

Section up.
Variable P : nat → St → Prop.
Hypothesis swap_nodes_P : ∀ s i a b,
  P i s → (0 < i)%nat →
  nodes_ s !! parent_idx (arity C) i = Some a → nodes_ s !! i = Some b →
  comp a b = true →
  ∃ s', swap_nodes (Z.of_nat i) (Z.of_nat (parent_idx (arity C) i)) s = Ok s' ∧
        P (parent_idx (arity C) i) s' ∧
        nodes_ s' = list_swap i (parent_idx (arity C) i) (nodes_ s).

Lemma heapify_up_loop_refines (fuel : nat) : ∀ i s,
  P i s → (i < fuel)%nat → (i < length (nodes_ s))%nat →
  Z.of_nat (length (nodes_ s)) ≤ max_size →
  ∃ s', heapify_up_loop comp C fuel (Z.of_nat i) s = Ok s' ∧
        P (sift_up_pos comp (arity C) fuel i (nodes_ s)) s' ∧
        nodes_ s' = sift_up comp (arity C) fuel i (nodes_ s).
Proof.
  induction fuel as [|fuel IH]; intros i s HP Hfuel Hi Hmax; [lia|].
  cbn [heapify_up_loop sift_up sift_up_pos].
  destruct i as [|i]; [by exists s|].
  rewrite (proj2 (Z.ltb_lt 0 (Z.of_nat (S i)))) by lia.
  pose proof max_size_lt.
  rewrite parent_refines by lia.
  pose proof (parent_idx_lt' (arity C) arity_pos (S i)) as Hlt.
  destruct (lookup_lt_is_Some_2 (nodes_ s) (parent_idx (arity C) (S i)))
    as [a Ha]; [lia|].
  destruct (lookup_lt_is_Some_2 (nodes_ s) (S i)) as [b Hb]; [lia|].
  rewrite (vec_at_Some _ _ _ Ha), bind_Ok, (vec_at_Some _ _ _ Hb), bind_Ok.
  rewrite Ha, Hb. destruct (comp a b) eqn:Hab; [|by exists s].
  destruct (swap_nodes_P s (S i) a b) as (s' & -> & HP' & Hnodes);
    [done|lia|done..|].
  rewrite bind_Ok, <- Hnodes.
  apply IH; [done|lia|rewrite Hnodes, length_list_swap; lia|].
  rewrite Hnodes, length_list_swap. lia.
Qed.

Lemma heapify_up_refines i s :
  P i s → (i < length (nodes_ s))%nat →
  Z.of_nat (length (nodes_ s)) ≤ max_size →
  ∃ s', heapify_up comp C (Z.of_nat i) s = Ok s' ∧
        P (sift_up_pos comp (arity C) (S (length (nodes_ s))) i (nodes_ s)) s' ∧
        nodes_ s' = sift_up comp (arity C) (S (length (nodes_ s))) i (nodes_ s).
Proof.
  intros HP Hi Hmax. unfold heapify_up.
  destruct (heapify_up_loop_refines (S (length (nodes_ s))) i s)
    as (s' & -> & ? & ?); [done|lia|done|done|].
  by exists s'.
Qed.
End up.

Lemma heapify_up_0 s : heapify_up comp C 0 s = Ok s.
Proof. reflexivity. Qed.
End refinement_dispatch.

(** ** Plain heaps: the methods of [Heap] on a vector *)

Lemma HeapC_ok_in_range C : HeapC_ok C → arity_in_range C.
Proof.
  destruct C as [|K]; simpl; [done|]. unfold KHeap.arity_ok.
  rewrite andb_true_iff, Z.ltb_lt, Z.leb_le. lia.
Qed.

Section plain_heap.
Context {T : Type}.
Variable comp : T → T → bool.
Variable C : HeapC.
Hypothesis C_ok : arity_in_range C.
Implicit Types (l h : list T) (i : nat).

Let K := arity C.

Lemma plain_swap_nodes l i j :
  True → (i < length (nodes_ l))%nat → (j < length (nodes_ l))%nat → i ≠ j →
  ∃ l', swap_nodes (Z.of_nat i) (Z.of_nat j) l = Ok l' ∧ True ∧
        nodes_ l' = list_swap i j (nodes_ l).
Proof.
  intros _ Hi Hj _. exists (list_swap i j l). split; [|done].
  by apply Heap_swap_nodes_list_swap.
Qed.

Lemma plain_heapify_down i l :
  (i ≤ length l)%nat → vec_size l ≤ max_size →
  heapify_down comp C (Z.of_nat i) l = Ok (sift_down comp K (length l) i l).
Proof.
  intros Hi Hmax.
  destruct (heapify_down_refines comp C C_ok (λ _, True) plain_swap_nodes i l)
    as (l' & -> & _ & Hl'); [done..|]. simpl in Hl'. by subst l'.
Qed.

Lemma plain_build_heap l :
  vec_size l ≤ max_size → build_heap comp C l = Ok (build comp K l).
Proof.
  intros Hmax.
  destruct (build_heap_refines comp C C_ok (λ _, True) plain_swap_nodes l)
    as (l' & -> & _ & Hl'); [done..|]. simpl in Hl'. by subst l'.
Qed.

Lemma plain_heapify_up i l :
  (i < length l)%nat → vec_size l ≤ max_size →
  heapify_up comp C (Z.of_nat i) l = Ok (sift_up comp K (S (length l)) i l).
Proof.
  intros Hi Hmax.
  destruct (heapify_up_refines comp C C_ok (λ _ _, True)) with (i := i) (s := l)
    as (l' & -> & _ & Hl'); [|done..|simpl in Hl'; by subst l'].
  intros s n a b _ Hn Ha Hb _. exists (list_swap n (parent_idx (arity C) n) s).
  split; [|done]. apply Heap_swap_nodes_list_swap; by eapply lookup_lt_Some.
Qed.

Lemma plain_top x l : top (x :: l) = Ok x.
Proof. done. Qed.

Lemma plain_pop l :
  l ≠ [] → vec_size l ≤ max_size → pop comp C l = Ok (seq_pop comp K l).
Proof.
  intros Hne Hmax. unfold pop, seq_pop, vec_front_assign_back.
  simpl nodes_. simpl set_nodes_.
  destruct (last l) as [b|] eqn:Hlast; [|by apply last_None in Hlast].
  destruct l as [|x l]; [done|].
  change (vec_at (x :: l) 0) with (Ok x). rewrite !bind_Ok.
  unfold vec_pop_back. rewrite length_insert.
  apply (plain_heapify_down 0); [lia|].
  unfold vec_size in *. rewrite length_take, length_insert. lia.
Qed.

Lemma plain_push x l :
  vec_size l < max_size → push comp C x l = Ok (seq_push comp K x l).
Proof.
  intros Hmax. unfold push, seq_push, vec_emplace_back, size. simpl nodes_.
  rewrite (proj2 (Z.leb_gt _ _)) by done. rewrite bind_Ok. simpl set_nodes_.
  unfold vec_size in *.
  apply plain_heapify_up; unfold vec_size; rewrite length_app; simpl; lia.
Qed.

Lemma plain_push_full x l :
  max_size ≤ vec_size l → push comp C x l = Err length_error.
Proof.
  intros Hmax. unfold push, vec_emplace_back. simpl nodes_.
  by rewrite (proj2 (Z.leb_le _ _)) by done.
Qed.
End plain_heap.

(** ** Plain heaps: construction, operation sequences, extraction *)

Lemma StronglySorted_impl {A} (R R' : A → A → Prop) (l : list A) :
  (∀ a b, R a b → R' a b) → StronglySorted R l → StronglySorted R' l.
Proof.
  intros HR Hs. rewrite <- (list_fmap_id l). by apply (StronglySorted_fmap id R R').
Qed.

Section heap_facts.
Context {T : Type} `{Ordered T}.
Variable HeapT : heap_type.
Variable C : HeapC.
Implicit Types (l h inputs : list T).

Let comp := Compare (T:=T) HeapT.
Let K := arity C.

Lemma make_heap_build inputs :
  HeapC_ok C → vec_size inputs ≤ max_size →
  make_heap HeapT C false inputs = Ok (build comp K inputs).
Proof.
  intros Hok Hmax. pose proof (HeapC_ok_in_range C Hok) as Hin.
  unfold make_heap, heapify. destruct C as [|K']; simpl in Hok.
  - by apply plain_build_heap.
  - rewrite Hok. by apply plain_build_heap.
Qed.

Lemma make_heap_assume inputs :
  HeapC_ok C → make_heap HeapT C true inputs = Ok inputs.
Proof.
  intros Hok. unfold make_heap, heapify. destruct C as [|K']; simpl in Hok; [done|].
  by rewrite Hok.
Qed.

Lemma pop_all_refines n : ∀ h,
  arity_in_range C → n = length h → vec_size h ≤ max_size →
  pop_all HeapT C n h = Ok (seq_pop_all comp K n h).
Proof.
  induction n as [|n IH]; intros h Hin Hn Hmax; [done|].
  destruct h as [|x h]; [done|]. cbn [pop_all seq_pop_all].
  rewrite plain_top, bind_Ok, (plain_pop comp C Hin) by done. rewrite bind_Ok.
  rewrite IH; [done|done| |].
  - rewrite length_seq_pop by (by apply arity_pos). simpl in *. lia.
  - unfold vec_size in *. rewrite length_seq_pop by (by apply arity_pos).
    simpl in *. lia.
Qed.

Lemma extraction_order_refines h :
  arity_in_range C → vec_size h ≤ max_size →
  extraction_order HeapT C h = Ok (seq_pop_all comp K (length h) h).
Proof. intros. by apply pop_all_refines. Qed.

Lemma run_heap_ops_heap `{!StrictWeakOrder (Compare (T:=T) HeapT)} ops : ∀ h,
  arity_in_range C → is_heap comp C h → vec_size h ≤ max_size →
  match run_heap_ops comp C ops h with
  | Ok h' => is_heap comp C h' ∧ vec_size h' ≤ max_size
  | Err e => e = undefined_behaviour ∨ e = length_error
  end.
Proof.
  induction ops as [|[x|] ops IH]; intros h Hin Hh Hmax; [done|..];
    cbn [run_heap_ops]; pose proof (arity_pos C Hin) as HK.
  - destruct (decide (vec_size h < max_size)) as [Hlt|Hfull].
    + rewrite (plain_push comp C Hin) by done. rewrite bind_Ok. apply IH; [done|..].
      * by apply seq_push_heap.
      * unfold vec_size in *. rewrite length_seq_push by done. lia.
    + rewrite plain_push_full by lia. by right.
  - destruct (decide (h = [])) as [->|Hne]; [by left|].
    rewrite (plain_pop comp C Hin) by done. rewrite bind_Ok. apply IH; [done|..].
    * by apply seq_pop_heap.
    * unfold vec_size in *. rewrite length_seq_pop by done. lia.
Qed.

Lemma heap_step_heap `{!StrictWeakOrder (Compare (T:=T) HeapT)} h :
  arity_in_range C → is_heap comp C h → vec_size h ≤ max_size →
  (∀ x, vec_size h < max_size →
     ∃ h', push comp C x h = Ok h' ∧ is_heap comp C h') ∧
  (h ≠ [] → ∃ h', pop comp C h = Ok h' ∧ is_heap comp C h').
Proof.
  intros Hin Hh Hmax. pose proof (arity_pos C Hin) as HK. split.
  - intros x Hlt. rewrite (plain_push comp C Hin) by done.
    eexists. split; [done|]. by apply seq_push_heap.
  - intros Hne. rewrite (plain_pop comp C Hin) by done.
    eexists. split; [done|]. by apply seq_pop_heap.
Qed.
End heap_facts.

(** C2.  After construction (in build mode on any input, in assume-heap
    mode on an input that is a heap), and after every completed [push] or
    [pop] of any sequence of such operations, on a binary or k-ary, min or
    max heap, the heap property holds: no slot compares below one of its
    in-bounds children.  On a heap, a [push] completes unless the vector
    is full, where it throws the length error, and a [pop] completes
    unless the heap is empty, where its behaviour is undefined; a sequence
    of operations stops there. *)
Theorem heap_property_maintained {T : Type} `{Ordered T} (HeapT : heap_type)
    (C : HeapC) (IsHeap : bool) (inputs : list T) :
  StrictWeakOrder (Compare (T:=T) HeapT) → HeapC_ok C → vec_size inputs ≤ max_size →
  (IsHeap = true → is_heap (Compare HeapT) C inputs) →
  (∃ h0, make_heap HeapT C IsHeap inputs = Ok h0 ∧
         is_heap (Compare HeapT) C h0 ∧
         ∀ ops, match run_heap_ops (Compare HeapT) C ops h0 with
                | Ok h => is_heap (Compare HeapT) C h
                | Err e => e = undefined_behaviour ∨ e = length_error
                end) ∧
  (∀ h, is_heap (Compare HeapT) C h → vec_size h ≤ max_size →
     (∀ x, vec_size h < max_size →
        ∃ h', push (Compare HeapT) C x h = Ok h' ∧ is_heap (Compare HeapT) C h') ∧
     (h ≠ [] →
        ∃ h', pop (Compare HeapT) C h = Ok h' ∧ is_heap (Compare HeapT) C h')).
Proof.
  intros Hswo Hok Hmax Hassume. pose proof (HeapC_ok_in_range C Hok) as Hin.
  split; [|intros h Hh Hmaxh; by apply heap_step_heap].
  assert (∃ h0, make_heap HeapT C IsHeap inputs = Ok h0 ∧
                is_heap (Compare HeapT) C h0 ∧ vec_size h0 ≤ max_size)
    as (h0 & Hh0 & Hh & Hmax0).
  { destruct IsHeap.
    - exists inputs. split; [by apply make_heap_assume|]. split; [by apply Hassume|done].
    - exists (build (Compare HeapT) (arity C) inputs).
      split; [by apply make_heap_build|]. split.
      + apply build_heap_property; [done|]. by apply arity_pos.
      + unfold vec_size in *. by rewrite length_build. }
  exists h0. split; [done|]. split; [done|]. intros ops.
  pose proof (run_heap_ops_heap HeapT C ops _ Hin Hh Hmax0) as Hrun.
  destruct (run_heap_ops _ _ _ _); [apply Hrun|done].
Qed.

Lemma heap_property_maintained_witness :
  (∃ h0, make_heap max_heap binary_heap false [30; 1; 50; 20; 40; 60; 100] = Ok h0 ∧
         is_heap (Compare max_heap) binary_heap h0 ∧
         ∀ ops, match run_heap_ops (Compare max_heap) binary_heap ops h0 with
                | Ok h => is_heap (Compare max_heap) binary_heap h
                | Err e => e = undefined_behaviour ∨ e = length_error
                end) ∧
  (∀ h : list Z, is_heap (Compare max_heap) binary_heap h → vec_size h ≤ max_size →
     (∀ x, vec_size h < max_size →
        ∃ h', push (Compare max_heap) binary_heap x h = Ok h' ∧
              is_heap (Compare max_heap) binary_heap h') ∧
     (h ≠ [] →
        ∃ h', pop (Compare max_heap) binary_heap h = Ok h' ∧
              is_heap (Compare max_heap) binary_heap h')).
Proof.
  apply (heap_property_maintained max_heap binary_heap false
           [30; 1; 50; 20; 40; 60; 100]).
  - apply Z_Compare_swo.
  - exact I.
  - vm_compute. discriminate.
  - discriminate.
Defined.

Lemma extraction_sorted_perm {T : Type} `{Ordered T} (HeapT : heap_type) (C : HeapC)
    (inputs : list T) :
  StrictWeakOrder (Compare (T:=T) HeapT) → HeapC_ok C → vec_size inputs ≤ max_size →
  ∃ h out, make_heap HeapT C false inputs = Ok h ∧
           extraction_order HeapT C h = Ok out ∧
           out ≡ₚ inputs ∧
           StronglySorted (λ a b, Compare HeapT a b = false) out.
Proof.
  intros Hswo Hok Hmax. pose proof (HeapC_ok_in_range C Hok) as Hin.
  pose proof (arity_pos C Hin) as HK.
  set (h := build (Compare HeapT) (arity C) inputs).
  assert (length h = length inputs) as Hlen by apply length_build.
  destruct (seq_pop_all_spec (Compare HeapT) (arity C) HK (length h) h)
    as [Hperm Hsorted]; [done|by apply build_heap_property|].
  exists h, (seq_pop_all (Compare HeapT) (arity C) (length h) h).
  split; [by apply make_heap_build|]. split; [|split; [|done]].
  - apply extraction_order_refines; [done|]. unfold vec_size in *. lia.
  - rewrite Hperm. apply build_perm.
Qed.

(** C3.  Popping a heap built from any input vector until it is empty
    yields a permutation of the input in sorted order: no element is
    followed by one that the comparator ranks above it; over the integers
    the order is descending for a max-heap and ascending for a min-heap.
    The max binary heap built from [30,1,50,20,40,60,100] pops
    [100,60,50,40,30,20,1]. *)
Theorem full_extraction_sorted :
  (∀ (T : Type) (O : Ordered T) (HeapT : heap_type) (C : HeapC) (inputs : list T),
     StrictWeakOrder (Compare (T:=T) HeapT) → HeapC_ok C →
     vec_size inputs ≤ max_size →
     ∃ h out, make_heap HeapT C false inputs = Ok h ∧
              extraction_order HeapT C h = Ok out ∧
              out ≡ₚ inputs ∧
              StronglySorted (λ a b, Compare HeapT a b = false) out) ∧
  (∀ (HeapT : heap_type) (C : HeapC) (inputs : list Z),
     HeapC_ok C → vec_size inputs ≤ max_size →
     ∃ h out, make_heap HeapT C false inputs = Ok h ∧
              extraction_order HeapT C h = Ok out ∧
              out ≡ₚ inputs ∧
              match HeapT with
              | max_heap => StronglySorted Z.ge out
              | min_heap => StronglySorted Z.le out
              end) ∧
  (h ← make_max_heap false [30; 1; 50; 20; 40; 60; 100];
   extraction_order max_heap binary_heap h) = Ok [100; 60; 50; 40; 30; 20; 1].
Proof.
  split; [|split; [|by vm_compute]].
  - intros T O HeapT C inputs. apply extraction_sorted_perm.
  - intros HeapT C inputs Hok Hmax.
    destruct (extraction_sorted_perm HeapT C inputs) as (h & out & Hh & Hout & Hperm & Hs);
      [apply _|done..|].
    exists h, out. do 3 (split; [done|]).
    destruct HeapT; simpl in Hs; eapply StronglySorted_impl; try exact Hs;
      intros a b; simpl; rewrite ?Z.gtb_ltb, Z.ltb_ge; lia.
Qed.

Lemma full_extraction_sorted_witness :
  ∃ h out, make_heap min_heap (k_heap 4) false [30; 1; 50; 20; 40; 60; 100] = Ok h ∧
           extraction_order min_heap (k_heap 4) h = Ok out ∧
           out ≡ₚ [30; 1; 50; 20; 40; 60; 100] ∧
           StronglySorted Z.le out.
Proof.
  apply (proj1 (proj2 full_extraction_sorted) min_heap (k_heap 4)).
  - reflexivity.
  - vm_compute. discriminate.
Defined.

(** C6.  On an empty heap, freshly constructed or not, [top] fails with
    the range error of [std::vector::at], but [pop] signals nothing: it
    evaluates [nodes_.back()] on the empty vector before the range check
    of [at(0)] is reached, which is undefined.  On every non-empty heap
    both succeed, so the empty heap is the only one on which either
    fails. *)
Theorem top_pop_fail_iff_empty {T : Type} `{Ordered T} (HeapT : heap_type)
    (C : HeapC) (IsHeap : bool) (h : list T) :
  HeapC_ok C → vec_size h ≤ max_size →
  (∃ h0, make_heap HeapT C IsHeap [] = Ok h0 ∧ h0 = [] ∧
         top h0 = Err out_of_range ∧
         pop (Compare HeapT) C h0 = Err undefined_behaviour) ∧
  (top h = Err out_of_range ↔ h = []) ∧
  (pop (Compare HeapT) C h = Err undefined_behaviour ↔ h = []) ∧
  (h ≠ [] → ∃ x h', top h = Ok x ∧ pop (Compare HeapT) C h = Ok h').
Proof.
  intros Hok Hmax. pose proof (HeapC_ok_in_range C Hok) as Hin.
  split; [|split; [|split]].
  - exists []. split; [|done]. destruct IsHeap; [by apply make_heap_assume|].
    rewrite make_heap_build by done.
    f_equal. apply length_zero_iff_nil. by rewrite length_build.
  - destruct h; split; done.
  - destruct h as [|x h]; [done|]. split; [|done].
    by rewrite (plain_pop _ C Hin).
  - intros Hne. destruct h as [|x h]; [done|]. exists x.
    rewrite (plain_pop _ C Hin) by done. eauto.
Qed.

Lemma top_pop_fail_iff_empty_witness :
  (∃ h0, make_heap max_heap (k_heap 4) false ([] : list Z) = Ok h0 ∧ h0 = [] ∧
         top h0 = Err out_of_range ∧
         pop (Compare max_heap) (k_heap 4) h0 = Err undefined_behaviour) ∧
  (top [7; 3] = Err out_of_range ↔ [7; 3] = []) ∧
  (pop (Compare max_heap) (k_heap 4) [7; 3] = Err undefined_behaviour ↔ [7; 3] = []) ∧
  ([7; 3] ≠ [] →
   ∃ x h', top [7; 3] = Ok x ∧ pop (Compare max_heap) (k_heap 4) [7; 3] = Ok h').
Proof.
  apply (top_pop_fail_iff_empty max_heap (k_heap 4) false [7; 3]).
  - reflexivity.
  - vm_compute. discriminate.
Defined.

(** C8.  A k-ary heap whose arity is outside (2, 64] is rejected with a
    configuration error; with an arity inside that interval construction
    succeeds.  (The source rejects the arity when the template is
    instantiated.) *)
Theorem kheap_arity_checked {T : Type} `{Ordered T} (HeapT : heap_type)
    (K : Z) (IsHeap : bool) (inputs : list T) :
  vec_size inputs ≤ max_size →
  (¬ (2 < K ≤ 64) →
   make_heap HeapT (k_heap K) IsHeap inputs = Err configuration_error) ∧
  (2 < K ≤ 64 → ∃ h, make_heap HeapT (k_heap K) IsHeap inputs = Ok h).
Proof.
  intros Hmax. split; intros HK.
  - unfold make_heap, KHeap.arity_ok.
    destruct (Z.ltb_spec 2 K), (Z.leb_spec K 64); simpl; try done; lia.
  - assert (HeapC_ok (k_heap K)) as Hok.
    { simpl. unfold KHeap.arity_ok. apply andb_true_iff.
      rewrite Z.ltb_lt, Z.leb_le. lia. }
    destruct IsHeap.
    + rewrite make_heap_assume by done. eauto.
    + rewrite make_heap_build by done. eauto.
Qed.

Lemma kheap_arity_checked_witness :
  (¬ (2 < 2 ≤ 64) →
   make_heap min_heap (k_heap 2) false [3; 1; 2] = Err configuration_error) ∧
  (2 < 2 ≤ 64 → ∃ h, make_heap min_heap (k_heap 2) false [3; 1; 2] = Ok h).
Proof.
  apply (kheap_arity_checked min_heap 2 false [3; 1; 2]).
  vm_compute. discriminate.
Defined.

(** C9.  On an input that already satisfies the heap property, a heap
    constructed in assume-heap mode and a heap constructed in build mode
    are the same vector, so their full pop orders coincide. *)
Theorem assume_heap_equivalence {T : Type} `{Ordered T} (HeapT : heap_type)
    (C : HeapC) (inputs : list T) :
  HeapC_ok C → vec_size inputs ≤ max_size → is_heap (Compare HeapT) C inputs →
  ∃ h1 h2 out,
    make_heap HeapT C true inputs = Ok h1 ∧
    make_heap HeapT C false inputs = Ok h2 ∧
    extraction_order HeapT C h1 = Ok out ∧
    extraction_order HeapT C h2 = Ok out.
Proof.
  intros Hok Hmax Hh. pose proof (HeapC_ok_in_range C Hok) as Hin.
  exists inputs, inputs,
    (seq_pop_all (Compare HeapT) (arity C) (length inputs) inputs).
  split; [by apply make_heap_assume|]. split.
  - rewrite make_heap_build by done. f_equal. by apply build_from_heap_id.
  - split; by apply extraction_order_refines.
Qed.

Lemma heap_propertyb_sound {T} (comp : T → T → bool) (K : nat) (l : list T) :
  heap_propertyb comp K l = true → heap_property comp K l.
Proof.
  unfold heap_propertyb. rewrite forallb_forall. intros Hall i j x y Hj Hx Hy.
  specialize (Hall i). rewrite forallb_forall in Hall.
  assert (In i (seq 0 (length l))) as Hi.
  { apply in_seq. apply lookup_lt_Some in Hx. lia. }
  specialize (Hall Hi j). rewrite Hx, Hy in Hall.
  apply negb_true_iff, Hall, in_seq. lia.
Qed.

Lemma assume_heap_equivalence_witness :
  ∃ h1 h2 out,
    make_heap min_heap (k_heap 4) true [0; 1; 2; 3; 4; 5; 6; 7; 8] = Ok h1 ∧
    make_heap min_heap (k_heap 4) false [0; 1; 2; 3; 4; 5; 6; 7; 8] = Ok h2 ∧
    extraction_order min_heap (k_heap 4) h1 = Ok out ∧
    extraction_order min_heap (k_heap 4) h2 = Ok out.
Proof.
  apply (assume_heap_equivalence min_heap (k_heap 4) [0; 1; 2; 3; 4; 5; 6; 7; 8]).
  - reflexivity.
  - vm_compute. discriminate.
  - apply heap_propertyb_sound. vm_compute. reflexivity.
Defined.

(** ** The k-ary algorithms at arity two *)

Section arity_two.
Context {T St : Type} `{HeapState T St}.
Variable comp : T → T → bool.

Lemma parent_arity_two (i : Z) : parent (k_heap 2) i = parent binary_heap i.
Proof.
  simpl. unfold KHeap.parent, BinaryHeap.parent.
  by rewrite Z.shiftr_div_pow2 by lia.
Qed.

Lemma heapify_up_loop_arity_two (fuel : nat) (i : Z) (s : St) :
  heapify_up_loop comp (k_heap 2) fuel i s
  = heapify_up_loop comp binary_heap fuel i s.
Proof.
  revert i s. induction fuel as [|fuel IH]; intros i s; [done|].
  cbn [heapify_up_loop]. rewrite parent_arity_two.
  destruct (0 <? i); [|done].
  destruct (vec_at (nodes_ s) (parent binary_heap i)) as [a|]; [|done].
  destruct (vec_at (nodes_ s) i) as [b|]; [|done]. simpl.
  destruct (comp a b); [|done].
  destruct (swap_nodes _ _ s) as [s'|]; [|done].
  simpl. apply IH.
Qed.

Lemma heapify_up_arity_two (i : Z) (s : St) :
  heapify_up comp (k_heap 2) i s = heapify_up comp binary_heap i s.
Proof. unfold heapify_up. by rewrite heapify_up_loop_arity_two. Qed.
End arity_two.

Section arity_two_plain.
Context {T : Type} `{Ordered T}.
Variable comp : T → T → bool.
Implicit Types (l : list T).

Lemma child_arity_two (i : Z) :
  KHeap.child 2 i 0 = BinaryHeap.left i ∧ KHeap.child 2 i 1 = BinaryHeap.right i.
Proof.
  unfold KHeap.child, BinaryHeap.left, BinaryHeap.right, wrap.
  rewrite Z.shiftl_mul_pow2 by lia. change (2 ^ 1) with 2.
  replace (i * 2) with (2 * i) by lia.
  assert (size_t_modulus ≠ 0) as Hm by done.
  rewrite Z.add_0_r, Z.mod_mod by done.
  split; [done|].
  rewrite Zplus_mod_idemp_l. f_equal. lia.
Qed.

Lemma heapify_down_arity_two (i : nat) l :
  (i ≤ length l)%nat → vec_size l ≤ max_size →
  heapify_down comp (k_heap 2) (Z.of_nat i) l
  = heapify_down comp binary_heap (Z.of_nat i) l.
Proof.
  intros Hi Hmax.
  rewrite (plain_heapify_down comp (k_heap 2)) by (simpl; lia || done).
  by rewrite (plain_heapify_down comp binary_heap) by done.
Qed.

Lemma heapify_arity_two (IsHeap : bool) l :
  vec_size l ≤ max_size →
  heapify comp (k_heap 2) IsHeap l = heapify comp binary_heap IsHeap l.
Proof.
  intros Hmax. destruct IsHeap; [done|]. unfold heapify.
  rewrite (plain_build_heap comp (k_heap 2)) by (simpl; lia || done).
  by rewrite (plain_build_heap comp binary_heap) by done.
Qed.

Lemma push_arity_two x l :
  push comp (k_heap 2) x l = push comp binary_heap x l.
Proof.
  unfold push. destruct (vec_emplace_back x (nodes_ l)); [|done].
  simpl. apply heapify_up_arity_two.
Qed.

Lemma pop_arity_two l :
  vec_size l ≤ max_size →
  pop comp (k_heap 2) l = pop comp binary_heap l.
Proof.
  intros Hmax. destruct (decide (l = [])) as [->|Hne]; [done|].
  rewrite (plain_pop comp (k_heap 2)) by (simpl; lia || done).
  by rewrite (plain_pop comp binary_heap) by done.
Qed.

Lemma run_heap_ops_arity_two ops : ∀ l,
  vec_size l ≤ max_size →
  run_heap_ops comp (k_heap 2) ops l = run_heap_ops comp binary_heap ops l.
Proof.
  induction ops as [|[x|] ops IH]; intros l Hmax; [done|..]; cbn [run_heap_ops].
  - rewrite push_arity_two.
    destruct (decide (vec_size l < max_size)) as [Hlt|Hfull].
    + rewrite (plain_push comp binary_heap) by done. rewrite !bind_Ok.
      apply IH. unfold vec_size in *. rewrite length_seq_push by (simpl; lia). lia.
    + by rewrite plain_push_full by lia.
  - rewrite pop_arity_two by done.
    destruct (decide (l = [])) as [->|Hne]; [done|].
    rewrite (plain_pop comp binary_heap) by done. rewrite !bind_Ok.
    apply IH. unfold vec_size in *. rewrite length_seq_pop by (simpl; lia). lia.
Qed.

Lemma run_heap_ops_size (C : HeapC) ops : ∀ l,
  arity_in_range C → vec_size l ≤ max_size →
  match run_heap_ops comp C ops l with
  | Ok l' => vec_size l' ≤ max_size
  | Err _ => True
  end.
Proof.
  induction ops as [|[x|] ops IH]; intros l Hin Hmax; [done|..];
    cbn [run_heap_ops]; pose proof (arity_pos C Hin) as HK.
  - destruct (decide (vec_size l < max_size)) as [Hlt|Hfull].
    + rewrite (plain_push comp C Hin) by done. rewrite bind_Ok. apply IH; [done|].
      unfold vec_size in *. rewrite length_seq_push by done. lia.
    + by rewrite plain_push_full by lia.
  - destruct (decide (l = [])) as [->|Hne]; [done|].
    rewrite (plain_pop comp C Hin) by done. rewrite bind_Ok. apply IH; [done|].
    unfold vec_size in *. rewrite length_seq_pop by done. lia.
Qed.
End arity_two_plain.

(* The two leaf tests are different functions even at arity two: on four
   elements the k-ary test already calls slot 2 a leaf.  Both are right
   about every slot that has a child, which is all [heapify_down] needs. *)
Example is_leaf_arity_two_differs :
  KHeap.is_leaf 2 [1; 2; 3; 4] 2 = true ∧ BinaryHeap.is_leaf [1; 2; 3; 4] 2 = false.
Proof. done. Qed.

(** C5.  The k-ary heap class instantiated at arity two behaves as the
    binary heap.  From the same input vector, in either construction mode,
    and after the same pushes and pops, the two hold the same sequence,
    hence report the same size, and pop in the same order; the two heap
    properties are the same predicate.  This rests on the algorithms
    agreeing one by one: construction, [push], [pop], the parent and child
    arithmetic, [heapify_up], and [heapify_down] from every slot.  (The
    factories leave arity two out: such a heap only exists where the
    class is named with its constraint argument written out.  It is built
    here as the factories build theirs, by [heapify] on the input.) *)
Theorem kheap_arity_two_matches_binary {T : Type} `{Ordered T}
    (HeapT : heap_type) (IsHeap : bool) (l : list T) (x : T)
    (ops : list (heap_op T)) :
  vec_size l ≤ max_size →
  (h0 ← heapify (Compare HeapT) (k_heap 2) IsHeap l;
   h ← run_heap_ops (Compare HeapT) (k_heap 2) ops h0;
   out ← extraction_order HeapT (k_heap 2) h;
   Ok (h0, h, size h, out))
  = (h0 ← heapify (Compare HeapT) binary_heap IsHeap l;
     h ← run_heap_ops (Compare HeapT) binary_heap ops h0;
     out ← extraction_order HeapT binary_heap h;
     Ok (h0, h, size h, out)) ∧
  heapify (Compare HeapT) (k_heap 2) IsHeap l
    = heapify (Compare HeapT) binary_heap IsHeap l ∧
  push (Compare HeapT) (k_heap 2) x l = push (Compare HeapT) binary_heap x l ∧
  pop (Compare HeapT) (k_heap 2) l = pop (Compare HeapT) binary_heap l ∧
  run_heap_ops (Compare HeapT) (k_heap 2) ops l
    = run_heap_ops (Compare HeapT) binary_heap ops l ∧
  extraction_order HeapT (k_heap 2) l = extraction_order HeapT binary_heap l ∧
  (is_heap (Compare HeapT) (k_heap 2) l ↔ is_heap (Compare HeapT) binary_heap l) ∧
  (∀ i : Z, parent (k_heap 2) i = parent binary_heap i ∧
            KHeap.child 2 i 0 = BinaryHeap.left i ∧
            KHeap.child 2 i 1 = BinaryHeap.right i ∧
            heapify_up (Compare HeapT) (k_heap 2) i l
              = heapify_up (Compare HeapT) binary_heap i l) ∧
  (∀ i : nat, (i ≤ length l)%nat →
     heapify_down (Compare HeapT) (k_heap 2) (Z.of_nat i) l
     = heapify_down (Compare HeapT) binary_heap (Z.of_nat i) l).
Proof.
  intros Hmax.
  assert (arity_in_range (k_heap 2)) as Hk by (simpl; lia).
  assert (arity_in_range binary_heap) as Hb by done.
  assert (∀ h, vec_size h ≤ max_size →
    extraction_order HeapT (k_heap 2) h = extraction_order HeapT binary_heap h) as Hex.
  { intros h Hh.
    by rewrite (extraction_order_refines _ _ _ Hk), (extraction_order_refines _ _ _ Hb). }
  split; [|split; [|split; [|split; [|split; [|split; [|split; [|split]]]]]]].
  - rewrite heapify_arity_two by done.
    destruct (heapify (Compare HeapT) binary_heap IsHeap l) as [h0|e] eqn:Hh0; [|done].
    rewrite !bind_Ok.
    assert (vec_size h0 ≤ max_size) as Hmax0.
    { destruct IsHeap; [simpl in Hh0; by simplify_eq|]. unfold heapify in Hh0.
      rewrite (plain_build_heap _ _ Hb) in Hh0 by done. simplify_eq.
      unfold vec_size in *. by rewrite length_build. }
    rewrite run_heap_ops_arity_two by done.
    pose proof (run_heap_ops_size (Compare HeapT) binary_heap ops h0 Hb Hmax0) as Hrun.
    destruct (run_heap_ops (Compare HeapT) binary_heap ops h0) as [h|e]; [|done].
    rewrite !bind_Ok. by rewrite Hex.
  - by apply heapify_arity_two.
  - apply push_arity_two.
  - by apply pop_arity_two.
  - by apply run_heap_ops_arity_two.
  - by apply Hex.
  - done.
  - intros i. split; [apply parent_arity_two|].
    split; [apply child_arity_two|]. split; [apply child_arity_two|].
    apply heapify_up_arity_two.
  - intros i Hi. by apply heapify_down_arity_two.
Qed.

Lemma kheap_arity_two_matches_binary_witness :
  (h0 ← heapify (Compare max_heap) (k_heap 2) false [30; 1; 50; 20; 40; 60; 100];
   h ← run_heap_ops (Compare max_heap) (k_heap 2) [op_push 7; op_pop; op_pop] h0;
   out ← extraction_order max_heap (k_heap 2) h;
   Ok (h0, h, size h, out))
  = (h0 ← heapify (Compare max_heap) binary_heap false [30; 1; 50; 20; 40; 60; 100];
     h ← run_heap_ops (Compare max_heap) binary_heap [op_push 7; op_pop; op_pop] h0;
     out ← extraction_order max_heap binary_heap h;
     Ok (h0, h, size h, out)) ∧
  heapify (Compare max_heap) (k_heap 2) false [30; 1; 50; 20; 40; 60; 100]
    = heapify (Compare max_heap) binary_heap false [30; 1; 50; 20; 40; 60; 100] ∧
  push (Compare max_heap) (k_heap 2) 7 [30; 1; 50; 20; 40; 60; 100]
    = push (Compare max_heap) binary_heap 7 [30; 1; 50; 20; 40; 60; 100] ∧
  pop (Compare max_heap) (k_heap 2) [30; 1; 50; 20; 40; 60; 100]
    = pop (Compare max_heap) binary_heap [30; 1; 50; 20; 40; 60; 100] ∧
  run_heap_ops (Compare max_heap) (k_heap 2) [op_push 7; op_pop; op_pop]
      [30; 1; 50; 20; 40; 60; 100]
    = run_heap_ops (Compare max_heap) binary_heap [op_push 7; op_pop; op_pop]
        [30; 1; 50; 20; 40; 60; 100] ∧
  extraction_order max_heap (k_heap 2) [30; 1; 50; 20; 40; 60; 100]
    = extraction_order max_heap binary_heap [30; 1; 50; 20; 40; 60; 100] ∧
  (is_heap (Compare max_heap) (k_heap 2) [30; 1; 50; 20; 40; 60; 100]
   ↔ is_heap (Compare max_heap) binary_heap [30; 1; 50; 20; 40; 60; 100]) ∧
  (∀ i : Z, parent (k_heap 2) i = parent binary_heap i ∧
            KHeap.child 2 i 0 = BinaryHeap.left i ∧
            KHeap.child 2 i 1 = BinaryHeap.right i ∧
            heapify_up (Compare max_heap) (k_heap 2) i [30; 1; 50; 20; 40; 60; 100]
              = heapify_up (Compare max_heap) binary_heap i
                  [30; 1; 50; 20; 40; 60; 100]) ∧
  (∀ i : nat, (i ≤ length [30; 1; 50; 20; 40; 60; 100])%nat →
     heapify_down (Compare max_heap) (k_heap 2) (Z.of_nat i)
       [30; 1; 50; 20; 40; 60; 100]
     = heapify_down (Compare max_heap) binary_heap (Z.of_nat i)
         [30; 1; 50; 20; 40; 60; 100]).
Proof.
  apply (kheap_arity_two_matches_binary max_heap false [30; 1; 50; 20; 40; 60; 100] 7
           [op_push 7; op_pop; op_pop]).
  vm_compute. discriminate.
Defined.

(* a heap of arity two, run beside the binary heap *)
Example kheap_arity_two_scenario :
  (h ← heapify (Compare max_heap) (k_heap 2) false [30; 1; 50; 20; 40; 60; 100];
   extraction_order max_heap (k_heap 2) h) = Ok [100; 60; 50; 40; 30; 20; 1].
Proof. by vm_compute. Qed.

(** ** The indexed priority queue: the overridden [swap_nodes] *)

Section pq_swap.
Context {KeyT ValueT : Type} `{Countable ValueT} `{Ordered ValueT}.
Local Abbreviation pq := (@PriorityQueue.state KeyT ValueT _ _).
Implicit Types (q : pq) (i j n : nat) (v w : ValueT).

Lemma pq_swap_nodes_eq q i j a b :
  PriorityQueue.pq_nodes q !! i = Some a → PriorityQueue.pq_nodes q !! j = Some b →
  swap_nodes (Z.of_nat i) (Z.of_nat j) q
  = Ok (PriorityQueue.mk_state (list_swap i j (PriorityQueue.pq_nodes q))
          (PriorityQueue.key_map_ q)
          (umap_swap 0 a b (PriorityQueue.index_map_ q))).
Proof.
  intros Ha Hb. simpl. unfold PriorityQueue.swap_nodes.
  rewrite (vec_subscript_Some _ _ _ Ha), (vec_subscript_Some _ _ _ Hb).
  rewrite !bind_Ok, Heap_swap_nodes_list_swap by (by eapply lookup_lt_Some).
  done.
Qed.

(* the sift never reads the key map *)
Lemma pq_swap_nodes_with_keys (km : gmap ValueT KeyT) (i j : Z) q :
  swap_nodes i j (with_keys km q) = with_keys km <$> swap_nodes i j q.
Proof.
  simpl. unfold PriorityQueue.swap_nodes, with_keys. simpl.
  destruct (vec_subscript _ i) as [a|[]]; try done.
  destruct (vec_subscript _ j) as [b|[]]; try done. simpl.
  destruct (Heap_swap_nodes i j _) as [l|[]]; done.
Qed.
End pq_swap.

(** ** The indexed priority queue: sifting does not consult the keys *)

Lemma noexcept_fmap {A B} (f : A → B) (r : result A) :
  noexcept (f <$> r) = f <$> noexcept r.
Proof. by destruct r as [a|[]]. Qed.

Section pq_keys.
Context {KeyT ValueT : Type} `{Countable ValueT} `{Ordered ValueT}.
Local Abbreviation pq := (@PriorityQueue.state KeyT ValueT _ _).
Variable comp : ValueT → ValueT → bool.
Variable km : gmap ValueT KeyT.
Implicit Types (q : pq) (i : Z).

Lemma nodes_with_keys q : nodes_ (with_keys km q) = nodes_ q.
Proof. done. Qed.

Lemma heapify_up_loop_with_keys C (fuel : nat) i q :
  heapify_up_loop comp C fuel i (with_keys km q)
  = with_keys km <$> heapify_up_loop comp C fuel i q.
Proof.
  revert i q. induction fuel as [|fuel IH]; intros i q; [done|].
  cbn [heapify_up_loop]. rewrite nodes_with_keys.
  destruct (0 <? i); [|done].
  destruct (vec_at (nodes_ q) (parent C i)) as [a|]; [|done].
  destruct (vec_at (nodes_ q) i) as [b|]; [|done]. rewrite !bind_Ok.
  destruct (comp a b); [|done].
  rewrite pq_swap_nodes_with_keys.
  destruct (swap_nodes i (parent C i) q) as [q'|]; [|done].
  apply IH.
Qed.

Lemma heapify_up_with_keys C i q :
  heapify_up comp C i (with_keys km q) = with_keys km <$> heapify_up comp C i q.
Proof.
  unfold heapify_up. by rewrite nodes_with_keys, heapify_up_loop_with_keys, noexcept_fmap.
Qed.

Lemma binary_heapify_down_loop_with_keys (fuel : nat) (len : Z) i q :
  BinaryHeap.heapify_down_loop comp fuel len i (with_keys km q)
  = with_keys km <$> BinaryHeap.heapify_down_loop comp fuel len i q.
Proof.
  revert i q. induction fuel as [|fuel IH]; intros i q; [done|].
  cbn [BinaryHeap.heapify_down_loop]. rewrite !nodes_with_keys.
  change (BinaryHeap.is_leaf (with_keys km q) i) with (BinaryHeap.is_leaf q i).
  destruct (BinaryHeap.is_leaf q i); [done|]. cbv zeta.
  destruct (BinaryHeap.consider comp len (nodes_ q) i _) as [c1|]; [|done].
  rewrite !bind_Ok.
  destruct (BinaryHeap.consider comp len (nodes_ q) c1 _) as [c2|]; [|done].
  rewrite !bind_Ok. destruct (i =? c2); [done|].
  rewrite pq_swap_nodes_with_keys.
  destruct (swap_nodes i c2 q) as [q'|]; [|done].
  apply IH.
Qed.

Lemma kheap_heapify_down_loop_with_keys (K : Z) (fuel : nat) (len : Z) i (ce : Z) q :
  KHeap.heapify_down_loop comp K fuel len i ce (with_keys km q)
  = with_keys km <$> KHeap.heapify_down_loop comp K fuel len i ce q.
Proof.
  revert i ce q. induction fuel as [|fuel IH]; intros i ce q; [done|].
  cbn [KHeap.heapify_down_loop]. rewrite !nodes_with_keys.
  change (KHeap.is_leaf K (with_keys km q) i) with (KHeap.is_leaf K q i).
  destruct (KHeap.is_leaf K q i); [done|].
  destruct (foldM _ _ _) as [c|]; [|done].
  rewrite !bind_Ok. destruct (i =? c); [done|].
  rewrite pq_swap_nodes_with_keys.
  destruct (swap_nodes i c q) as [q'|]; [|done].
  apply IH.
Qed.

Lemma heapify_down_with_keys C i q :
  heapify_down comp C i (with_keys km q) = with_keys km <$> heapify_down comp C i q.
Proof.
  destruct C as [|K]; simpl.
  - unfold BinaryHeap.heapify_down.
    change (size (with_keys km q)) with (size q). rewrite nodes_with_keys.
    by rewrite binary_heapify_down_loop_with_keys, noexcept_fmap.
  - unfold KHeap.heapify_down.
    change (size (with_keys km q)) with (size q). rewrite nodes_with_keys.
    by rewrite kheap_heapify_down_loop_with_keys, noexcept_fmap.
Qed.
End pq_keys.

Lemma update_key_sift {KeyT ValueT : Type} `{Countable ValueT}
    `{Ordered ValueT} (HeapT : heap_type) (C : HeapC) (key : KeyT)
    (element : ValueT) (q : @PriorityQueue.state KeyT ValueT _ _) (i : Z) :
  PriorityQueue.index_map_ q !! element = Some i →
  PriorityQueue.update_key HeapT C key element q
  = with_keys (<[element:=key]> (PriorityQueue.key_map_ q)) <$>
      match HeapT with
      | min_heap => heapify_up (Compare min_heap) C i q
      | max_heap => heapify_down (Compare max_heap) C i q
      end.
Proof.
  intros Hi. unfold PriorityQueue.update_key, umap_subscript, umap_touch.
  rewrite Hi. simpl default.
  destruct HeapT.
  - by rewrite <- heapify_up_with_keys.
  - by rewrite <- heapify_down_with_keys.
Qed.

(** C4.  [update_key] on a value held by the queue sifts in the direction
    fixed by the heap kind, from the slot the index map records for the
    value: up on a min-heap, down on a max-heap.  The sift is the one the
    queue would perform without the new key: the new key only lands in the
    key map, and is compared neither with the old key nor with anything
    else. *)
Theorem update_key_direction {KeyT ValueT : Type} `{Countable ValueT}
    `{Ordered ValueT} (C : HeapC) (key : KeyT)
    (element : ValueT) (q : @PriorityQueue.state KeyT ValueT _ _) (i : Z) :
  PriorityQueue.index_map_ q !! element = Some i →
  PriorityQueue.update_key min_heap C key element q
  = with_keys (<[element:=key]> (PriorityQueue.key_map_ q)) <$>
      heapify_up (Compare min_heap) C i q ∧
  PriorityQueue.update_key max_heap C key element q
  = with_keys (<[element:=key]> (PriorityQueue.key_map_ q)) <$>
      heapify_down (Compare max_heap) C i q.
Proof.
  intros Hi. split.
  - exact (update_key_sift min_heap C key element q i Hi).
  - exact (update_key_sift max_heap C key element q i Hi).
Qed.

Lemma update_key_direction_witness :
  PriorityQueue.update_key min_heap binary_heap 99 7 example_queue
  = with_keys (<[7:=99]> (PriorityQueue.key_map_ example_queue)) <$>
      heapify_up (Compare min_heap) binary_heap 1 example_queue ∧
  PriorityQueue.update_key max_heap binary_heap 99 7 example_queue
  = with_keys (<[7:=99]> (PriorityQueue.key_map_ example_queue)) <$>
      heapify_down (Compare max_heap) binary_heap 1 example_queue.
Proof.
  apply (update_key_direction binary_heap 99 7 example_queue 1).
  reflexivity.
Defined.

(** ** The indexed priority queue: lookups of an absent value *)

Section pq_absent.
Context {KeyT ValueT : Type} `{Countable ValueT} `{Ordered ValueT}.
Local Abbreviation pq := (@PriorityQueue.state KeyT ValueT _ _).
Implicit Types (q : pq) (v w a b : ValueT) (m : gmap ValueT Z).

Lemma umap_touch_is_Some (d : Z) a m v :
  is_Some (m !! v) → is_Some (umap_touch d a m !! v).
Proof.
  intros Hv. unfold umap_touch. destruct (m !! a); [done|].
  rewrite lookup_insert. by case_decide.
Qed.

Lemma umap_swap_is_Some (d : Z) a b m v :
  is_Some (m !! v) → is_Some (umap_swap d a b m !! v).
Proof.
  intros Hv. unfold umap_swap. rewrite !lookup_insert.
  repeat case_decide; try done. by do 2 apply umap_touch_is_Some.
Qed.

Lemma heapify_down_absent comp C (km : gmap ValueT KeyT) v q :
  arity_in_range C → vec_size (PriorityQueue.pq_nodes q) ≤ max_size →
  PriorityQueue.key_map_ q = km → is_Some (PriorityQueue.index_map_ q !! v) →
  ∃ q', heapify_down comp C 0 q = Ok q' ∧
        (PriorityQueue.key_map_ q' = km ∧ is_Some (PriorityQueue.index_map_ q' !! v)) ∧
        nodes_ q' = sift_down comp (arity C) (length (nodes_ q)) 0 (nodes_ q).
Proof.
  intros Hin Hmax Hkm Hv.
  apply (heapify_down_refines comp C Hin
    (λ s, PriorityQueue.key_map_ s = km ∧ is_Some (PriorityQueue.index_map_ s !! v))
    ) with (i := 0%nat); [|done|lia|done].
  intros s i j [Hkm' Hv'] Hi Hj _.
  destruct (lookup_lt_is_Some_2 _ _ Hi) as [a Ha].
  destruct (lookup_lt_is_Some_2 _ _ Hj) as [b Hb].
  eexists. split; [by apply pq_swap_nodes_eq|]. simpl.
  split; [|done]. split; [done|]. by apply umap_swap_is_Some.
Qed.
Lemma umap_touch_lookup_ne (d : Z) a m v :
  v ≠ a → umap_touch d a m !! v = m !! v.
Proof.
  intros Hne. unfold umap_touch. destruct (m !! a); [done|].
  by rewrite lookup_insert_ne.
Qed.

Lemma umap_swap_lookup_ne (d : Z) a b m v :
  v ≠ a → v ≠ b → umap_swap d a b m !! v = m !! v.
Proof.
  intros Ha Hb. unfold umap_swap.
  rewrite !lookup_insert_ne by done. by rewrite !umap_touch_lookup_ne.
Qed.

Lemma heapify_down_fresh comp C (km : gmap ValueT KeyT) v (z : Z) q :
  arity_in_range C → vec_size (PriorityQueue.pq_nodes q) ≤ max_size →
  PriorityQueue.key_map_ q = km → PriorityQueue.index_map_ q !! v = Some z →
  v ∉ PriorityQueue.pq_nodes q →
  ∃ q', heapify_down comp C 0 q = Ok q' ∧
        PriorityQueue.key_map_ q' = km ∧
        PriorityQueue.index_map_ q' !! v = Some z.
Proof.
  intros Hin Hmax Hkm Hv Hnot.
  destruct (heapify_down_refines comp C Hin
    (λ s, PriorityQueue.key_map_ s = km ∧ PriorityQueue.index_map_ s !! v = Some z ∧
          v ∉ PriorityQueue.pq_nodes s)) with (i := 0%nat) (s := q)
    as (q' & Hq' & (Hkm' & Hv' & _) & _); [|done|lia|done|by exists q'].
  intros s i j (Hkm' & Hv' & Hnot') Hi Hj _.
  destruct (lookup_lt_is_Some_2 _ _ Hi) as [a Ha].
  destruct (lookup_lt_is_Some_2 _ _ Hj) as [b Hb].
  eexists. split; [by apply pq_swap_nodes_eq|]. simpl.
  split; [|done]. split; [done|]. split.
  - rewrite umap_swap_lookup_ne; [done|..]; intros ->; apply Hnot';
      by eapply list_elem_of_lookup_2.
  - by rewrite list_swap_perm.
Qed.
End pq_absent.

(** C7 (amended).  For a value that neither map holds, [key_at] fails
    with the range error of [std::unordered_map::at], while [update_key]
    returns normally.  The subscript operators insert the value into the
    index map at slot 0 and into the key map with the new key, and what
    runs is the sift of the heap kind started at slot 0 on the queue with
    these two entries.  The sift completes and the sequence keeps its
    elements and its size; afterwards the key map is the old one with the
    new entry, [contains] answers true for the value and [key_at] returns
    the new key.  On a min-heap nothing else changes; and when the value
    is in no slot of the sequence, its index entry is still 0. *)
Theorem update_key_absent {KeyT ValueT : Type} `{Countable ValueT}
    `{Ordered ValueT} (HeapT : heap_type) (C : HeapC) (key : KeyT)
    (element : ValueT) (q : @PriorityQueue.state KeyT ValueT _ _) :
  arity_in_range C → vec_size (PriorityQueue.pq_nodes q) ≤ max_size →
  PriorityQueue.index_map_ q !! element = None →
  PriorityQueue.key_map_ q !! element = None →
  PriorityQueue.key_at element q = Err out_of_range ∧
  PriorityQueue.update_key HeapT C key element q
  = match HeapT with
    | min_heap => heapify_up (Compare min_heap) C 0
    | max_heap => heapify_down (Compare max_heap) C 0
    end (PriorityQueue.mk_state (PriorityQueue.pq_nodes q)
           (<[element:=key]> (PriorityQueue.key_map_ q))
           (<[element:=0]> (PriorityQueue.index_map_ q))) ∧
  ∃ q', PriorityQueue.update_key HeapT C key element q = Ok q' ∧
        PriorityQueue.contains element q' = true ∧
        PriorityQueue.key_at element q' = Ok key ∧
        PriorityQueue.pq_nodes q' ≡ₚ PriorityQueue.pq_nodes q ∧
        PriorityQueue.size q' = PriorityQueue.size q ∧
        PriorityQueue.key_map_ q' = <[element:=key]> (PriorityQueue.key_map_ q) ∧
        (HeapT = min_heap →
         q' = PriorityQueue.mk_state (PriorityQueue.pq_nodes q)
                (<[element:=key]> (PriorityQueue.key_map_ q))
                (<[element:=0]> (PriorityQueue.index_map_ q))) ∧
        (element ∉ PriorityQueue.pq_nodes q →
         PriorityQueue.index_map_ q' !! element = Some 0).
Proof.
  intros Hin Hmax Hidx Hkey. split.
  { unfold PriorityQueue.key_at, umap_at. by rewrite Hkey. }
  unfold PriorityQueue.update_key, umap_subscript, umap_touch. rewrite Hidx.
  simpl default. cbv zeta. simpl PriorityQueue.pq_nodes.
  simpl PriorityQueue.key_map_. simpl PriorityQueue.index_map_.
  set (q1 := PriorityQueue.mk_state _ _ _).
  split; [by destruct HeapT|].
  assert (∀ q', PriorityQueue.key_map_ q' = <[element:=key]> (PriorityQueue.key_map_ q) →
    is_Some (PriorityQueue.index_map_ q' !! element) →
    PriorityQueue.contains element q' = true ∧ PriorityQueue.key_at element q' = Ok key)
    as Hlook.
  { intros q' Hkm Hv. split.
    - unfold PriorityQueue.contains. by apply bool_decide_eq_true.
    - unfold PriorityQueue.key_at, umap_at. by rewrite Hkm, lookup_insert_eq. }
  destruct HeapT.
  - exists q1. rewrite heapify_up_0. split; [done|].
    destruct (Hlook q1) as [? ?]; [done|by subst q1; simpl; rewrite lookup_insert_eq|].
    repeat split; try done. intros _. subst q1. simpl. by rewrite lookup_insert_eq.
  - destruct (heapify_down_absent (Compare max_heap) C
      (<[element:=key]> (PriorityQueue.key_map_ q)) element q1)
      as (q' & Hq' & [Hkm Hv] & Hnodes);
      [done..|by subst q1; simpl; rewrite lookup_insert_eq|].
    exists q'. split; [done|]. destruct (Hlook q') as [? ?]; [done..|].
    simpl in Hnodes. do 2 (split; [done|]). split; [|split; [|split; [done|split; [done|]]]].
    + rewrite Hnodes. apply sift_down_perm.
    + unfold PriorityQueue.size, size, vec_size. simpl nodes_.
      by rewrite Hnodes, length_sift_down.
    + intros Hnot.
      destruct (heapify_down_fresh (Compare max_heap) C
        (<[element:=key]> (PriorityQueue.key_map_ q)) element 0 q1)
        as (q'' & Hq'' & _ & Hv''); [done..|by subst q1; simpl; rewrite lookup_insert_eq|done|].
      rewrite Hq' in Hq''. by simplify_eq.
Qed.

Lemma update_key_absent_witness :
  PriorityQueue.key_at 9 example_queue = Err out_of_range ∧
  PriorityQueue.update_key max_heap (k_heap 4) 42 9 example_queue
  = heapify_down (Compare max_heap) (k_heap 4) 0
      (PriorityQueue.mk_state (PriorityQueue.pq_nodes example_queue)
         (<[9:=42]> (PriorityQueue.key_map_ example_queue))
         (<[9:=0]> (PriorityQueue.index_map_ example_queue))) ∧
  ∃ q', PriorityQueue.update_key max_heap (k_heap 4) 42 9 example_queue = Ok q' ∧
        PriorityQueue.contains 9 q' = true ∧
        PriorityQueue.key_at 9 q' = Ok 42 ∧
        PriorityQueue.pq_nodes q' ≡ₚ PriorityQueue.pq_nodes example_queue ∧
        PriorityQueue.size q' = PriorityQueue.size example_queue ∧
        PriorityQueue.key_map_ q' = <[9:=42]> (PriorityQueue.key_map_ example_queue) ∧
        (max_heap = min_heap →
         q' = PriorityQueue.mk_state (PriorityQueue.pq_nodes example_queue)
                (<[9:=42]> (PriorityQueue.key_map_ example_queue))
                (<[9:=0]> (PriorityQueue.index_map_ example_queue))) ∧
        (9 ∉ PriorityQueue.pq_nodes example_queue →
         PriorityQueue.index_map_ q' !! 9 = Some 0).
Proof.
  apply (update_key_absent max_heap (k_heap 4) 42 9 example_queue).
  - simpl. lia.
  - vm_compute. discriminate.
  - reflexivity.
  - reflexivity.
Defined.

(** C7, as stated, fails for [update_key]: on a value the queue does not
    hold it returns normally, and the value has become a member with the
    given key. *)
Lemma update_key_absent_returns :
  ∃ q q' : @PriorityQueue.state Z Z _ _,
    make_min_priority_queue false [1] [5] = Ok q ∧
    PriorityQueue.contains 9 q = false ∧
    PriorityQueue.update_key min_heap binary_heap 7 9 q = Ok q' ∧
    PriorityQueue.contains 9 q' = true ∧
    PriorityQueue.key_at 9 q' = Ok 7.
Proof.
  eexists _, _. split; [by vm_compute|]. split; [by vm_compute|].
  split; [by vm_compute|]. by vm_compute.
Qed.

(** ** The indexed priority queue: the maps follow every exchange *)

Section pq_consistency.
Context {KeyT ValueT : Type} `{Countable ValueT} `{Ordered ValueT}.
Local Abbreviation pq := (@PriorityQueue.state KeyT ValueT _ _).
Implicit Types (q : pq) (i j n m : nat) (v w a b : ValueT) (l : list ValueT).

Lemma consistent_index q n v :
  maps_consistent q → PriorityQueue.pq_nodes q !! n = Some v →
  PriorityQueue.index_map_ q !! v = Some (Z.of_nat n).
Proof. intros [Hidx _] Hn. apply Hidx. eauto. Qed.

Lemma consistent_slot q v (z : Z) :
  maps_consistent q → PriorityQueue.index_map_ q !! v = Some z →
  ∃ n, z = Z.of_nat n ∧ PriorityQueue.pq_nodes q !! n = Some v.
Proof. intros [Hidx _] Hz. by apply Hidx. Qed.

Lemma consistent_inj q n m v :
  maps_consistent q →
  PriorityQueue.pq_nodes q !! n = Some v → PriorityQueue.pq_nodes q !! m = Some v →
  n = m.
Proof.
  intros Hc Hn Hm. apply (consistent_index q _ _ Hc) in Hn, Hm.
  rewrite Hn in Hm. injection Hm. lia.
Qed.

Lemma consistent_NoDup q : maps_consistent q → NoDup (PriorityQueue.pq_nodes q).
Proof. intros Hc. apply NoDup_alt. intros n m v. by apply consistent_inj. Qed.

Lemma consistent_contains q v :
  maps_consistent q →
  PriorityQueue.contains v q = true ↔ v ∈ PriorityQueue.pq_nodes q.
Proof.
  intros Hc. unfold PriorityQueue.contains. rewrite bool_decide_eq_true. split.
  - intros [z Hz]. destruct (consistent_slot q v z Hc Hz) as (n & _ & Hn).
    by eapply list_elem_of_lookup_2.
  - intros [n Hn]%list_elem_of_lookup. exists (Z.of_nat n). by apply consistent_index.
Qed.

Lemma umap_swap_present (m : gmap ValueT Z) a b (x y : Z) :
  m !! a = Some x → m !! b = Some y →
  umap_swap 0 a b m = <[b:=x]> (<[a:=y]> m).
Proof.
  intros Ha Hb. unfold umap_swap, umap_touch, umap_subscript.
  by rewrite Ha, Hb, Ha, Hb.
Qed.

Lemma pq_swap_consistent q i j :
  maps_consistent q →
  (i < length (PriorityQueue.pq_nodes q))%nat →
  (j < length (PriorityQueue.pq_nodes q))%nat → i ≠ j →
  ∃ q', swap_nodes (Z.of_nat i) (Z.of_nat j) q = Ok q' ∧
        maps_consistent q' ∧
        PriorityQueue.key_map_ q' = PriorityQueue.key_map_ q ∧
        PriorityQueue.pq_nodes q' = list_swap i j (PriorityQueue.pq_nodes q).
Proof.
  intros Hc Hi Hj Hij.
  destruct (lookup_lt_is_Some_2 _ _ Hi) as [a Ha].
  destruct (lookup_lt_is_Some_2 _ _ Hj) as [b Hb].
  assert (a ≠ b) as Hab.
  { intros ->. by apply Hij, (consistent_inj q i j b). }
  eexists. split; [by apply pq_swap_nodes_eq|]. split; [|done].
  rewrite (umap_swap_present _ a b (Z.of_nat i) (Z.of_nat j))
    by by apply consistent_index.
  split; simpl.
  - intros v z. split.
    + rewrite !lookup_insert. repeat case_decide; simplify_eq.
      * intros [= <-]. exists i. split; [done|]. by eapply list_swap_l.
      * intros [= <-]. exists j. split; [done|]. by eapply list_swap_r.
      * intros Hz. destruct (consistent_slot q v z Hc Hz) as (n & -> & Hn).
        exists n. split; [done|]. rewrite list_swap_other; [done|..];
          intros ->; congruence.
    + intros (n & -> & Hn).
      destruct (decide (n = j)) as [->|Hnj]; [|destruct (decide (n = i)) as [->|Hni]].
      * rewrite (list_swap_r i j _ a b) in Hn by done. injection Hn as <-.
        rewrite lookup_insert_ne by done. by rewrite lookup_insert_eq.
      * rewrite (list_swap_l i j _ a b) in Hn by done. injection Hn as <-.
        by rewrite lookup_insert_eq.
      * rewrite list_swap_other in Hn by done.
        assert (v ≠ a) by (intros ->; by apply Hni, (consistent_inj q n i a)).
        assert (v ≠ b) by (intros ->; by apply Hnj, (consistent_inj q n j b)).
        rewrite !lookup_insert_ne by done. by apply consistent_index.
  - intros v. rewrite list_swap_perm. apply Hc.
Qed.
End pq_consistency.

Section pq_sift.
Context {KeyT ValueT : Type} `{Countable ValueT} `{Ordered ValueT}.
Local Abbreviation pq := (@PriorityQueue.state KeyT ValueT _ _).
Variable comp : ValueT → ValueT → bool.
Variable C : HeapC.
Hypothesis C_ok : arity_in_range C.
Implicit Types (q : pq) (i j n m : nat) (v w a b : ValueT) (l : list ValueT).

(* the invariant every exchange of a sift preserves *)
Let kept (km : gmap ValueT KeyT) (q : pq) : Prop :=
  maps_consistent q ∧ PriorityQueue.key_map_ q = km.

Lemma kept_swap km q i j :
  kept km q → (i < length (nodes_ q))%nat → (j < length (nodes_ q))%nat → i ≠ j →
  ∃ q', swap_nodes (Z.of_nat i) (Z.of_nat j) q = Ok q' ∧ kept km q' ∧
        nodes_ q' = list_swap i j (nodes_ q).
Proof.
  intros [Hc <-] Hi Hj Hij.
  destruct (pq_swap_consistent q i j) as (q' & ? & ? & ? & ?); [done..|].
  by exists q'.
Qed.

Lemma pq_heapify_down q i :
  maps_consistent q → (i ≤ length (PriorityQueue.pq_nodes q))%nat →
  vec_size (PriorityQueue.pq_nodes q) ≤ max_size →
  ∃ q', heapify_down comp C (Z.of_nat i) q = Ok q' ∧
        maps_consistent q' ∧
        PriorityQueue.key_map_ q' = PriorityQueue.key_map_ q ∧
        PriorityQueue.pq_nodes q'
        = sift_down comp (arity C) (length (PriorityQueue.pq_nodes q)) i
            (PriorityQueue.pq_nodes q).
Proof.
  intros Hc Hi Hmax.
  destruct (heapify_down_refines comp C C_ok (kept (PriorityQueue.key_map_ q))
    (kept_swap _) i q) as (q' & ? & [? ?] & ?); [done..|].
  by exists q'.
Qed.

Lemma pq_build_heap q :
  maps_consistent q → vec_size (PriorityQueue.pq_nodes q) ≤ max_size →
  ∃ q', build_heap comp C q = Ok q' ∧
        maps_consistent q' ∧
        PriorityQueue.key_map_ q' = PriorityQueue.key_map_ q ∧
        PriorityQueue.pq_nodes q' = build comp (arity C) (PriorityQueue.pq_nodes q).
Proof.
  intros Hc Hmax.
  destruct (build_heap_refines comp C C_ok (kept (PriorityQueue.key_map_ q))
    (kept_swap _) q) as (q' & ? & [? ?] & ?); [done..|].
  by exists q'.
Qed.

Lemma pq_heapify_up q i :
  maps_consistent q → (i < length (PriorityQueue.pq_nodes q))%nat →
  vec_size (PriorityQueue.pq_nodes q) ≤ max_size →
  ∃ q', heapify_up comp C (Z.of_nat i) q = Ok q' ∧
        maps_consistent q' ∧
        PriorityQueue.key_map_ q' = PriorityQueue.key_map_ q ∧
        PriorityQueue.pq_nodes q'
        = sift_up comp (arity C) (S (length (PriorityQueue.pq_nodes q))) i
            (PriorityQueue.pq_nodes q).
Proof.
  intros Hc Hi Hmax.
  destruct (heapify_up_refines comp C C_ok (λ _, kept (PriorityQueue.key_map_ q)))
    with (i := i) (s := q) as (q' & ? & [? ?] & ?); [|done..|by exists q'].
  intros s n a b Hk Hn Ha Hb _. apply kept_swap; [done|..].
  - by eapply lookup_lt_Some.
  - by eapply lookup_lt_Some.
  - pose proof (parent_idx_lt' (arity C) (arity_pos C C_ok) n Hn). lia.
Qed.
End pq_sift.

(** ** The indexed priority queue: push, pop and update_key *)

Section pq_operations.
Context {KeyT ValueT : Type} `{Countable ValueT} `{Ordered ValueT}.
Local Abbreviation pq := (@PriorityQueue.state KeyT ValueT _ _).
Variable HeapT : heap_type.
Variable C : HeapC.
Hypothesis C_ok : arity_in_range C.
Implicit Types (q : pq) (i j n m : nat) (v w a b x : ValueT) (l : list ValueT)
  (key : KeyT).

Lemma consistent_key_insert q v key :
  maps_consistent q → v ∈ PriorityQueue.pq_nodes q →
  maps_consistent (with_keys (<[v:=key]> (PriorityQueue.key_map_ q)) q).
Proof.
  intros [Hidx Hkey] Hv. split; [done|]. intros w. simpl.
  rewrite lookup_insert. case_decide as Hw; [|apply Hkey].
  subst w. split; [done|]. intros _. by eexists.
Qed.

Lemma consistent_push_state q v key :
  maps_consistent q → v ∉ PriorityQueue.pq_nodes q →
  maps_consistent
    (PriorityQueue.mk_state (PriorityQueue.pq_nodes q ++ [v])
       (<[v:=key]> (PriorityQueue.key_map_ q))
       (<[v:=vec_size (PriorityQueue.pq_nodes q)]> (PriorityQueue.index_map_ q))).
Proof.
  intros Hc Hv. pose proof Hc as [Hidx Hkey]. split; simpl.
  - intros w z. rewrite lookup_insert. case_decide as Hw.
    + subst w. split.
      * intros [= <-]. exists (length (PriorityQueue.pq_nodes q)).
        split; [done|]. by rewrite lookup_app_r, Nat.sub_diag by lia.
      * intros (n & -> & Hn). f_equal. unfold vec_size. f_equal.
        apply lookup_app_Some in Hn as [Hn|[Hlen Hn]].
        -- exfalso. apply Hv. by eapply list_elem_of_lookup_2.
        -- apply lookup_lt_Some in Hn. simpl in Hn. lia.
    + rewrite Hidx. split; intros (n & -> & Hn); exists n; (split; [done|]).
      * by apply lookup_app_l_Some.
      * apply lookup_app_Some in Hn as [Hn|[Hlen Hn]]; [done|].
        apply list_lookup_singleton_Some in Hn as [_ ->]. done.
  - intros w. rewrite lookup_insert, elem_of_app, list_elem_of_singleton.
    case_decide as Hw; [subst w|].
    + split; [by right|]. intros _. by eexists.
    + rewrite Hkey. split; [by left|]. by intros [?|?].
Qed.

Lemma pq_push_consistent q v key :
  maps_consistent q → PriorityQueue.contains v q = false →
  vec_size (PriorityQueue.pq_nodes q) < max_size →
  ∃ q', PriorityQueue.push HeapT C key v q = Ok q' ∧
        maps_consistent q' ∧
        vec_size (PriorityQueue.pq_nodes q') ≤ max_size ∧
        PriorityQueue.key_map_ q' = <[v:=key]> (PriorityQueue.key_map_ q) ∧
        PriorityQueue.pq_nodes q' ≡ₚ v :: PriorityQueue.pq_nodes q.
Proof.
  intros Hc Hv Hmax.
  assert (v ∉ PriorityQueue.pq_nodes q) as Hnotin.
  { rewrite <- (consistent_contains q v Hc). by rewrite Hv. }
  unfold PriorityQueue.push, push, vec_emplace_back, PriorityQueue.size, size.
  simpl nodes_. simpl set_nodes_. simpl PriorityQueue.pq_nodes.
  simpl PriorityQueue.key_map_. simpl PriorityQueue.index_map_.
  rewrite (proj2 (Z.leb_gt _ _)) by done. rewrite bind_Ok.
  set (q1 := PriorityQueue.mk_state _ _ _).
  assert (maps_consistent q1) as Hc1 by by apply consistent_push_state.
  destruct (pq_heapify_up (Compare HeapT) C C_ok q1 (length (PriorityQueue.pq_nodes q)))
    as (q' & Hq' & Hc' & Hkm & Hnodes); [done|..].
  { subst q1. simpl. rewrite length_app. simpl. lia. }
  { subst q1. unfold vec_size in *. simpl. rewrite length_app. simpl. lia. }
  exists q'. split; [done|]. split; [done|]. split; [|split; [done|]].
  - unfold vec_size in *. rewrite Hnodes, length_sift_up. subst q1. simpl.
    rewrite length_app. simpl. lia.
  - rewrite Hnodes, sift_up_perm. subst q1. simpl. by rewrite Permutation_app_comm.
Qed.

Lemma pq_push_full q v key :
  max_size ≤ vec_size (PriorityQueue.pq_nodes q) →
  PriorityQueue.push HeapT C key v q = Err length_error.
Proof.
  intros Hmax. unfold PriorityQueue.push, push, vec_emplace_back. simpl nodes_.
  simpl PriorityQueue.pq_nodes. by rewrite (proj2 (Z.leb_le _ _)) by done.
Qed.

Lemma pq_update_key_consistent q v key :
  maps_consistent q → PriorityQueue.contains v q = true →
  vec_size (PriorityQueue.pq_nodes q) ≤ max_size →
  ∃ q', PriorityQueue.update_key HeapT C key v q = Ok q' ∧
        maps_consistent q' ∧
        vec_size (PriorityQueue.pq_nodes q') ≤ max_size ∧
        PriorityQueue.key_map_ q' = <[v:=key]> (PriorityQueue.key_map_ q) ∧
        PriorityQueue.pq_nodes q' ≡ₚ PriorityQueue.pq_nodes q.
Proof.
  intros Hc Hv Hmax. apply (consistent_contains q v Hc) in Hv.
  pose proof Hv as [n Hn]%list_elem_of_lookup.
  pose proof (consistent_index q n v Hc Hn) as Hidx.
  rewrite (update_key_sift HeapT C key v q (Z.of_nat n) Hidx).
  pose proof (consistent_key_insert q v key Hc Hv) as Hc1.
  pose proof (lookup_lt_Some _ _ _ Hn) as Hlt.
  destruct HeapT.
  - destruct (pq_heapify_up (Compare min_heap) C C_ok q n)
      as (q' & -> & Hc' & Hkm & Hnodes); [done..|].
    exists (with_keys (<[v:=key]> (PriorityQueue.key_map_ q)) q').
    split; [done|]. split; [|split; [|split; [done|]]]; simpl.
    + split; [apply Hc'|]. intros w. simpl. rewrite Hnodes, sift_up_perm.
      apply Hc1.
    + unfold vec_size in *. by rewrite Hnodes, length_sift_up.
    + by rewrite Hnodes, sift_up_perm.
  - destruct (pq_heapify_down (Compare max_heap) C C_ok q n)
      as (q' & -> & Hc' & Hkm & Hnodes); [done|lia|done|].
    exists (with_keys (<[v:=key]> (PriorityQueue.key_map_ q)) q').
    split; [done|]. split; [|split; [|split; [done|]]]; simpl.
    + split; [apply Hc'|]. intros w. simpl. rewrite Hnodes, sift_down_perm.
      apply Hc1.
    + unfold vec_size in *. by rewrite Hnodes, length_sift_down.
    + by rewrite Hnodes, sift_down_perm.
Qed.

Lemma lookup_pop_back_front l b n :
  (1 < length l)%nat → last l = Some b →
  vec_pop_back (<[0%nat:=b]> l) !! n
  = if decide (n = 0%nat) then Some b
    else if decide (n < length l - 1)%nat then l !! n else None.
Proof.
  intros Hlen Hlast. unfold vec_pop_back. rewrite length_insert.
  destruct (decide (n < length l - 1)%nat) as [Hn|Hn].
  - rewrite lookup_take_lt by lia. case_decide as Hzero.
    + subst n. rewrite list_lookup_insert_eq by lia. done.
    + by rewrite list_lookup_insert_ne by done.
  - rewrite lookup_take_ge by lia. case_decide; [lia|done].
Qed.

Lemma consistent_pop_state q x b :
  maps_consistent q → (1 < length (PriorityQueue.pq_nodes q))%nat →
  PriorityQueue.pq_nodes q !! 0%nat = Some x → last (PriorityQueue.pq_nodes q) = Some b →
  maps_consistent
    (PriorityQueue.mk_state (vec_pop_back (<[0%nat:=b]> (PriorityQueue.pq_nodes q)))
       (delete x (PriorityQueue.key_map_ q))
       (<[b:=0]> (delete x (PriorityQueue.index_map_ q)))).
Proof.
  intros Hc Hlen Hx Hb. pose proof Hc as [Hidx Hkey].
  set (l := PriorityQueue.pq_nodes q) in *.
  assert (l !! (length l - 1)%nat = Some b) as Hb'.
  { rewrite last_lookup in Hb. by replace (length l - 1)%nat with (Nat.pred (length l)) by lia. }
  assert (x ≠ b) as Hxb.
  { intros ->. pose proof (consistent_inj q _ _ _ Hc Hx Hb'). lia. }
  assert (∀ w, w ∈ vec_pop_back (<[0%nat:=b]> l) ↔ w ∈ l ∧ w ≠ x) as Hmem.
  { intros w. rewrite !list_elem_of_lookup. split.
    - intros [n Hn]. rewrite lookup_pop_back_front in Hn by done.
      repeat case_decide; simplify_eq.
      + split; [by eexists|done].
      + split; [by eexists|]. intros ->.
        pose proof (consistent_inj q _ _ _ Hc Hx Hn). lia.
    - intros [[n Hn] Hw]. destruct (decide (w = b)) as [->|Hwb].
      + exists 0%nat. by rewrite lookup_pop_back_front.
      + exists n. rewrite lookup_pop_back_front by done.
        assert (n ≠ 0%nat) by (intros ->; congruence).
        assert (n ≠ length l - 1)%nat by (intros ->; congruence).
        pose proof (lookup_lt_Some _ _ _ Hn).
        rewrite decide_False, decide_True by lia. done. }
  split; simpl.
  - intros w z. rewrite lookup_insert. case_decide as Hw.
    + subst w. split.
      * intros [= <-]. exists 0%nat. split; [done|]. by rewrite lookup_pop_back_front.
      * intros (n & -> & Hn). rewrite lookup_pop_back_front in Hn by done.
        repeat case_decide; simplify_eq; [done|].
        pose proof (consistent_inj q _ _ _ Hc Hb' Hn). lia.
    + rewrite lookup_delete. case_decide as Hwx.
      * subst w. split; [done|]. intros (n & -> & Hn).
        exfalso. assert (x ∈ vec_pop_back (<[0%nat:=b]> l)) as Hin
          by by eapply list_elem_of_lookup_2.
        apply Hmem in Hin. by destruct Hin.
      * rewrite Hidx. split; intros (n & -> & Hn); exists n; (split; [done|]).
        -- rewrite lookup_pop_back_front by done.
           assert (n ≠ 0%nat) by (intros ->; fold l in Hn; congruence).
           assert (n ≠ length l - 1)%nat by (intros ->; fold l in Hn; congruence).
           pose proof (lookup_lt_Some _ _ _ Hn) as Hlt. fold l in Hlt.
           rewrite decide_False, decide_True by lia. done.
        -- rewrite lookup_pop_back_front in Hn by done.
           repeat case_decide; simplify_eq. done.
  - intros w. rewrite Hmem, lookup_delete. case_decide as Hwx.
    + subst w. split; [by intros []|]. by intros [_ ?].
    + rewrite Hkey. fold l. split; [done|]. by intros [? _].
Qed.

Lemma pq_pop_empty q :
  PriorityQueue.pq_nodes q = [] →
  PriorityQueue.pop HeapT C q = Err assertion_failure.
Proof. intros Hq. unfold PriorityQueue.pop, PriorityQueue.size, size. simpl. by rewrite Hq. Qed.

Lemma pq_pop_consistent q x l :
  maps_consistent q → PriorityQueue.pq_nodes q = x :: l →
  vec_size (PriorityQueue.pq_nodes q) ≤ max_size →
  ∃ q', PriorityQueue.pop HeapT C q = Ok q' ∧
        maps_consistent q' ∧
        vec_size (PriorityQueue.pq_nodes q') ≤ max_size ∧
        PriorityQueue.key_map_ q' = delete x (PriorityQueue.key_map_ q) ∧
        PriorityQueue.pq_nodes q' ≡ₚ l.
Proof.
  intros Hc Hq Hmax. pose proof Hc as [Hidx Hkey].
  unfold PriorityQueue.pop, PriorityQueue.size, size, vec_size in *. simpl nodes_.
  rewrite Hq in *. simpl length in *.
  rewrite (proj2 (Z.ltb_lt 0 _)) by lia. simpl assert. rewrite bind_Ok.
  change (vec_at (x :: l) 0) with (Ok x). rewrite bind_Ok.
  destruct (last (x :: l)) as [b|] eqn:Hlast; [|by apply last_None in Hlast].
  rewrite bind_Ok. cbv zeta. simpl PriorityQueue.pq_nodes.
  simpl PriorityQueue.key_map_. simpl PriorityQueue.index_map_.
  destruct (decide (l = [])) as [->|Hne].
  { simpl. eexists. split; [done|]. simpl. split; [|by split; [lia|]].
    split; simpl.
    - intros w z. rewrite lookup_delete. split; [|by intros (n & _ & ?)].
      case_decide as Hw; [done|]. intros Hz.
      destruct (consistent_slot q w z Hc Hz) as (n & _ & Hn).
      rewrite Hq in Hn. apply list_lookup_singleton_Some in Hn as [_ ->]. done.
    - intros w. rewrite lookup_delete, elem_of_nil. split; [|done].
      case_decide as Hw; [by intros []|]. rewrite Hkey.
      by intros ?%list_elem_of_singleton. }
  assert (1 < length (x :: l))%nat as Hlen.
  { destruct l; [done|]. simpl. lia. }
  pose proof (consistent_pop_state q x b Hc) as Hc1. rewrite Hq in Hc1.
  specialize (Hc1 Hlen eq_refl Hlast).
  pose proof (lookup_pop_back_front (x :: l) b 0 Hlen Hlast) as Hfront.
  rewrite decide_True in Hfront by done.
  assert (length (vec_pop_back (<[0%nat:=b]> (x :: l))) = length l) as Hlen2.
  { unfold vec_pop_back. rewrite length_take, length_insert. simpl. lia. }
  rewrite Hlen2. destruct l as [|y l]; [done|]. simpl length.
  rewrite (proj2 (Z.ltb_lt 0 _)) by lia.
  change (<[0%nat:=b]> (x :: y :: l)) with (b :: y :: l) in *.
  rewrite head_lookup, Hfront.
  set (q1 := PriorityQueue.mk_state _ _ _) in Hc1.
  destruct (pq_heapify_down (Compare HeapT) C C_ok q1 0)
    as (q' & Hq' & Hc' & Hkm & Hnodes); [done|lia|..].
  { subst q1. unfold vec_size. simpl PriorityQueue.pq_nodes. rewrite Hlen2.
    simpl in *. lia. }
  exists q'. split; [exact Hq'|]. split; [done|]. split; [|split; [done|]].
  - rewrite Hnodes, length_sift_down. subst q1. simpl PriorityQueue.pq_nodes.
    rewrite Hlen2. simpl in *. lia.
  - rewrite Hnodes, sift_down_perm. subst q1. simpl PriorityQueue.pq_nodes.
    unfold vec_pop_back.
    exact (last_cons_take x (y :: l) b Hlast).
Qed.
End pq_operations.

(** ** The indexed priority queue: construction *)

Lemma lookup_zip {A B} (a : list A) (b : list B) (i : nat) (x : A) (y : B) :
  zip a b !! i = Some (x, y) ↔ a !! i = Some x ∧ b !! i = Some y.
Proof.
  revert b i. induction a as [|x' a IH]; intros [|y' b] [|i]; simpl;
    try (split; [done|by intros [? ?]]).
  - split; [by intros [= -> ->]|by intros [[= ->] [= ->]]].
  - apply IH.
Qed.

Lemma zip_fst {A B} (a : list A) (b : list B) :
  length a = length b → (zip a b).*1 = a.
Proof.
  revert b. induction a as [|x a IH]; intros [|y b] Hlen; simpl in *; try done.
  f_equal. apply IH. lia.
Qed.

Lemma zip_snd {A B} (a : list A) (b : list B) :
  length a = length b → (zip a b).*2 = b.
Proof.
  revert b. induction a as [|x a IH]; intros [|y b] Hlen; simpl in *; try done.
  f_equal. apply IH. lia.
Qed.

Lemma length_range (n start : Z) : length (range n start) = Z.to_nat n.
Proof. unfold range. by rewrite length_fmap, length_seqZ. Qed.

Lemma lookup_range (n : Z) (i : nat) :
  Z.of_nat i < n → n ≤ 2 ^ 64 → range n 0 !! i = Some (Z.of_nat i).
Proof.
  intros Hi Hn. unfold range. rewrite list_lookup_fmap, lookup_seqZ_lt by done.
  simpl. f_equal. apply wrap_small. lia.
Qed.

Section fold_insert.
Context {V A P : Type} `{Countable V}.
Variable f : gmap V A → P → gmap V A.
Variable g : P → V.
Variable h : P → A.
Hypothesis f_insert : ∀ m p, f m p = <[g p:=h p]> m.

Lemma fold_insert_notin (ps : list P) (acc : gmap V A) (v : V) :
  v ∉ g <$> ps → fold_left f ps acc !! v = acc !! v.
Proof.
  revert acc. induction ps as [|p ps IH]; intros acc Hv; [done|].
  simpl in *. apply not_elem_of_cons in Hv as [Hne Hv].
  rewrite IH, f_insert by done. by rewrite lookup_insert_ne.
Qed.

Lemma fold_insert_in (ps : list P) (acc : gmap V A) (p : P) :
  NoDup (g <$> ps) → p ∈ ps → fold_left f ps acc !! g p = Some (h p).
Proof.
  revert acc. induction ps as [|p' ps IH]; intros acc Hnd Hp; [by apply elem_of_nil in Hp|].
  simpl in *. apply NoDup_cons in Hnd as [Hnotin Hnd].
  apply elem_of_cons in Hp as [->|Hp].
  - rewrite fold_insert_notin, f_insert by done. by rewrite lookup_insert_eq.
  - by apply IH.
Qed.
End fold_insert.

Section pq_construct.
Context {KeyT ValueT : Type} `{Countable ValueT} `{Ordered ValueT}.
Local Abbreviation pq := (@PriorityQueue.state KeyT ValueT _ _).
Implicit Types (q : pq) (i j n m : nat) (v w : ValueT) (keys : list KeyT)
  (values : list ValueT).

Lemma build_index_map_lookup values v (z : Z) :
  NoDup values → vec_size values ≤ max_size →
  PriorityQueue.build_index_map values !! v = Some z ↔
  ∃ n, z = Z.of_nat n ∧ values !! n = Some v.
Proof.
  intros Hnd Hmax. unfold PriorityQueue.build_index_map.
  set (ps := zip values (range (vec_size values) 0)).
  assert (ps.*1 = values) as Hfst.
  { apply zip_fst. rewrite length_range. unfold vec_size. lia. }
  set (F := fold_left _ ps ∅).
  assert (∀ n, values !! n = Some v → F !! v = Some (Z.of_nat n)) as Hin.
  { intros n Hn. subst F.
    apply (fold_insert_in _ fst snd) with (p := (v, Z.of_nat n)).
    - by intros ? [].
    - by rewrite Hfst.
    - apply list_elem_of_lookup. exists n. apply lookup_zip. split; [done|].
      pose proof max_size_lt. apply lookup_lt_Some in Hn.
      apply lookup_range; unfold vec_size in *; lia. }
  split.
  - intros Hz. destruct (decide (v ∈ values)) as [Hv|Hv].
    + apply list_elem_of_lookup in Hv as [n Hn]. exists n. split; [|done].
      rewrite (Hin n Hn) in Hz. by injection Hz.
    + assert (F !! v = None) as Hnone; [|by rewrite Hnone in Hz].
      subst F. rewrite <- (lookup_empty (M:=gmap ValueT) v).
      apply (fold_insert_notin _ fst snd); [by intros ? []|by rewrite Hfst].
  - intros (n & -> & Hn). by apply Hin.
Qed.

Lemma build_key_map_lookup keys values :
  length keys = length values → NoDup values →
  ∃ km, PriorityQueue.build_key_map keys values = Ok km ∧
        (∀ i k v, keys !! i = Some k → values !! i = Some v → km !! v = Some k) ∧
        (∀ v, is_Some (km !! v) ↔ v ∈ values).
Proof.
  intros Hlen Hnd. unfold PriorityQueue.build_key_map, vec_size.
  rewrite Hlen, Z.eqb_refl. simpl assert. rewrite bind_Ok. eexists. split; [done|].
  set (ps := zip keys values).
  assert (ps.*2 = values) as Hsnd by by apply zip_snd.
  set (F := fold_left _ ps ∅).
  assert (∀ i k v, keys !! i = Some k → values !! i = Some v → F !! v = Some k)
    as Hin.
  { intros i k v Hk Hv. subst F.
    apply (fold_insert_in _ snd fst) with (p := (k, v)).
    - by intros ? [].
    - by rewrite Hsnd.
    - apply list_elem_of_lookup. exists i. by apply lookup_zip. }
  split; [done|]. intros v. split.
  - intros Hv. destruct (decide (v ∈ values)) as [|Hnotin]; [done|].
    assert (F !! v = None) as Hnone; [|rewrite Hnone in Hv; by destruct Hv].
    subst F. rewrite <- (lookup_empty (M:=gmap ValueT) v).
    apply (fold_insert_notin _ snd fst); [by intros ? []|by rewrite Hsnd].
  - intros [i Hi]%list_elem_of_lookup.
    destruct (lookup_lt_is_Some_2 keys i) as [k Hk].
    { apply lookup_lt_Some in Hi. lia. }
    rewrite (Hin i k v Hk Hi). by eexists.
Qed.

Lemma construct_consistent HeapT C IsHeap keys values :
  arity_in_range C → length keys = length values → NoDup values →
  vec_size values ≤ max_size →
  ∃ q0, PriorityQueue.construct HeapT C IsHeap keys values = Ok q0 ∧
        maps_consistent q0 ∧
        vec_size (PriorityQueue.pq_nodes q0) ≤ max_size ∧
        PriorityQueue.pq_nodes q0 ≡ₚ values ∧
        (∀ i k v, keys !! i = Some k → values !! i = Some v →
           PriorityQueue.key_map_ q0 !! v = Some k).
Proof.
  intros Hin Hlen Hnd Hmax. unfold PriorityQueue.construct.
  destruct (build_key_map_lookup keys values Hlen Hnd) as (km & -> & Hkeys & Hdom).
  rewrite bind_Ok.
  set (q1 := PriorityQueue.mk_state values km (PriorityQueue.build_index_map values)).
  assert (maps_consistent q1) as Hc1.
  { split; simpl; [|done]. intros v z. by apply build_index_map_lookup. }
  unfold heapify. destruct IsHeap.
  - exists q1. do 4 (split; [done|]). exact Hkeys.
  - destruct (pq_build_heap (Compare HeapT) C Hin q1 Hc1 Hmax)
      as (q0 & Hq0 & Hc0 & Hkm & Hnodes).
    exists q0. split; [done|]. split; [done|]. split; [|split].
    + unfold vec_size in *. by rewrite Hnodes, length_build.
    + rewrite Hnodes. apply build_perm.
    + intros i k v Hk Hv. rewrite Hkm. by apply (Hkeys i).
Qed.
End pq_construct.

(** ** The indexed priority queue: operation sequences *)

Section pq_traces.
Context {KeyT ValueT : Type} `{Countable ValueT} `{Ordered ValueT}.
Local Abbreviation pq := (@PriorityQueue.state KeyT ValueT _ _).
Variable HeapT : heap_type.
Variable C : HeapC.
Hypothesis C_ok : arity_in_range C.
Implicit Types (q : pq) (v w : ValueT) (ops : list (@pq_op KeyT ValueT)).

Lemma last_assigned_snoc ops op v init :
  last_assigned (ops ++ [op]) v init = assign v (last_assigned ops v init) op.
Proof. unfold last_assigned. by rewrite fold_left_app. Qed.

Lemma pq_step_progress q op :
  maps_consistent q → vec_size (PriorityQueue.pq_nodes q) ≤ max_size →
  pq_op_pre op q →
  match pq_step HeapT C op q with
  | Ok _ => True
  | Err e => e = assertion_failure ∨ e = length_error
  end.
Proof.
  intros Hc Hmax Hpre. destruct op as [key v| |key v]; simpl in *.
  - destruct (decide (vec_size (PriorityQueue.pq_nodes q) < max_size)) as [Hlt|Hfull].
    + by destruct (pq_push_consistent HeapT C C_ok q v key) as (q' & -> & _).
    + rewrite pq_push_full by lia. by right.
  - destruct (PriorityQueue.pq_nodes q) as [|x l] eqn:Hq.
    + rewrite pq_pop_empty by done. by left.
    + destruct (pq_pop_consistent HeapT C C_ok q x l) as (q' & -> & _); [done..| |done].
      by rewrite Hq.
  - by destruct (pq_update_key_consistent HeapT C C_ok q v key) as (q' & -> & _).
Qed.

Lemma pq_trace_consistent q0 ops q :
  maps_consistent q0 → vec_size (PriorityQueue.pq_nodes q0) ≤ max_size →
  pq_trace HeapT C q0 ops q →
  maps_consistent q ∧
  vec_size (PriorityQueue.pq_nodes q) ≤ max_size ∧
  ∀ v, v ∈ PriorityQueue.pq_nodes q →
    PriorityQueue.key_map_ q !! v
    = last_assigned ops v (PriorityQueue.key_map_ q0 !! v).
Proof.
  intros Hc0 Hmax0 Htrace.
  induction Htrace as [|ops q op q' _ IH Hpre Hstep]; [done|].
  destruct IH as (Hc & Hmax & Hkeys).
  destruct op as [key v| |key v]; simpl in Hpre, Hstep.
  - destruct (decide (vec_size (PriorityQueue.pq_nodes q) < max_size)) as [Hlt|Hfull];
      [|by rewrite pq_push_full in Hstep by lia].
    destruct (pq_push_consistent HeapT C C_ok q v key)
      as (q'' & Hq'' & Hc' & Hmax' & Hkm & Hperm); [done..|].
    rewrite Hq'' in Hstep. injection Hstep as ->.
    split; [done|]. split; [done|]. intros w Hw.
    rewrite last_assigned_snoc, Hkm, lookup_insert. simpl.
    case_decide; [done|]. apply Hkeys.
    rewrite Hperm in Hw. by apply elem_of_cons in Hw as [->|Hw].
  - destruct (PriorityQueue.pq_nodes q) as [|x l] eqn:Hq;
      [by rewrite pq_pop_empty in Hstep|].
    destruct (pq_pop_consistent HeapT C C_ok q x l)
      as (q'' & Hq'' & Hc' & Hmax' & Hkm & Hperm); [done..|by rewrite Hq|].
    rewrite Hq'' in Hstep. injection Hstep as ->.
    split; [done|]. split; [done|]. intros w Hw.
    rewrite last_assigned_snoc, Hkm. simpl.
    pose proof (consistent_NoDup q Hc) as Hnd. rewrite Hq in Hnd.
    apply NoDup_cons in Hnd as [Hx _]. rewrite Hperm in Hw.
    rewrite lookup_delete_ne by (intros ->; done).
    apply Hkeys. by right.
  - destruct (pq_update_key_consistent HeapT C C_ok q v key)
      as (q'' & Hq'' & Hc' & Hmax' & Hkm & Hperm); [done..|].
    rewrite Hq'' in Hstep. injection Hstep as ->.
    split; [done|]. split; [done|]. intros w Hw.
    rewrite last_assigned_snoc, Hkm, lookup_insert. simpl.
    case_decide; [done|]. apply Hkeys. by rewrite <- Hperm.
Qed.
End pq_traces.

(** C1 (amended).  Construct an indexed queue from equally many keys and
    values, the values pairwise distinct, and apply any sequence of [push],
    [pop] and [update_key] in which every [push] inserts a value the queue
    does not hold and every [update_key] names a value it holds.  Then at
    every point the two maps are the inverse of the sequence: the index
    map sends a value to a slot exactly when that slot holds it, the key
    map is defined exactly on the held values, and the key of every held
    value is the one most recently assigned to it.  Each further
    operation completes, unless it is a [pop] on the empty queue or a
    [push] on a full vector. *)
Theorem maps_consistent_maintained {KeyT ValueT : Type} `{Countable ValueT}
    `{Ordered ValueT} (HeapT : heap_type) (C : HeapC) (IsHeap : bool)
    (keys : list KeyT) (values : list ValueT) :
  HeapC_ok C → length keys = length values → NoDup values →
  vec_size values ≤ max_size →
  ∃ q0, make_priority_queue HeapT C IsHeap keys values = Ok q0 ∧
        (∀ i k v, keys !! i = Some k → values !! i = Some v →
           PriorityQueue.key_at v q0 = Ok k) ∧
        ∀ ops q, pq_trace HeapT C q0 ops q →
          maps_consistent q ∧
          (∀ v, v ∈ PriorityQueue.pq_nodes q →
             PriorityQueue.key_map_ q !! v
             = last_assigned ops v (PriorityQueue.key_map_ q0 !! v)) ∧
          (∀ op, pq_op_pre op q →
             match pq_step HeapT C op q with
             | Ok _ => True
             | Err e => e = assertion_failure ∨ e = length_error
             end).
Proof.
  intros Hok Hlen Hnd Hmax. pose proof (HeapC_ok_in_range C Hok) as Hin.
  destruct (construct_consistent HeapT C IsHeap keys values)
    as (q0 & Hq0 & Hc0 & Hmax0 & _ & Hkeys0); [done..|].
  exists q0. split; [|split].
  - unfold make_priority_queue. destruct C as [|K]; [done|].
    simpl in Hok. by rewrite Hok.
  - intros i k v Hk Hv. unfold PriorityQueue.key_at, umap_at.
    by rewrite (Hkeys0 i k v).
  - intros ops q Htrace.
    destruct (pq_trace_consistent HeapT C Hin q0 ops q) as (Hc & Hmaxq & Hkeys);
      [done..|].
    split; [done|]. split; [done|]. intros op. by apply pq_step_progress.
Qed.

Lemma maps_consistent_maintained_witness :
  ∃ q0 : @PriorityQueue.state Z Z _ _,
    make_priority_queue min_heap (k_heap 4) false [5; 4; 1] [109; 105; 110] = Ok q0 ∧
    (∀ i k v, [5; 4; 1] !! i = Some k → [109; 105; 110] !! i = Some v →
       PriorityQueue.key_at v q0 = Ok k) ∧
    ∀ ops q, pq_trace min_heap (k_heap 4) q0 ops q →
      maps_consistent q ∧
      (∀ v, v ∈ PriorityQueue.pq_nodes q →
         PriorityQueue.key_map_ q !! v
         = last_assigned ops v (PriorityQueue.key_map_ q0 !! v)) ∧
      (∀ op, pq_op_pre op q →
         match pq_step min_heap (k_heap 4) op q with
         | Ok _ => True
         | Err e => e = assertion_failure ∨ e = length_error
         end).
Proof.
  apply (maps_consistent_maintained min_heap (k_heap 4) false [5; 4; 1] [109; 105; 110]).
  - reflexivity.
  - reflexivity.
  - apply (bool_decide_unpack _). by vm_compute.
  - vm_compute. discriminate.
Defined.

(** C1, as stated, fails: pushing a value the queue already holds and then
    popping leaves that value in the sequence without a key. *)
Lemma repush_then_pop_loses_key :
  ∃ q0 q : @PriorityQueue.state Z Z _ _,
    make_min_priority_queue false [1] [5] = Ok q0 ∧
    run_pq_ops min_heap binary_heap [pq_push 2 5; pq_pop] q0 = Ok q ∧
    PriorityQueue.pq_nodes q = [5] ∧
    PriorityQueue.key_at 5 q = Err out_of_range ∧
    ¬ maps_consistent q.
Proof.
  eexists _, _. split; [by vm_compute|]. split; [by vm_compute|].
  split; [done|]. split; [done|].
  intros [_ Hkey]. destruct (proj2 (Hkey 5)) as [k Hk]; [by left|].
  by vm_compute in Hk.
Qed.

(** ** The indexed priority queue: pushing a value it already holds *)

Section pq_repush.
Context {KeyT ValueT : Type} `{Countable ValueT} `{Ordered ValueT}.
Local Abbreviation pq := (@PriorityQueue.state KeyT ValueT _ _).
Variable HeapT : heap_type.
Variable C : HeapC.
Hypothesis C_ok : arity_in_range C.
Context `{!StrictWeakOrder (Compare (T:=ValueT) HeapT)}.
Implicit Types (q : pq) (n o cur : nat) (v w a b : ValueT).

(* [v] sits at the old slot [o] and, as a second copy, at slot [cur];
   the index map follows every slot but [o] *)
Let tracking (v : ValueT) (o : nat) (km : gmap ValueT KeyT) (D : gset ValueT)
    (cur : nat) (q : pq) : Prop :=
  PriorityQueue.pq_nodes q !! o = Some v ∧
  cur ≠ o ∧
  PriorityQueue.pq_nodes q !! cur = Some v ∧
  (∀ n w, n ≠ o → PriorityQueue.pq_nodes q !! n = Some w →
     PriorityQueue.index_map_ q !! w = Some (Z.of_nat n)) ∧
  PriorityQueue.key_map_ q = km ∧
  dom (PriorityQueue.index_map_ q) = D.

Lemma tracking_swap v o km D q i a b :
  tracking v o km D i q → (0 < i)%nat →
  nodes_ q !! parent_idx (arity C) i = Some a → nodes_ q !! i = Some b →
  Compare HeapT a b = true →
  ∃ q', swap_nodes (Z.of_nat i) (Z.of_nat (parent_idx (arity C) i)) q = Ok q' ∧
        tracking v o km D (parent_idx (arity C) i) q' ∧
        nodes_ q' = list_swap i (parent_idx (arity C) i) (nodes_ q).
Proof.
  intros (Ho & Hio & Hi & Hidx & Hkm & Hdom) Hpos Ha Hb Hab. simpl in Ha, Hb.
  pose proof (parent_idx_lt' (arity C) (arity_pos C C_ok) i Hpos) as Hlt.
  generalize dependent (parent_idx (arity C) i). intros p Ha Hlt.
  rewrite Hi in Hb. injection Hb as <-.
  assert (a ≠ v) as Hav.
  { intros ->. by rewrite swo_irrefl in Hab. }
  assert (p ≠ o) as Hpo by (intros ->; congruence).
  pose proof (Hidx i v Hio Hi) as Hiv. pose proof (Hidx p a Hpo Ha) as Hpa.
  eexists. split; [by apply pq_swap_nodes_eq|]. split; [|done].
  rewrite (umap_swap_present _ v a _ _ Hiv Hpa).
  pose proof (lookup_lt_Some _ _ _ Hi) as Hilen.
  pose proof (lookup_lt_Some _ _ _ Ha) as Hplen.
  split; [|split; [done|split; [|split; [|split]]]]; simpl.
  - by rewrite list_swap_other.
  - by eapply list_swap_r.
  - intros n w Hno. rewrite lookup_list_swap by done.
    destruct (decide (n = p)) as [->|Hnp]; [|destruct (decide (n = i)) as [->|Hni]].
    + rewrite Hi. intros [= <-]. rewrite lookup_insert_ne by done.
      by rewrite lookup_insert_eq.
    + rewrite Ha. intros [= <-]. by rewrite lookup_insert_eq.
    + intros Hn. pose proof (Hidx n w Hno Hn) as Hnw.
      assert (w ≠ v) by (intros ->; rewrite Hiv in Hnw; injection Hnw; lia).
      assert (w ≠ a) by (intros ->; rewrite Hpa in Hnw; injection Hnw; lia).
      by rewrite !lookup_insert_ne.
  - done.
  - rewrite <- Hdom, !dom_insert_lookup_L; [done|by eexists|].
    rewrite lookup_insert_ne by done. by eexists.
Qed.

Lemma tracking_start q v o key :
  maps_consistent q → PriorityQueue.pq_nodes q !! o = Some v →
  tracking v o (<[v:=key]> (PriorityQueue.key_map_ q))
    (dom (PriorityQueue.index_map_ q)) (length (PriorityQueue.pq_nodes q))
    (PriorityQueue.mk_state (PriorityQueue.pq_nodes q ++ [v])
       (<[v:=key]> (PriorityQueue.key_map_ q))
       (<[v:=vec_size (PriorityQueue.pq_nodes q)]> (PriorityQueue.index_map_ q))).
Proof.
  intros Hc Ho. pose proof (lookup_lt_Some _ _ _ Ho) as Holen.
  split; [|split; [|split; [|split; [|split]]]]; simpl.
  - by apply lookup_app_l_Some.
  - lia.
  - by rewrite lookup_app_r, Nat.sub_diag by lia.
  - intros n w Hno Hn. apply lookup_app_Some in Hn as [Hn|[Hlen Hn]].
    + assert (w ≠ v) by (intros ->; by apply Hno, (consistent_inj q n o v)).
      rewrite lookup_insert_ne by done. by apply consistent_index.
    + apply list_lookup_singleton_Some in Hn as [Hn ->].
      rewrite lookup_insert_eq. unfold vec_size. do 2 f_equal. lia.
  - done.
  - apply dom_insert_lookup_L. rewrite (consistent_index q o v Hc Ho). by eexists.
Qed.
End pq_repush.

(** C10 (amended).  On a queue whose maps are consistent with its
    sequence, pushing, with key [k], a value [v] that the queue already
    holds appends a second copy of [v]: the size grows by one and [v]
    occupies exactly two slots, its old one and the slot where the new
    copy comes to rest.  The maps gain no entry: the key map sends [v] to
    [k], and the index map sends [v] to the slot of the new copy. *)
Theorem push_existing_value {KeyT ValueT : Type} `{Countable ValueT}
    `{Ordered ValueT} (HeapT : heap_type) (C : HeapC) (key : KeyT)
    (v : ValueT) (q : @PriorityQueue.state KeyT ValueT _ _) (old : nat) :
  StrictWeakOrder (Compare (T:=ValueT) HeapT) → arity_in_range C →
  maps_consistent q → vec_size (PriorityQueue.pq_nodes q) < max_size →
  PriorityQueue.pq_nodes q !! old = Some v →
  ∃ q' (new : nat),
    PriorityQueue.push HeapT C key v q = Ok q' ∧
    PriorityQueue.size q' = PriorityQueue.size q + 1 ∧
    PriorityQueue.pq_nodes q' = seq_push (Compare HeapT) (arity C) v (PriorityQueue.pq_nodes q) ∧
    new = sift_up_pos (Compare HeapT) (arity C)
            (S (length (PriorityQueue.pq_nodes q ++ [v])))
            (length (PriorityQueue.pq_nodes q)) (PriorityQueue.pq_nodes q ++ [v]) ∧
    new ≠ old ∧
    (∀ n, PriorityQueue.pq_nodes q' !! n = Some v ↔ n = old ∨ n = new) ∧
    PriorityQueue.key_map_ q' = <[v:=key]> (PriorityQueue.key_map_ q) ∧
    dom (PriorityQueue.key_map_ q') = dom (PriorityQueue.key_map_ q) ∧
    PriorityQueue.index_map_ q' !! v = Some (Z.of_nat new) ∧
    dom (PriorityQueue.index_map_ q') = dom (PriorityQueue.index_map_ q).
Proof.
  intros Hswo Hin Hc Hmax Hold.
  unfold PriorityQueue.push, push, vec_emplace_back, PriorityQueue.size, size.
  simpl nodes_. simpl set_nodes_. simpl PriorityQueue.pq_nodes.
  simpl PriorityQueue.key_map_. simpl PriorityQueue.index_map_.
  rewrite (proj2 (Z.leb_gt _ _)) by done. rewrite bind_Ok.
  set (q1 := PriorityQueue.mk_state _ _ _).
  destruct (heapify_up_refines (Compare HeapT) C Hin
      (λ cur s, PriorityQueue.pq_nodes s !! old = Some v ∧
         cur ≠ old ∧
         PriorityQueue.pq_nodes s !! cur = Some v ∧
         (∀ n w, n ≠ old → PriorityQueue.pq_nodes s !! n = Some w →
            PriorityQueue.index_map_ s !! w = Some (Z.of_nat n)) ∧
         PriorityQueue.key_map_ s = <[v:=key]> (PriorityQueue.key_map_ q) ∧
         dom (PriorityQueue.index_map_ s) = dom (PriorityQueue.index_map_ q)))
    with (i := length (PriorityQueue.pq_nodes q)) (s := q1)
    as (q' & Hq' & (Ho & Hne & Hnew & Hidx & Hkm & Hdom) & Hnodes).
  - intros s i a b. by apply (tracking_swap HeapT C Hin).
  - by eapply tracking_start.
  - subst q1. simpl. rewrite length_app. simpl. lia.
  - subst q1. unfold vec_size in *. simpl. rewrite length_app. simpl. lia.
  - exists q', (sift_up_pos (Compare HeapT) (arity C) (S (length (nodes_ q1)))
      (length (PriorityQueue.pq_nodes q)) (nodes_ q1)).
    split; [exact Hq'|].
    split; [|split; [exact Hnodes|split; [done|
      split; [done|split; [|split; [done|split; [|split]]]]]]].
    + unfold vec_size. change (PriorityQueue.pq_nodes q') with (nodes_ q').
      rewrite Hnodes, length_sift_up.
      subst q1. simpl. rewrite length_app. simpl. lia.
    + intros n. split.
      * intros Hn. destruct (decide (n = old)) as [|Hno]; [by left|]. right.
        pose proof (Hidx n v Hno Hn) as Hv1. pose proof (Hidx _ v Hne Hnew) as Hv2.
        rewrite Hv1 in Hv2. injection Hv2 as Hv2. apply Nat2Z.inj in Hv2.
        exact Hv2.
      * by intros [->| ->].
    + rewrite Hkm. apply dom_insert_lookup_L, Hc.
      by eapply list_elem_of_lookup_2.
    + by apply Hidx.
    + done.
Qed.

Lemma imap_pair_fst {A B} (g : nat → B) (l : list A) :
  (imap (λ n v, (v, g n)) l).*1 = l.
Proof.
  revert g. induction l as [|x l IH]; intros g; [done|].
  simpl. f_equal. exact (IH (g ∘ S)).
Qed.

Lemma maps_consistentb_sound {KeyT ValueT : Type} `{Countable ValueT}
    (q : @PriorityQueue.state KeyT ValueT _ _) :
  maps_consistentb q = true → maps_consistent q.
Proof.
  unfold maps_consistentb. rewrite !andb_true_iff, !bool_decide_eq_true.
  intros [[Hnd Hidx] Hdom]. split.
  - intros v z. rewrite Hidx, <- elem_of_list_to_map.
    + rewrite list_elem_of_lookup. setoid_rewrite list_lookup_imap. split.
      * intros [n Hn]. destruct (PriorityQueue.pq_nodes q !! n) as [w|] eqn:Hw;
          simpl in Hn; [|done]. injection Hn as Hwv Hz. subst. by exists n.
      * intros (n & -> & Hn). exists n. by rewrite Hn.
    + by rewrite imap_pair_fst.
  - intros v. by rewrite <- elem_of_dom, Hdom, elem_of_list_to_set.
Qed.

Lemma push_existing_value_witness :
  ∃ q' (new : nat),
    PriorityQueue.push max_heap binary_heap 42 7 example_queue = Ok q' ∧
    PriorityQueue.size q' = PriorityQueue.size example_queue + 1 ∧
    PriorityQueue.pq_nodes q'
    = seq_push (Compare max_heap) (arity binary_heap) 7
        (PriorityQueue.pq_nodes example_queue) ∧
    new = sift_up_pos (Compare max_heap) (arity binary_heap)
            (S (length (PriorityQueue.pq_nodes example_queue ++ [7])))
            (length (PriorityQueue.pq_nodes example_queue))
            (PriorityQueue.pq_nodes example_queue ++ [7]) ∧
    new ≠ 1%nat ∧
    (∀ n, PriorityQueue.pq_nodes q' !! n = Some 7 ↔ n = 1%nat ∨ n = new) ∧
    PriorityQueue.key_map_ q' = <[7:=42]> (PriorityQueue.key_map_ example_queue) ∧
    dom (PriorityQueue.key_map_ q') = dom (PriorityQueue.key_map_ example_queue) ∧
    PriorityQueue.index_map_ q' !! 7 = Some (Z.of_nat new) ∧
    dom (PriorityQueue.index_map_ q') = dom (PriorityQueue.index_map_ example_queue).
Proof.
  apply (push_existing_value max_heap binary_heap 42 7 example_queue 1).
  - apply Z_Compare_swo.
  - exact I.
  - apply maps_consistentb_sound. by vm_compute.
  - by vm_compute.
  - reflexivity.
Defined.

(** C10, as stated, fails on a queue that already holds a value twice.
    After [3] has been pushed a second time the queue holds [2; 3; 3] and
    the maps no longer describe it.  Pushing [2] again then leaves the
    index entry of [2] at slot 2, which holds a [3], while the new copy
    of [2] rests at slot 1; pushing [3] a third time makes it occupy
    three slots. *)
Lemma push_existing_value_stale_index :
  ∃ q0 q1 q2 q3 : @PriorityQueue.state Z Z _ _,
    make_min_priority_queue false [10; 20] [2; 3] = Ok q0 ∧
    PriorityQueue.push min_heap binary_heap 30 3 q0 = Ok q1 ∧
    PriorityQueue.pq_nodes q1 = [2; 3; 3] ∧
    PriorityQueue.push min_heap binary_heap 40 2 q1 = Ok q2 ∧
    PriorityQueue.pq_nodes q2 = [2; 2; 3; 3] ∧
    PriorityQueue.index_map_ q2 !! 2 = Some 2 ∧
    PriorityQueue.pq_nodes q2 !! 2%nat = Some 3 ∧
    PriorityQueue.push min_heap binary_heap 40 3 q1 = Ok q3 ∧
    PriorityQueue.pq_nodes q3 = [2; 3; 3; 3].
Proof.
  eexists _, _, _, _. split; [by vm_compute|]. split; [by vm_compute|].
  split; [by vm_compute|]. split; [by vm_compute|]. split; [by vm_compute|].
  split; [by vm_compute|]. split; [by vm_compute|]. split; by vm_compute.
Qed.

(** ** Scenarios of the test suite *)

(* [MinKHeapTest.full]: a min 4-ary heap pops in ascending order *)
Example min_k_heap_full :
  (h ← make_min_k_heap 4 false [30; 1; 50; 20; 40; 60; 100];
   extraction_order min_heap (k_heap 4) h) = Ok [1; 20; 30; 40; 50; 60; 100].
Proof. by vm_compute. Qed.

(* [MaxBinaryHeapTest.empty]: pushes into an empty heap, then pops *)
Example max_binary_heap_pushes :
  (h ← make_max_heap false [];
   h ← run_heap_ops (Compare max_heap) binary_heap
         (op_push <$> [30; 1; 50; 20; 40; 60; 100]) h;
   extraction_order max_heap binary_heap h) = Ok [100; 60; 50; 40; 30; 20; 1].
Proof. by vm_compute. Qed.

(* [MaxBinaryHeapTest.already_heap] *)
Example max_binary_heap_already_heap :
  (h ← make_max_heap true [8; 7; 6; 5; 4; 3; 2; 1; 0];
   extraction_order max_heap binary_heap h) = Ok [8; 7; 6; 5; 4; 3; 2; 1; 0].
Proof. by vm_compute. Qed.

(* [MinPQBinaryHeapTest.full], the characters written as their codes:
   the queue is ordered by its values, the keys travel with them *)
Example min_priority_queue_full :
  (q ← make_min_priority_queue false [5; 4; 1; 3; 6; 0; 2]
         [109; 105; 110; 104; 101; 97; 112];
   pq_pop_all min_heap binary_heap 7 q)
  = Ok [(0, 97); (6, 101); (3, 104); (4, 105); (5, 109); (1, 110); (2, 112)].
Proof. by vm_compute. Qed.

(* [MaxPQKHeapTest.full] *)
Example max_k_priority_queue_full :
  (q ← make_max_k_priority_queue 4 false [5; 4; 1; 3; 6; 0; 2]
         [109; 105; 110; 104; 101; 97; 112];
   pq_pop_all max_heap (k_heap 4) 7 q)
  = Ok [(2, 112); (1, 110); (5, 109); (4, 105); (3, 104); (6, 101); (0, 97)].
Proof. by vm_compute. Qed.

(* a run within the preconditions: push a new value, update a held one, pop *)
Example pq_trace_scenario :
  ∃ q0 q : @PriorityQueue.state Z Z _ _,
    make_min_priority_queue false [5; 4; 1] [109; 105; 110] = Ok q0 ∧
    pq_trace min_heap binary_heap q0
      [pq_push 7 97; pq_update_key 0 110; pq_pop] q ∧
    PriorityQueue.pq_nodes q = [105; 109; 110] ∧
    PriorityQueue.key_at 110 q = Ok 0 ∧
    PriorityQueue.contains 97 q = false.
Proof.
  eexists _, _. split; [by vm_compute|]. split.
  - change [pq_push 7 97; pq_update_key 0 110; pq_pop]
      with ((([] ++ [pq_push 7 97]) ++ [pq_update_key 0 110]) ++ [@pq_pop Z Z]).
    eapply pq_trace_snoc; [eapply pq_trace_snoc; [eapply pq_trace_snoc|..]|..].
    + apply pq_trace_nil.
    + by vm_compute.
    + by vm_compute.
    + by vm_compute.
    + by vm_compute.
    + exact I.
    + by vm_compute.
  - by vm_compute.
Qed.

(** * Further properties of the heaps *)

(** ** What [top], [push] and [pop] do to the contents *)

(** X1.  In a heap that satisfies the heap property, [top] returns an element of
    the heap that no element beats: [comp top y] is false for every element
    [y] (the maximum of a max-heap, the minimum of a min-heap). *)
Theorem top_is_extremum {T : Type} (comp : T → T → bool) (C : HeapC) (h : list T) :
  StrictWeakOrder comp → arity_in_range C → is_heap comp C h → h ≠ [] →
  ∃ r, top h = Ok r ∧ r ∈ h ∧ ∀ y, y ∈ h → comp r y = false.
Proof.
  intros Hswo HC Hheap Hne. destruct h as [|x l]; [done|].
  exists x. split; [done|]. split; [by left|].
  intros y [i Hy]%list_elem_of_lookup.
  exact (heap_root_top comp (arity C) (arity_pos C HC) (x :: l) x Hheap eq_refl i y Hy).
Qed.

Lemma top_is_extremum_witness :
  ∃ r, top [9; 8; 7; 1; 4] = Ok r ∧ r ∈ [9; 8; 7; 1; 4] ∧
       ∀ y, y ∈ [9; 8; 7; 1; 4] → Compare max_heap r y = false.
Proof.
  apply (top_is_extremum (Compare max_heap) (k_heap 3) [9; 8; 7; 1; 4]).
  - apply Z_Compare_swo.
  - simpl. lia.
  - apply heap_propertyb_sound. vm_compute. reflexivity.
  - discriminate.
Defined.

(** X2.  [push] adds exactly the given element: below [max_size] the new
    contents are a permutation of the old ones plus [x] and [size] grows by
    one; at [max_size] the push fails with the length error of
    [emplace_back]. *)
Theorem push_adds_element {T : Type} (comp : T → T → bool) (C : HeapC)
    (x : T) (h : list T) :
  arity_in_range C →
  (vec_size h < max_size →
   ∃ h', push comp C x h = Ok h' ∧ h' ≡ₚ x :: h ∧ size h' = size h + 1) ∧
  (max_size ≤ vec_size h → push comp C x h = Err length_error).
Proof.
  intros HC. split; [|by apply plain_push_full].
  intros Hmax. exists (seq_push comp (arity C) x h).
  split; [by apply plain_push|]. split.
  - apply seq_push_perm.
  - unfold size, vec_size. simpl nodes_.
    rewrite length_seq_push by (by apply arity_pos). lia.
Qed.

Lemma push_adds_element_witness :
  (vec_size [9; 4; 7] < max_size →
   ∃ h', push (Compare max_heap) binary_heap 8 [9; 4; 7] = Ok h' ∧
         h' ≡ₚ 8 :: [9; 4; 7] ∧ size h' = size [9; 4; 7] + 1) ∧
  (max_size ≤ vec_size [9; 4; 7] →
   push (Compare max_heap) binary_heap 8 [9; 4; 7] = Err length_error).
Proof. apply (push_adds_element (Compare max_heap) binary_heap 8 [9; 4; 7]). exact I. Defined.

(** X3.  [pop] on a non-empty heap removes exactly the element [top] returns:
    the remaining contents are a permutation of the other elements and
    [size] shrinks by one. *)
Theorem pop_removes_top {T : Type} (comp : T → T → bool) (C : HeapC)
    (x : T) (l : list T) :
  arity_in_range C → vec_size (x :: l) ≤ max_size →
  ∃ h', top (x :: l) = Ok x ∧ pop comp C (x :: l) = Ok h' ∧
        h' ≡ₚ l ∧ size h' = size (x :: l) - 1.
Proof.
  intros HC Hmax. exists (seq_pop comp (arity C) (x :: l)).
  split; [done|]. split; [by apply plain_pop|]. split.
  - apply seq_pop_perm.
  - unfold size, vec_size. simpl nodes_.
    rewrite length_seq_pop by (by apply arity_pos). simpl. lia.
Qed.

Lemma pop_removes_top_witness :
  ∃ h', top [9; 4; 7] = Ok 9 ∧ pop (Compare max_heap) (k_heap 5) [9; 4; 7] = Ok h' ∧
        h' ≡ₚ [4; 7] ∧ size h' = size [9; 4; 7] - 1.
Proof.
  apply (pop_removes_top (Compare max_heap) (k_heap 5) 9 [4; 7]).
  - simpl. lia.
  - by vm_compute.
Defined.

(** ** Sifting inside a valid heap *)

Section sift_heap.
Local Open Scope nat_scope.
Context {T : Type} (comp : T → T → bool).
Variable K : nat.
Hypothesis K_pos : 0 < K.
Implicit Types l : list T.

Lemma sift_up_heap_id fuel i l :
  heap_property comp K l → sift_up comp K fuel i l = l.
Proof.
  intros Hheap. destruct fuel as [|fuel]; [done|]. simpl.
  destruct i as [|i]; [done|].
  destruct (l !! parent_idx K (S i)) as [a|] eqn:Ha; [|done].
  destruct (l !! S i) as [b|] eqn:Hb; [|done].
  destruct (child_parent_idx K (S i)) as (j & Hj & Hi); [done|lia|].
  rewrite Hi in Hb at 1.
  by rewrite (Hheap _ _ _ _ Hj Ha Hb).
Qed.
End sift_heap.

(** X4.  A vector that already satisfies the heap property is a fixed point:
    [heapify] (with [IsHeap = false]), [heapify_down] from any slot and
    [heapify_up] from any slot return it unchanged. *)
Theorem valid_heap_is_fixed_point {T : Type} (comp : T → T → bool) (C : HeapC)
    (h : list T) (i : nat) :
  arity_in_range C → vec_size h ≤ max_size → is_heap comp C h →
  heapify comp C false h = Ok h ∧
  ((i ≤ length h)%nat → heapify_down comp C (Z.of_nat i) h = Ok h) ∧
  ((i < length h)%nat → heapify_up comp C (Z.of_nat i) h = Ok h).
Proof.
  intros HC Hmax Hheap. split; [|split].
  - simpl. rewrite plain_build_heap by done. f_equal. by apply build_from_heap_id.
  - intros Hi. rewrite plain_heapify_down by done. f_equal. by apply sift_down_heap.
  - intros Hi. rewrite plain_heapify_up by done. f_equal.
    apply sift_up_heap_id; [by apply arity_pos|done].
Qed.

Lemma valid_heap_is_fixed_point_witness :
  heapify (Compare min_heap) binary_heap false [1; 3; 2; 7; 4] = Ok [1; 3; 2; 7; 4] ∧
  ((2 ≤ length [1; 3; 2; 7; 4])%nat →
   heapify_down (Compare min_heap) binary_heap (Z.of_nat 2) [1; 3; 2; 7; 4]
   = Ok [1; 3; 2; 7; 4]) ∧
  ((2 < length [1; 3; 2; 7; 4])%nat →
   heapify_up (Compare min_heap) binary_heap (Z.of_nat 2) [1; 3; 2; 7; 4]
   = Ok [1; 3; 2; 7; 4]).
Proof.
  apply (valid_heap_is_fixed_point (Compare min_heap) binary_heap [1; 3; 2; 7; 4] 2).
  - exact I.
  - by vm_compute.
  - apply heap_propertyb_sound. vm_compute. reflexivity.
Defined.

(** ** Index arithmetic *)

(** X5.  The index arithmetic is consistent: as long as the child index does not
    overflow [std::size_t], the parent of the left, right or j-th child of a
    slot is the slot itself.  At slot 0 the subtraction in [parent] wraps
    around: the binary parent of 0 is [2^63 - 1] and the k-ary one
    [(2^64 - 1) / K], which is why [heapify_up] tests [i > 0] first. *)
Theorem parent_of_child (K i j : Z) :
  0 ≤ i →
  (2 * i + 2 < 2 ^ 64 →
   BinaryHeap.parent (BinaryHeap.left i) = i ∧
   BinaryHeap.parent (BinaryHeap.right i) = i) ∧
  (0 < K → 0 ≤ j < K → K * i + j + 1 < 2 ^ 64 →
   KHeap.parent K (KHeap.child K i j) = i) ∧
  BinaryHeap.parent 0 = 2 ^ 63 - 1 ∧
  (0 < K → KHeap.parent K 0 = (2 ^ 64 - 1) / K).
Proof.
  intros Hi. split; [|split; [|split]].
  - intros Hb. unfold BinaryHeap.parent, BinaryHeap.left, BinaryHeap.right.
    rewrite Z.shiftl_mul_pow2 by lia. change (2 ^ 1) with 2.
    unwrap. rewrite !Z.shiftr_div_pow2 by lia. change (2 ^ 1) with 2.
    replace (i * 2 + 1 - 1) with (i * 2) by lia.
    replace (i * 2 + 2 - 1) with (1 + i * 2) by lia.
    rewrite Z.div_mul by lia. rewrite Z.div_add by lia. done.
  - intros HK Hj Hb. unfold KHeap.parent, KHeap.child. unwrap.
    replace (K * i + j + 1 - 1) with (j + i * K) by lia.
    rewrite Z.div_add by lia. rewrite Z.div_small by lia. lia.
  - by vm_compute.
  - intros HK. unfold KHeap.parent. by vm_compute wrap.
Qed.

Lemma parent_of_child_witness :
  (2 * 5 + 2 < 2 ^ 64 →
   BinaryHeap.parent (BinaryHeap.left 5) = 5 ∧
   BinaryHeap.parent (BinaryHeap.right 5) = 5) ∧
  (0 < 4 → 0 ≤ 2 < 4 → 4 * 5 + 2 + 1 < 2 ^ 64 →
   KHeap.parent 4 (KHeap.child 4 5 2) = 5) ∧
  BinaryHeap.parent 0 = 2 ^ 63 - 1 ∧
  (0 < 4 → KHeap.parent 4 0 = (2 ^ 64 - 1) / 4).
Proof. apply (parent_of_child 4 5 2). lia. Defined.

(** X6.  The leaf tests are sound: a slot reported as a leaf has no child inside
    the vector.  The k-ary test is exact on vectors of at least two elements
    and reports no leaf at slot 0 on shorter ones; the binary test never
    reports slot [size / 2], although that slot has no child. *)
Theorem is_leaf_has_no_child {T : Type} (K : Z) (l : list T) (i : Z) :
  0 ≤ i → vec_size l ≤ max_size →
  (BinaryHeap.is_leaf l i = true → vec_size l ≤ 2 * i + 1) ∧
  (0 < K → 2 ≤ vec_size l → KHeap.is_leaf K l i = true ↔ vec_size l ≤ K * i + 1) ∧
  (BinaryHeap.is_leaf l (vec_size l / 2) = false ∧
   vec_size l ≤ 2 * (vec_size l / 2) + 1) ∧
  (0 < K → vec_size l ≤ 1 → KHeap.is_leaf K l 0 = false).
Proof.
  intros Hi Hmax. pose proof max_size_lt as Hlt.
  assert (0 ≤ vec_size l) as Hpos by (unfold vec_size; lia).
  unfold BinaryHeap.is_leaf, KHeap.is_leaf, size. simpl nodes_.
  rewrite !Z.shiftr_div_pow2 by lia. change (2 ^ 1) with 2.
  pose proof (Z.div_mod (vec_size l) 2 ltac:(lia)) as Hdm.
  pose proof (Z.mod_pos_bound (vec_size l) 2 ltac:(lia)) as Hmod.
  rewrite (wrap_small (vec_size l / 2 + 1)) by lia.
  split; [|split; [|split]].
  - rewrite Z.leb_le. lia.
  - intros HK Hsz. rewrite wrap_small by lia. rewrite Z.ltb_lt.
    split.
    + intros Hq. pose proof (Z.div_mod (vec_size l - 2) K ltac:(lia)) as HdK.
      pose proof (Z.mod_pos_bound (vec_size l - 2) K HK). nia.
    + intros Hq. apply Z.div_lt_upper_bound; lia.
  - split; [apply Z.leb_gt|]; lia.
  - intros HK Hsz. apply Z.ltb_ge. apply Z.div_pos; [|done].
    unfold wrap. apply Z.mod_pos_bound. done.
Qed.

Lemma is_leaf_has_no_child_witness :
  (BinaryHeap.is_leaf [5; 6; 7; 8] 3 = true → vec_size [5; 6; 7; 8] ≤ 2 * 3 + 1) ∧
  (0 < 3 → 2 ≤ vec_size [5; 6; 7; 8] →
   KHeap.is_leaf 3 [5; 6; 7; 8] 3 = true ↔ vec_size [5; 6; 7; 8] ≤ 3 * 3 + 1) ∧
  (BinaryHeap.is_leaf [5; 6; 7; 8] (vec_size [5; 6; 7; 8] / 2) = false ∧
   vec_size [5; 6; 7; 8] ≤ 2 * (vec_size [5; 6; 7; 8] / 2) + 1) ∧
  (0 < 3 → vec_size [5; 6; 7; 8] ≤ 1 → KHeap.is_leaf 3 [5; 6; 7; 8] 0 = false).
Proof.
  apply (is_leaf_has_no_child 3 [5; 6; 7; 8] 3).
  - lia.
  - by vm_compute.
Defined.

(** * Further properties of the indexed priority queue *)

(** ** The sequence of a queue is a heap of its values *)

Section pq_projection.
Context {KeyT ValueT : Type} `{Countable ValueT} `{Ordered ValueT}.
Local Abbreviation pq := (@PriorityQueue.state KeyT ValueT _ _).
Variable comp : ValueT → ValueT → bool.
Variable C : HeapC.
Hypothesis C_ok : arity_in_range C.
Implicit Types (q : pq) (i j : nat) (v : ValueT).

Lemma pq_swap_any q i j :
  True → (i < length (nodes_ q))%nat → (j < length (nodes_ q))%nat → i ≠ j →
  ∃ q', swap_nodes (Z.of_nat i) (Z.of_nat j) q = Ok q' ∧ True ∧
        nodes_ q' = list_swap i j (nodes_ q).
Proof.
  intros _ Hi Hj _.
  destruct (lookup_lt_is_Some_2 _ _ Hi) as [a Ha].
  destruct (lookup_lt_is_Some_2 _ _ Hj) as [b Hb].
  eexists. split; [by apply pq_swap_nodes_eq|]. done.
Qed.

Lemma pq_heapify_down_nodes q i :
  (i ≤ length (PriorityQueue.pq_nodes q))%nat →
  vec_size (PriorityQueue.pq_nodes q) ≤ max_size →
  PriorityQueue.pq_nodes <$> heapify_down comp C (Z.of_nat i) q
  = heapify_down comp C (Z.of_nat i) (PriorityQueue.pq_nodes q).
Proof.
  intros Hi Hmax.
  destruct (heapify_down_refines comp C C_ok (λ _, True) pq_swap_any i q)
    as (q' & -> & _ & Hnodes); [done..|].
  rewrite plain_heapify_down by done. simpl. f_equal. exact Hnodes.
Qed.

Lemma pq_heapify_up_nodes q i :
  (i < length (PriorityQueue.pq_nodes q))%nat →
  vec_size (PriorityQueue.pq_nodes q) ≤ max_size →
  PriorityQueue.pq_nodes <$> heapify_up comp C (Z.of_nat i) q
  = heapify_up comp C (Z.of_nat i) (PriorityQueue.pq_nodes q).
Proof.
  intros Hi Hmax.
  destruct (heapify_up_refines (St:=pq) comp C C_ok (λ _ _, True)) with (i := i) (s := q)
    as (q' & -> & _ & Hnodes); [|done..|].
  { intros s k a b _ Hk Ha Hb _.
    destruct (pq_swap_any s k (parent_idx (arity C) k)) as (s' & ? & _ & ?);
      [done|by eapply lookup_lt_Some|by eapply lookup_lt_Some| |by exists s'].
    pose proof (parent_idx_lt' (arity C) (arity_pos C C_ok) k Hk). lia. }
  rewrite plain_heapify_up by done. simpl. f_equal. exact Hnodes.
Qed.

Lemma pq_build_heap_nodes q :
  vec_size (PriorityQueue.pq_nodes q) ≤ max_size →
  PriorityQueue.pq_nodes <$> build_heap comp C q
  = build_heap comp C (PriorityQueue.pq_nodes q).
Proof.
  intros Hmax.
  destruct (build_heap_refines comp C C_ok (λ _, True) pq_swap_any q)
    as (q' & -> & _ & Hnodes); [done..|].
  rewrite plain_build_heap by done. simpl. f_equal. exact Hnodes.
Qed.
End pq_projection.

Section pq_projection_ops.
Context {KeyT ValueT : Type} `{Countable ValueT} `{Ordered ValueT}.
Local Abbreviation pq := (@PriorityQueue.state KeyT ValueT _ _).
Variable HeapT : heap_type.
Variable C : HeapC.
Hypothesis C_ok : arity_in_range C.
Implicit Types (q : pq) (i j : nat) (v : ValueT) (key : KeyT).

Lemma pq_push_nodes q key v :
  PriorityQueue.pq_nodes <$> PriorityQueue.push HeapT C key v q
  = push (Compare HeapT) C v (PriorityQueue.pq_nodes q).
Proof.
  unfold PriorityQueue.push, push, vec_emplace_back, PriorityQueue.size, size.
  simpl nodes_. simpl set_nodes_. simpl PriorityQueue.pq_nodes.
  destruct (max_size <=? vec_size (PriorityQueue.pq_nodes q)) eqn:Hmax; [done|].
  apply Z.leb_gt in Hmax. rewrite !bind_Ok. unfold vec_size in *.
  apply (pq_heapify_up_nodes (Compare HeapT) C C_ok); simpl.
  - rewrite length_app. simpl. lia.
  - unfold vec_size. rewrite length_app. simpl. lia.
Qed.

Lemma pq_pop_nodes q :
  PriorityQueue.pq_nodes q ≠ [] → vec_size (PriorityQueue.pq_nodes q) ≤ max_size →
  PriorityQueue.pq_nodes <$> PriorityQueue.pop HeapT C q
  = pop (Compare HeapT) C (PriorityQueue.pq_nodes q).
Proof.
  intros Hne Hmax. destruct (PriorityQueue.pq_nodes q) as [|x l] eqn:Hq; [done|].
  unfold PriorityQueue.pop, pop, vec_front_assign_back, PriorityQueue.size, size.
  simpl nodes_. simpl set_nodes_. rewrite Hq. unfold vec_size in *. simpl length in *.
  rewrite (proj2 (Z.ltb_lt 0 _)) by lia. simpl assert. rewrite bind_Ok.
  change (vec_at (x :: l) 0) with (Ok x). rewrite !bind_Ok.
  destruct (last (x :: l)) as [b|] eqn:Hlast; [|by apply last_None in Hlast].
  rewrite !bind_Ok. cbv zeta. simpl PriorityQueue.pq_nodes.
  simpl PriorityQueue.key_map_. simpl PriorityQueue.index_map_.
  assert (length (vec_pop_back (<[0%nat:=b]> (x :: l))) = length l) as Hlen2.
  { unfold vec_pop_back. rewrite length_take, length_insert. simpl. lia. }
  rewrite Hlen2.
  destruct l as [|y l].
  { simpl. change (vec_pop_back [b]) with (@nil ValueT).
    by rewrite (plain_heapify_down (Compare HeapT) C C_ok 0 []) by (simpl; lia || done). }
  simpl length. rewrite (proj2 (Z.ltb_lt 0 _)) by lia.
  change (<[0%nat:=b]> (x :: y :: l)) with (b :: y :: l) in *.
  change (vec_pop_back (b :: y :: l)) with (b :: vec_pop_back (y :: l)) in *.
  change (head (b :: vec_pop_back (y :: l))) with (Some b). cbv iota.
  set (q1 := PriorityQueue.mk_state _ _ _).
  apply (pq_heapify_down_nodes (Compare HeapT) C C_ok q1 0); subst q1;
    simpl PriorityQueue.pq_nodes.
  - lia.
  - unfold vec_size. rewrite Hlen2. simpl length in *. lia.
Qed.

Lemma pq_construct_nodes IsHeap (keys : list KeyT) (values : list ValueT) :
  length keys = length values → vec_size values ≤ max_size →
  PriorityQueue.pq_nodes <$> PriorityQueue.construct HeapT C IsHeap keys values
  = heapify (Compare HeapT) C IsHeap values.
Proof.
  intros Hlen Hmax. unfold PriorityQueue.construct, PriorityQueue.build_key_map.
  unfold vec_size at 1 2. rewrite Hlen, Z.eqb_refl. simpl assert. rewrite !bind_Ok.
  unfold heapify. destruct IsHeap; [done|].
  by apply (pq_build_heap_nodes (Compare HeapT) C C_ok).
Qed.
End pq_projection_ops.

(** X7.  The sequence of values of a priority queue evolves exactly like a plain
    heap over the values: construction, [push] and [pop] (on a non-empty
    queue) produce the vector that [heapify], [Heap::push] and [Heap::pop]
    produce, errors included.  The keys play no part in the ordering. *)
Theorem pq_values_evolve_as_heap {KeyT ValueT : Type} `{Countable ValueT}
    `{Ordered ValueT} (HeapT : heap_type) (C : HeapC) (IsHeap : bool)
    (keys : list KeyT) (values : list ValueT) (key : KeyT) (v : ValueT)
    (q : @PriorityQueue.state KeyT ValueT _ _) :
  arity_in_range C →
  (length keys = length values → vec_size values ≤ max_size →
   PriorityQueue.pq_nodes <$> PriorityQueue.construct HeapT C IsHeap keys values
   = heapify (Compare HeapT) C IsHeap values) ∧
  PriorityQueue.pq_nodes <$> PriorityQueue.push HeapT C key v q
  = push (Compare HeapT) C v (PriorityQueue.pq_nodes q) ∧
  (PriorityQueue.pq_nodes q ≠ [] → vec_size (PriorityQueue.pq_nodes q) ≤ max_size →
   PriorityQueue.pq_nodes <$> PriorityQueue.pop HeapT C q
   = pop (Compare HeapT) C (PriorityQueue.pq_nodes q)).
Proof.
  intros HC. split; [|split].
  - by apply pq_construct_nodes.
  - by apply pq_push_nodes.
  - by apply pq_pop_nodes.
Qed.

Lemma pq_values_evolve_as_heap_witness :
  (length [5; 4; 1] = length [109; 105; 110] → vec_size [109; 105; 110] ≤ max_size →
   PriorityQueue.pq_nodes <$>
     PriorityQueue.construct min_heap (k_heap 3) false [5; 4; 1] [109; 105; 110]
   = heapify (Compare min_heap) (k_heap 3) false [109; 105; 110]) ∧
  PriorityQueue.pq_nodes <$> PriorityQueue.push min_heap (k_heap 3) 9 1 example_queue
  = push (Compare min_heap) (k_heap 3) 1 (PriorityQueue.pq_nodes example_queue) ∧
  (PriorityQueue.pq_nodes example_queue ≠ [] →
   vec_size (PriorityQueue.pq_nodes example_queue) ≤ max_size →
   PriorityQueue.pq_nodes <$> PriorityQueue.pop min_heap (k_heap 3) example_queue
   = pop (Compare min_heap) (k_heap 3) (PriorityQueue.pq_nodes example_queue)).
Proof.
  apply (pq_values_evolve_as_heap min_heap (k_heap 3) false [5; 4; 1] [109; 105; 110]
           9 1 example_queue).
  simpl. lia.
Defined.

(** ** [update_key] inside a valid heap *)

Lemma consistent_same_index_map {KeyT ValueT : Type} `{Countable ValueT}
    (q q' : @PriorityQueue.state KeyT ValueT _ _) :
  maps_consistent q → maps_consistent q' →
  PriorityQueue.pq_nodes q' = PriorityQueue.pq_nodes q →
  PriorityQueue.index_map_ q' = PriorityQueue.index_map_ q.
Proof.
  intros [Hidx _] [Hidx' _] Hnodes. apply map_eq. intros v.
  apply option_eq. intros z. rewrite Hidx, Hidx', Hnodes. done.
Qed.

Lemma update_key_in_heap {KeyT ValueT : Type} `{Countable ValueT}
    `{Ordered ValueT} (HeapT : heap_type) (C : HeapC) (key : KeyT) (v : ValueT)
    (q : @PriorityQueue.state KeyT ValueT _ _) :
  arity_in_range C → maps_consistent q →
  is_heap (Compare HeapT) C (PriorityQueue.pq_nodes q) →
  vec_size (PriorityQueue.pq_nodes q) ≤ max_size →
  PriorityQueue.contains v q = true →
  PriorityQueue.update_key HeapT C key v q
  = Ok (with_keys (<[v:=key]> (PriorityQueue.key_map_ q)) q).
Proof.
  intros HC Hc Hheap Hmax Hv. apply (consistent_contains q v Hc) in Hv.
  pose proof Hv as [n Hn]%list_elem_of_lookup.
  pose proof (consistent_index q n v Hc Hn) as Hidx.
  rewrite (update_key_sift HeapT C key v q (Z.of_nat n) Hidx).
  pose proof (lookup_lt_Some _ _ _ Hn) as Hlt.
  assert (∀ q', maps_consistent q' →
            PriorityQueue.key_map_ q' = PriorityQueue.key_map_ q →
            PriorityQueue.pq_nodes q' = PriorityQueue.pq_nodes q → q' = q) as Hsame.
  { intros q' Hc' Hkm Hnodes.
    pose proof (consistent_same_index_map q q' Hc Hc' Hnodes) as Him.
    destruct q, q'. simpl in *. by subst. }
  destruct HeapT.
  - destruct (pq_heapify_up (Compare min_heap) C HC q n)
      as (q' & -> & Hc' & Hkm & Hnodes); [done..|].
    rewrite sift_up_heap_id in Hnodes by (by apply arity_pos || done).
    by rewrite (Hsame q').
  - destruct (pq_heapify_down (Compare max_heap) C HC q n)
      as (q' & -> & Hc' & Hkm & Hnodes); [done|lia|done|].
    rewrite sift_down_heap in Hnodes by done.
    by rewrite (Hsame q').
Qed.

(** X8.  On a queue whose maps are consistent and whose sequence is a valid
    heap, [update_key] of a present value moves nothing: sequence, index map
    and top are unchanged, only the key of the value is replaced. *)
Theorem update_key_keeps_order {KeyT ValueT : Type} `{Countable ValueT}
    `{Ordered ValueT} (HeapT : heap_type) (C : HeapC) (key : KeyT) (v : ValueT)
    (q : @PriorityQueue.state KeyT ValueT _ _) :
  arity_in_range C → maps_consistent q →
  is_heap (Compare HeapT) C (PriorityQueue.pq_nodes q) →
  vec_size (PriorityQueue.pq_nodes q) ≤ max_size →
  PriorityQueue.contains v q = true →
  ∃ q', PriorityQueue.update_key HeapT C key v q = Ok q' ∧
        PriorityQueue.pq_nodes q' = PriorityQueue.pq_nodes q ∧
        PriorityQueue.index_map_ q' = PriorityQueue.index_map_ q ∧
        PriorityQueue.key_map_ q' = <[v:=key]> (PriorityQueue.key_map_ q) ∧
        PriorityQueue.top q' = PriorityQueue.top q.
Proof.
  intros HC Hc Hheap Hmax Hv. eexists. split; [by apply update_key_in_heap|]. done.
Qed.

Lemma update_key_keeps_order_witness :
  ∃ q', PriorityQueue.update_key min_heap binary_heap 1 7 example_queue = Ok q' ∧
        PriorityQueue.pq_nodes q' = PriorityQueue.pq_nodes example_queue ∧
        PriorityQueue.index_map_ q' = PriorityQueue.index_map_ example_queue ∧
        PriorityQueue.key_map_ q' = <[7:=1]> (PriorityQueue.key_map_ example_queue) ∧
        PriorityQueue.top q' = PriorityQueue.top example_queue.
Proof.
  apply (update_key_keeps_order min_heap binary_heap 1 7 example_queue).
  - exact I.
  - apply maps_consistentb_sound. by vm_compute.
  - apply heap_propertyb_sound. vm_compute. reflexivity.
  - by vm_compute.
  - by vm_compute.
Defined.

(** ** The heap property along a run of the queue *)

Section pq_heap_traces.
Context {KeyT ValueT : Type} `{Countable ValueT} `{Ordered ValueT}.
Local Abbreviation pq := (@PriorityQueue.state KeyT ValueT _ _).
Variable HeapT : heap_type.
Variable C : HeapC.
Hypothesis C_ok : arity_in_range C.
Context `{!StrictWeakOrder (Compare (T:=ValueT) HeapT)}.
Implicit Types (q : pq) (v : ValueT) (ops : list (@pq_op KeyT ValueT)).



End pq_heap_traces.





(** ** Emptying a queue *)

Section pq_extraction.
Context {KeyT ValueT : Type} `{Countable ValueT} `{Ordered ValueT}.
Local Abbreviation pq := (@PriorityQueue.state KeyT ValueT _ _).
Variable HeapT : heap_type.
Variable C : HeapC.
Hypothesis C_ok : arity_in_range C.
Context `{!StrictWeakOrder (Compare (T:=ValueT) HeapT)}.
Implicit Types (q : pq) (v : ValueT) (kvs : list (KeyT * ValueT)).

Lemma top_key_value_cons q x l :
  maps_consistent q → PriorityQueue.pq_nodes q = x :: l →
  ∃ k, PriorityQueue.key_map_ q !! x = Some k ∧
       PriorityQueue.top_key_value q = Ok (k, x).
Proof.
  intros [_ Hkey] Hq.
  destruct (proj2 (Hkey x)) as [k Hk]; [rewrite Hq; by left|].
  exists k. split; [done|].
  unfold PriorityQueue.top_key_value, PriorityQueue.top, top, PriorityQueue.key_at, umap_at.
  simpl nodes_. rewrite Hq. change (vec_at (x :: l) 0) with (Ok x).
  rewrite bind_Ok. by rewrite Hk.
Qed.

End pq_extraction.



(** ** Looking at the top, removing it, adding a new value *)

(** X11.  On an empty queue [top] and [top_key_value] fail with the range error
    of [at(0)] while [pop] fails its assertion; on a non-empty consistent
    queue [top] is the first slot and [top_key_value] pairs it with its
    key. *)
Theorem top_key_value_of_queue {KeyT ValueT : Type} `{Countable ValueT}
    `{Ordered ValueT} (HeapT : heap_type) (C : HeapC)
    (q : @PriorityQueue.state KeyT ValueT _ _) :
  maps_consistent q →
  (PriorityQueue.pq_nodes q = [] →
   PriorityQueue.empty q = true ∧
   PriorityQueue.top q = Err out_of_range ∧
   PriorityQueue.top_key_value q = Err out_of_range ∧
   PriorityQueue.pop HeapT C q = Err assertion_failure) ∧
  (∀ x l, PriorityQueue.pq_nodes q = x :: l →
   PriorityQueue.empty q = false ∧
   PriorityQueue.top q = Ok x ∧
   ∃ k, PriorityQueue.key_at x q = Ok k ∧
        PriorityQueue.top_key_value q = Ok (k, x)).
Proof.
  intros Hc. split.
  - intros Hq. split; [|split; [|split]].
    + unfold PriorityQueue.empty, empty, size. simpl nodes_. by rewrite Hq.
    + unfold PriorityQueue.top, top. simpl nodes_. by rewrite Hq.
    + unfold PriorityQueue.top_key_value, PriorityQueue.top, top. simpl nodes_.
      by rewrite Hq.
    + by apply pq_pop_empty.
  - intros x l Hq. split; [|split].
    + unfold PriorityQueue.empty, empty, size. simpl nodes_. by rewrite Hq.
    + unfold PriorityQueue.top, top. simpl nodes_. by rewrite Hq.
    + destruct (top_key_value_cons q x l Hc Hq) as (k & Hk & Htop).
      exists k. split; [|done]. unfold PriorityQueue.key_at, umap_at. by rewrite Hk.
Qed.

Lemma top_key_value_of_queue_witness :
  (PriorityQueue.pq_nodes example_queue = [] →
   PriorityQueue.empty example_queue = true ∧
   PriorityQueue.top example_queue = Err out_of_range ∧
   PriorityQueue.top_key_value example_queue = Err out_of_range ∧
   PriorityQueue.pop min_heap binary_heap example_queue = Err assertion_failure) ∧
  (∀ x l, PriorityQueue.pq_nodes example_queue = x :: l →
   PriorityQueue.empty example_queue = false ∧
   PriorityQueue.top example_queue = Ok x ∧
   ∃ k, PriorityQueue.key_at x example_queue = Ok k ∧
        PriorityQueue.top_key_value example_queue = Ok (k, x)).
Proof.
  apply (top_key_value_of_queue min_heap binary_heap example_queue).
  apply maps_consistentb_sound. by vm_compute.
Defined.

Section pq_membership.
Context {KeyT ValueT : Type} `{Countable ValueT} `{Ordered ValueT}.
Local Abbreviation pq := (@PriorityQueue.state KeyT ValueT _ _).
Implicit Types (q : pq) (v w : ValueT).

Lemma contains_ext q q' w :
  maps_consistent q → maps_consistent q' →
  (w ∈ PriorityQueue.pq_nodes q' ↔ w ∈ PriorityQueue.pq_nodes q) →
  PriorityQueue.contains w q' = PriorityQueue.contains w q.
Proof.
  intros Hc Hc' Hiff. apply eq_true_iff_eq.
  by rewrite !consistent_contains.
Qed.

Lemma contains_false q w :
  maps_consistent q → PriorityQueue.contains w q = false ↔ w ∉ PriorityQueue.pq_nodes q.
Proof.
  intros Hc. rewrite <- (consistent_contains q w Hc).
  by destruct (PriorityQueue.contains w q).
Qed.
End pq_membership.

(** X12.  [pop] on a consistent non-empty queue removes the top value only:
    afterwards [contains] is false and [key_at] fails for it, every other
    value keeps its membership and its key, and [size] is one less. *)
Theorem pq_pop_removes_top {KeyT ValueT : Type} `{Countable ValueT}
    `{Ordered ValueT} (HeapT : heap_type) (C : HeapC)
    (q : @PriorityQueue.state KeyT ValueT _ _) (x : ValueT) (l : list ValueT) :
  arity_in_range C → maps_consistent q →
  vec_size (PriorityQueue.pq_nodes q) ≤ max_size →
  PriorityQueue.pq_nodes q = x :: l →
  ∃ q', PriorityQueue.pop HeapT C q = Ok q' ∧
        PriorityQueue.size q' = PriorityQueue.size q - 1 ∧
        PriorityQueue.contains x q' = false ∧
        PriorityQueue.key_at x q' = Err out_of_range ∧
        ∀ w, w ≠ x →
          PriorityQueue.contains w q' = PriorityQueue.contains w q ∧
          PriorityQueue.key_at w q' = PriorityQueue.key_at w q.
Proof.
  intros HC Hc Hmax Hq.
  destruct (pq_pop_consistent HeapT C HC q x l Hc Hq Hmax)
    as (q' & Hpop & Hc' & Hmax' & Hkm & Hperm).
  pose proof (consistent_NoDup q Hc) as Hnd. rewrite Hq in Hnd.
  apply NoDup_cons in Hnd as [Hx _].
  exists q'. split; [done|]. split; [|split; [|split]].
  - unfold PriorityQueue.size, size, vec_size. simpl nodes_.
    rewrite Hperm, Hq. simpl. lia.
  - apply (contains_false q' x Hc'). by rewrite Hperm.
  - unfold PriorityQueue.key_at, umap_at. by rewrite Hkm, lookup_delete_eq.
  - intros w Hw. split.
    + apply contains_ext; [done..|]. rewrite Hperm, Hq, elem_of_cons.
      split; [by right|]. by intros [?|?].
    + unfold PriorityQueue.key_at, umap_at. by rewrite Hkm, lookup_delete_ne.
Qed.

Lemma pq_pop_removes_top_witness :
  ∃ q', PriorityQueue.pop min_heap (k_heap 3) example_queue = Ok q' ∧
        PriorityQueue.size q' = PriorityQueue.size example_queue - 1 ∧
        PriorityQueue.contains 3 q' = false ∧
        PriorityQueue.key_at 3 q' = Err out_of_range ∧
        ∀ w, w ≠ 3 →
          PriorityQueue.contains w q' = PriorityQueue.contains w example_queue ∧
          PriorityQueue.key_at w q' = PriorityQueue.key_at w example_queue.
Proof.
  apply (pq_pop_removes_top min_heap (k_heap 3) example_queue 3 [7]).
  - simpl. lia.
  - apply maps_consistentb_sound. by vm_compute.
  - by vm_compute.
  - reflexivity.
Defined.

(** X13.  [push] of a value the queue does not hold (below [max_size]) makes it a
    member with the given key, leaves membership and key of every other
    value alone, and increases [size] by one. *)
Theorem pq_push_new_value {KeyT ValueT : Type} `{Countable ValueT}
    `{Ordered ValueT} (HeapT : heap_type) (C : HeapC) (key : KeyT) (v : ValueT)
    (q : @PriorityQueue.state KeyT ValueT _ _) :
  arity_in_range C → maps_consistent q →
  vec_size (PriorityQueue.pq_nodes q) < max_size →
  PriorityQueue.contains v q = false →
  ∃ q', PriorityQueue.push HeapT C key v q = Ok q' ∧
        PriorityQueue.size q' = PriorityQueue.size q + 1 ∧
        PriorityQueue.contains v q' = true ∧
        PriorityQueue.key_at v q' = Ok key ∧
        ∀ w, w ≠ v →
          PriorityQueue.contains w q' = PriorityQueue.contains w q ∧
          PriorityQueue.key_at w q' = PriorityQueue.key_at w q.
Proof.
  intros HC Hc Hmax Hv.
  destruct (pq_push_consistent HeapT C HC q v key Hc Hv Hmax)
    as (q' & Hpush & Hc' & Hmax' & Hkm & Hperm).
  exists q'. split; [done|]. split; [|split; [|split]].
  - unfold PriorityQueue.size, size, vec_size. simpl nodes_.
    rewrite Hperm. simpl length. lia.
  - apply (consistent_contains q' v Hc'). rewrite Hperm. by left.
  - unfold PriorityQueue.key_at, umap_at. by rewrite Hkm, lookup_insert_eq.
  - intros w Hw. split.
    + apply contains_ext; [done..|]. rewrite Hperm, elem_of_cons.
      split; [by intros [?|?]|by right].
    + unfold PriorityQueue.key_at, umap_at. by rewrite Hkm, lookup_insert_ne.
Qed.

Lemma pq_push_new_value_witness :
  ∃ q', PriorityQueue.push max_heap binary_heap 30 5 example_queue = Ok q' ∧
        PriorityQueue.size q' = PriorityQueue.size example_queue + 1 ∧
        PriorityQueue.contains 5 q' = true ∧
        PriorityQueue.key_at 5 q' = Ok 30 ∧
        ∀ w, w ≠ 5 →
          PriorityQueue.contains w q' = PriorityQueue.contains w example_queue ∧
          PriorityQueue.key_at w q' = PriorityQueue.key_at w example_queue.
Proof.
  apply (pq_push_new_value max_heap binary_heap 30 5 example_queue).
  - exact I.
  - apply maps_consistentb_sound. by vm_compute.
  - by vm_compute.
  - by vm_compute.
Defined.

(** ** Construction from unequal lengths and from repeated values *)

(** X14.  Construction from key and value vectors of different lengths fails the
    assertion of [build_key_map], whatever the heap class and the [IsHeap]
    flag. *)
Theorem construct_length_mismatch {KeyT ValueT : Type} `{Countable ValueT}
    `{Ordered ValueT} (HeapT : heap_type) (C : HeapC) (IsHeap : bool)
    (keys : list KeyT) (values : list ValueT) :
  length keys ≠ length values →
  PriorityQueue.build_key_map keys values = Err assertion_failure ∧
  PriorityQueue.construct HeapT C IsHeap keys values = Err assertion_failure ∧
  (HeapC_ok C →
   make_priority_queue HeapT C IsHeap keys values = Err assertion_failure).
Proof.
  intros Hlen.
  assert (PriorityQueue.build_key_map keys values = Err assertion_failure) as Hkm.
  { unfold PriorityQueue.build_key_map, vec_size.
    rewrite (proj2 (Z.eqb_neq _ _)) by lia. done. }
  assert (PriorityQueue.construct HeapT C IsHeap keys values = Err assertion_failure)
    as Hc by (unfold PriorityQueue.construct; by rewrite Hkm).
  split; [done|]. split; [done|]. intros Hok. unfold make_priority_queue.
  destruct C as [|K]; [done|]. simpl in Hok. by rewrite Hok.
Qed.

Lemma construct_length_mismatch_witness :
  PriorityQueue.build_key_map [5; 4] [109; 105; 110] = Err assertion_failure ∧
  PriorityQueue.construct max_heap (k_heap 4) false [5; 4] [109; 105; 110]
  = Err assertion_failure ∧
  (HeapC_ok (k_heap 4) →
   make_priority_queue max_heap (k_heap 4) false [5; 4] [109; 105; 110]
   = Err assertion_failure).
Proof.
  apply (construct_length_mismatch max_heap (k_heap 4) false [5; 4] [109; 105; 110]).
  simpl. lia.
Defined.

Section fold_insert_last.
Context {V A P : Type} `{Countable V}.
Variable f : gmap V A → P → gmap V A.
Variable g : P → V.
Variable h : P → A.
Hypothesis f_insert : ∀ m p, f m p = <[g p:=h p]> m.

Lemma fold_insert_last (ps : list P) (acc : gmap V A) (i : nat) (p : P) :
  ps !! i = Some p →
  (∀ j p', (i < j)%nat → ps !! j = Some p' → g p' ≠ g p) →
  fold_left f ps acc !! g p = Some (h p).
Proof.
  revert i. induction ps as [|p0 ps IH] using rev_ind; intros i Hi Hlast; [done|].
  rewrite fold_left_app. simpl. rewrite f_insert.
  apply lookup_app_Some in Hi as [Hi|[Hlen Hi]].
  - pose proof (lookup_lt_Some _ _ _ Hi) as Hlt.
    rewrite lookup_insert_ne.
    + apply (IH i Hi). intros j p' Hj Hp'. apply (Hlast j p' Hj).
      by apply lookup_app_l_Some.
    + apply (Hlast (length ps) p0 Hlt).
      by rewrite lookup_app_r, Nat.sub_diag by lia.
  - apply list_lookup_singleton_Some in Hi as [_ ->]. by rewrite lookup_insert_eq.
Qed.
End fold_insert_last.

(** X15.  When a value occurs more than once among the constructor's inputs, the
    maps keep its last occurrence: [build_key_map] stores the key given with
    the last occurrence and [build_index_map] its last index. *)
Theorem construct_last_occurrence_wins {KeyT ValueT : Type} `{Countable ValueT}
    (keys : list KeyT) (values : list ValueT)
    (i : nat) (k : KeyT) (v : ValueT) :
  length keys = length values → vec_size values ≤ max_size →
  keys !! i = Some k → values !! i = Some v →
  (∀ j, (i < j)%nat → values !! j ≠ Some v) →
  ∃ km, PriorityQueue.build_key_map keys values = Ok km ∧
        km !! v = Some k ∧
        PriorityQueue.build_index_map values !! v = Some (Z.of_nat i).
Proof.
  intros Hlen Hmax Hk Hv Hlast. pose proof max_size_lt as Hlt.
  unfold PriorityQueue.build_key_map, PriorityQueue.build_index_map.
  unfold vec_size at 1 2. rewrite Hlen, Z.eqb_refl. simpl assert. rewrite bind_Ok.
  eexists. split; [done|]. split.
  - apply (fold_insert_last _ snd fst) with (i := i) (p := (k, v)).
    + by intros ? [].
    + by apply lookup_zip.
    + intros j [k' v'] Hj [_ Hv']%lookup_zip. simpl. intros ->.
      by apply (Hlast j Hj).
  - pose proof (lookup_lt_Some _ _ _ Hv) as Hi. unfold vec_size in *.
    apply (fold_insert_last _ fst snd) with (i := i) (p := (v, Z.of_nat i)).
    + by intros ? [].
    + apply lookup_zip. split; [done|]. apply lookup_range; lia.
    + intros j [v' z'] Hj [Hv' _]%lookup_zip. simpl. intros ->.
      by apply (Hlast j Hj).
Qed.

Lemma construct_last_occurrence_wins_witness :
  ∃ km, PriorityQueue.build_key_map [10; 20; 30] [7; 8; 7] = Ok km ∧
        km !! 7 = Some 30 ∧
        PriorityQueue.build_index_map [7; 8; 7] !! 7 = Some (Z.of_nat 2).
Proof.
  apply (construct_last_occurrence_wins (KeyT:=Z) [10; 20; 30] [7; 8; 7] 2 30 7).
  - reflexivity.
  - by vm_compute.
  - reflexivity.
  - reflexivity.
  - intros j Hj. destruct j as [|[|[|j]]]; (lia || done).
Defined.



(** * The utilities *)

(** ** [range] and [zip] *)

Lemma lookup_range_wrap (size start : Z) (i : nat) :
  range size start !! i
  = if decide (Z.of_nat i < size) then Some (wrap (start + Z.of_nat i)) else None.
Proof.
  unfold range. rewrite list_lookup_fmap. case_decide as Hi.
  - by rewrite lookup_seqZ_lt by lia.
  - by rewrite lookup_seqZ_ge by lia.
Qed.

(** X16.  [range(size, start)] has [size] elements, the i-th being [start + i]
    reduced modulo [2^64]; without overflow it is the ascending run from
    [start], and its elements are pairwise distinct. *)
Theorem range_elements (size start : Z) :
  0 ≤ size →
  length (range size start) = Z.to_nat size ∧
  (∀ i : nat, Z.of_nat i < size →
     range size start !! i = Some (wrap (start + Z.of_nat i))) ∧
  (0 ≤ start → start + size ≤ 2 ^ 64 → range size start = seqZ start size) ∧
  (size ≤ 2 ^ 64 → NoDup (range size start)).
Proof.
  intros Hsize. split; [apply length_range|]. split; [|split].
  - intros i Hi. by rewrite lookup_range_wrap, decide_True.
  - intros Hstart Hb. apply list_eq. intros i. rewrite lookup_range_wrap.
    case_decide as Hi.
    + rewrite lookup_seqZ_lt by lia. by rewrite wrap_small by lia.
    + by rewrite lookup_seqZ_ge by lia.
  - intros Hb. apply NoDup_alt. intros i j z Hi Hj.
    rewrite lookup_range_wrap in Hi, Hj.
    case_decide as Hi'; [|done]. case_decide as Hj'; [|done].
    injection Hi as <-. injection Hj as Hj. unfold wrap, size_t_modulus in Hj.
    assert ((start + Z.of_nat j - (start + Z.of_nat i)) mod 2 ^ 64 = 0) as Hd.
    { rewrite Zminus_mod, Hj, Z.sub_diag. done. }
    replace (start + Z.of_nat j - (start + Z.of_nat i))
      with (Z.of_nat j - Z.of_nat i) in Hd by lia.
    apply Z.mod_divide in Hd; [|lia]. destruct Hd as [c Hc]. nia.
Qed.

Lemma range_elements_witness :
  length (range 4 100) = Z.to_nat 4 ∧
  (∀ i : nat, Z.of_nat i < 4 → range 4 100 !! i = Some (wrap (100 + Z.of_nat i))) ∧
  (0 ≤ 100 → 100 + 4 ≤ 2 ^ 64 → range 4 100 = seqZ 100 4) ∧
  (4 ≤ 2 ^ 64 → NoDup (range 4 100)).
Proof. apply (range_elements 4 100). lia. Defined.

Lemma length_zip {A B} (a : list A) (b : list B) :
  length (zip a b) = (length a `min` length b)%nat.
Proof.
  revert b. induction a as [|x a IH]; intros [|y b]; simpl; [done..|].
  by rewrite IH.
Qed.

Lemma zip_take {A B} (a : list A) (b : list B) :
  (zip a b).*1 = take (length b) a ∧ (zip a b).*2 = take (length a) b.
Proof.
  revert b. induction a as [|x a IH]; intros [|y b]; [done..|].
  destruct (IH b) as [H1 H2]. simpl zip. rewrite !fmap_cons. simpl length.
  simpl take. by rewrite H1, H2.
Qed.

(** X17.  [zip] stops at the end of the shorter range: it has as many pairs as
    the shorter input, its components are the corresponding prefixes of the
    inputs, and its i-th pair holds the i-th elements of both. *)
Theorem zip_stops_at_the_shorter {A B : Type} (a : list A) (b : list B) :
  length (zip a b) = (length a `min` length b)%nat ∧
  (zip a b).*1 = take (length b) a ∧
  (zip a b).*2 = take (length a) b ∧
  (∀ i x y, zip a b !! i = Some (x, y) ↔ a !! i = Some x ∧ b !! i = Some y).
Proof.
  split; [apply length_zip|]. split; [apply zip_take|]. split; [apply zip_take|].
  intros i x y. apply lookup_zip.
Qed.

(** X18.  Zipping a vector with the range of its size, as [build_index_map] and
    [init_index_map] do, pairs every element with its own index (offset by
    [start], modulo [2^64]). *)
Theorem zip_range_enumerates {T : Type} (l : list T) (start : Z) :
  zip l (range (vec_size l) start)
  = imap (λ i x, (x, wrap (start + Z.of_nat i))) l.
Proof.
  apply list_eq. intros i. apply option_eq. intros [x z].
  rewrite lookup_zip, list_lookup_imap, lookup_range_wrap. unfold vec_size.
  destruct (l !! i) as [x'|] eqn:Hx; simpl.
  - pose proof (lookup_lt_Some _ _ _ Hx). rewrite decide_True by lia.
    split; [by intros [[= ->] [= ->]]|by intros [= -> ->]].
  - split; [by intros []|done].
Qed.

(** ** [resize] and [shift_to_value] *)

(** X19.  [resize(container, amount)] erases the last [amount] elements:
    [size - amount] elements remain, which is [amount] elements only if the
    container held twice as many.  An [amount] larger than the size forms
    an iterator before [begin()]. *)
Theorem resize_erases_amount {T : Type} (container : list T) (amount : Z) :
  (0 ≤ amount ≤ vec_size container →
   ∃ kept erased,
     resize container amount = Ok kept ∧
     container = kept ++ erased ∧
     vec_size erased = amount ∧
     vec_size kept = vec_size container - amount ∧
     (vec_size kept = amount ↔ vec_size container = 2 * amount)) ∧
  (vec_size container < amount → resize container amount = Err undefined_behaviour).
Proof.
  unfold resize, vec_size. split.
  - intros Hamount.
    rewrite (proj2 (Z.leb_le 0 _)), (proj2 (Z.leb_le amount _)) by lia. simpl.
    set (n := Z.to_nat (Z.of_nat (length container) - amount)).
    exists (take n container), (drop n container).
    split; [done|]. split; [by rewrite take_drop|].
    rewrite length_take, length_drop. subst n. lia.
  - intros Hamount. rewrite (proj2 (Z.leb_gt amount _)) by lia.
    by rewrite andb_false_r.
Qed.

Section shift_to_value_facts.
Context {T : Type} `{EqDecision T}.
Implicit Types (l : list T) (v : T).

Lemma find_offset_app l1 v l2 :
  v ∉ l1 → find_offset v (l1 ++ v :: l2) = length l1.
Proof.
  induction l1 as [|x l1 IH]; intros Hv; simpl.
  - by rewrite decide_True.
  - apply not_elem_of_cons in Hv as [Hx Hv].
    rewrite decide_False by done. by rewrite IH.
Qed.

Lemma find_offset_absent l v : v ∉ l → find_offset v l = length l.
Proof.
  induction l as [|x l IH]; intros Hv; simpl; [done|].
  apply not_elem_of_cons in Hv as [Hx Hv].
  rewrite decide_False by done. by rewrite IH.
Qed.

Lemma elem_of_first_split l v :
  v ∈ l → ∃ l1 l2, l = l1 ++ v :: l2 ∧ v ∉ l1.
Proof.
  induction l as [|x l IH]; intros Hv; [by apply elem_of_nil in Hv|].
  destruct (decide (x = v)) as [->|Hx].
  - exists [], l. split; [done|]. apply not_elem_of_nil.
  - apply elem_of_cons in Hv as [->|Hv]; [done|].
    destruct (IH Hv) as (l1 & l2 & -> & Hl1).
    exists (x :: l1), l2. split; [done|].
    apply not_elem_of_cons. split; [congruence|done].
Qed.
End shift_to_value_facts.

(** X20.  [shift_to_value] rotates the container so that the first occurrence of
    [value] comes first, the elements before it moving to the end in order;
    the result is a permutation, a container without the value is left
    unchanged, and shifting twice is shifting once. *)
Theorem shift_to_value_rotates {T : Type} `{EqDecision T} (l : list T) (v : T) :
  shift_to_value l v ≡ₚ l ∧
  (∀ l1 l2, l = l1 ++ v :: l2 → v ∉ l1 → shift_to_value l v = v :: l2 ++ l1) ∧
  (v ∈ l → head (shift_to_value l v) = Some v) ∧
  (v ∉ l → shift_to_value l v = l) ∧
  shift_to_value (shift_to_value l v) v = shift_to_value l v.
Proof.
  assert (∀ l1 l2, v ∉ l1 → shift_to_value (l1 ++ v :: l2) v = v :: l2 ++ l1) as Hsplit.
  { intros l1 l2 Hv. unfold shift_to_value, std_rotate.
    rewrite find_offset_app by done.
    by rewrite drop_app_length, take_app_length. }
  assert (v ∉ l → shift_to_value l v = l) as Habsent.
  { intros Hv. unfold shift_to_value, std_rotate. rewrite find_offset_absent by done.
    by rewrite drop_all, firstn_all. }
  split; [|split; [|split; [|split]]].
  - unfold shift_to_value, std_rotate.
    by rewrite Permutation_app_comm, take_drop.
  - intros l1 l2 -> Hv. by apply Hsplit.
  - intros (l1 & l2 & -> & Hv)%elem_of_first_split. by rewrite Hsplit.
  - done.
  - destruct (decide (v ∈ l)) as [Hin|Hnotin].
    + apply elem_of_first_split in Hin as (l1 & l2 & -> & Hv).
      rewrite Hsplit by done.
      pose proof (Hsplit [] (l2 ++ l1) (not_elem_of_nil v)) as Hs.
      simpl in Hs. by rewrite app_nil_r in Hs.
    + by rewrite !Habsent.
Qed.



(** * The sparse byte set *)


Section sparse_byte_set.
Import SparseByteSet.
Implicit Types (s : state) (b byte : Z) (k : nat).

Lemma sbs_lookup_byte (l : list Z) b :
  length l = Z.to_nat capacity → is_byte b → ∃ z, l !! Z.to_nat b = Some z.
Proof.
  intros Hlen Hb. apply lookup_lt_is_Some_2. unfold is_byte, capacity in *. lia.
Qed.

Lemma sbs_members_lookup s k b :
  members s !! k = Some b ↔ Z.of_nat k < size_ s ∧ dense_ s !! k = Some b.
Proof.
  unfold members. rewrite lookup_take_Some. split; intros [? ?]; split; (done || lia).
Qed.

Lemma sbs_members_NoDup s : wf s → NoDup (members s).
Proof.
  intros (_ & _ & _ & _ & _ & Hinv). apply NoDup_alt. intros i j b Hi Hj.
  apply sbs_members_lookup in Hi as [Hi Hdi], Hj as [Hj Hdj].
  pose proof (Hinv i b Hi Hdi) as H1. pose proof (Hinv j b Hj Hdj) as H2.
  rewrite H1 in H2. injection H2. lia.
Qed.

Lemma sbs_members_bytes s : wf s → Forall is_byte (members s).
Proof. intros (_ & _ & _ & Hd & _). by apply Forall_take. Qed.

Lemma sbs_contains s b :
  wf s → is_byte b → contains b s = Ok (bool_decide (b ∈ members s)).
Proof.
  intros Hwf Hb. pose proof Hwf as (Hls & Hld & Hs & Hd & Hsize & Hinv).
  destruct (sbs_lookup_byte (sparse_ s) b Hls Hb) as [i Hi].
  unfold contains, vec_subscript. rewrite Hi, bind_Ok.
  assert (is_byte i) as Hib by (by eapply (Forall_lookup_1 _ _ _ _ Hs)).
  destruct (i <? size_ s) eqn:Hlt.
  - apply Z.ltb_lt in Hlt.
    destruct (sbs_lookup_byte (dense_ s) i Hld Hib) as [d Hdi].
    rewrite Hdi, bind_Ok. f_equal.
    destruct (decide (d = b)) as [->|Hne].
    + rewrite Z.eqb_refl. symmetry. apply bool_decide_eq_true.
      apply list_elem_of_lookup. exists (Z.to_nat i).
      apply sbs_members_lookup. split; [unfold is_byte in *; lia|done].
    + rewrite (proj2 (Z.eqb_neq _ _)) by done. symmetry. apply bool_decide_eq_false.
      intros [k Hk]%list_elem_of_lookup. apply sbs_members_lookup in Hk as [Hk Hdk].
      pose proof (Hinv k b Hk Hdk) as Hsk. rewrite Hi in Hsk. injection Hsk as ->.
      rewrite Nat2Z.id in Hdi. congruence.
  - apply Z.ltb_ge in Hlt. f_equal. symmetry. apply bool_decide_eq_false.
    intros [k Hk]%list_elem_of_lookup. apply sbs_members_lookup in Hk as [Hk Hdk].
    pose proof (Hinv k b Hk Hdk) as Hsk. rewrite Hi in Hsk. injection Hsk as ->. lia.
Qed.

Lemma sbs_not_full s b :
  wf s → is_byte b → b ∉ members s → size_ s < capacity.
Proof.
  intros Hwf Hb Hnotin. pose proof Hwf as (Hls & Hld & Hs & Hd & Hsize & Hinv).
  assert (NoDup (b :: members s)) as Hnd.
  { apply NoDup_cons. split; [done|by apply sbs_members_NoDup]. }
  assert (b :: members s ⊆+ seqZ 0 capacity) as Hsub.
  { apply NoDup_submseteq; [done|]. intros x Hx. apply elem_of_seqZ.
    assert (is_byte x) as Hxb.
    { apply elem_of_cons in Hx as [->|Hx]; [done|].
      by eapply (proj1 (Forall_forall _ _) (sbs_members_bytes s Hwf)). }
    unfold is_byte, capacity in *. lia. }
  apply submseteq_length in Hsub. rewrite length_seqZ in Hsub. simpl in Hsub.
  unfold members in Hsub. rewrite length_take in Hsub.
  unfold capacity in *. lia.
Qed.

Lemma sbs_add s b :
  wf s → is_byte b →
  ∃ s', add b s = Ok (negb (bool_decide (b ∈ members s)), s') ∧ wf s' ∧
        members s' = if bool_decide (b ∈ members s) then members s
                     else members s ++ [b].
Proof.
  intros Hwf Hb. pose proof Hwf as (Hls & Hld & Hs & Hd & Hsize & Hinv).
  unfold add. rewrite sbs_contains by done. rewrite bind_Ok. cbv zeta.
  case_bool_decide as Hin; simpl negb; cbv iota.
  { exists s. done. }
  pose proof (sbs_not_full s b Hwf Hb Hin) as Hlt.
  unfold array_store, vec_size. rewrite Hls, Hld.
  unfold is_byte, capacity in *.
  rewrite (proj2 (Z.leb_le 0 (size_ s))), (proj2 (Z.ltb_lt (size_ s) _)) by lia.
  rewrite (proj2 (Z.leb_le 0 b)), (proj2 (Z.ltb_lt b _)) by lia.
  simpl andb. cbv iota. rewrite !bind_Ok.
  unfold uint8, uint16. rewrite !Z.mod_small by lia.
  eexists. split; [done|]. split.
  - split; [|split; [|split; [|split; [|split]]]]; simpl.
    + by rewrite length_insert.
    + by rewrite length_insert.
    + apply Forall_insert; [done|]. unfold is_byte. lia.
    + apply Forall_insert; done.
    + unfold capacity. lia.
    + intros k c Hk Hc. destruct (decide (k = Z.to_nat (size_ s))) as [->|Hne].
      * rewrite list_lookup_insert_eq in Hc by lia. injection Hc as <-.
        rewrite list_lookup_insert_eq by lia. f_equal. lia.
      * rewrite list_lookup_insert_ne in Hc by done.
        assert (Z.of_nat k < size_ s) as Hk' by lia.
        assert (c ≠ b) as Hcb.
        { intros ->. apply Hin. apply list_elem_of_lookup. exists k.
          by apply sbs_members_lookup. }
        assert (is_byte c) as Hc' by (by eapply (Forall_lookup_1 _ _ _ _ Hd)).
        unfold is_byte in Hc'.
        rewrite list_lookup_insert_ne by lia. by apply Hinv.
  - unfold members. simpl.
    replace (Z.to_nat (size_ s + 1)) with (S (Z.to_nat (size_ s))) by lia.
    erewrite take_S_r; [|by rewrite list_lookup_insert_eq by lia].
    by rewrite take_insert_ge by lia.
Qed.

Lemma sbs_construct_wf (sparse dense : list Z) :
  length sparse = Z.to_nat capacity → length dense = Z.to_nat capacity →
  Forall is_byte sparse → Forall is_byte dense →
  wf (construct sparse dense) ∧ members (construct sparse dense) = [].
Proof.
  intros Hls Hld Hs Hd. split; [|done].
  split; [done|]. split; [done|]. split; [done|]. split; [done|].
  split; [by vm_compute|]. simpl. lia.
Qed.

Lemma sbs_add_all (bytes : list Z) : ∀ s,
  wf s → Forall is_byte bytes →
  ∃ s', add_all bytes s = Ok s' ∧ wf s' ∧
        ∀ b, b ∈ members s' ↔ b ∈ members s ∨ b ∈ bytes.
Proof.
  induction bytes as [|byte bytes IH]; intros s Hwf Hbytes.
  { exists s. split; [done|]. split; [done|]. intros b. rewrite elem_of_nil. tauto. }
  apply Forall_cons in Hbytes as [Hbyte Hbytes].
  destruct (sbs_add s byte Hwf Hbyte) as (s1 & Hadd & Hwf1 & Hm1).
  destruct (IH s1 Hwf1 Hbytes) as (s' & Hall & Hwf' & Hm').
  exists s'. split; [|split; [done|]].
  - unfold add_all. simpl. rewrite Hadd. simpl. exact Hall.
  - intros b. rewrite Hm', Hm1, elem_of_cons.
    case_bool_decide as Hin.
    + split; [tauto|]. intros [?|[->|?]]; tauto.
    + rewrite elem_of_app, list_elem_of_singleton. tauto.
Qed.
End sparse_byte_set.

(** X21.  Whatever bytes the two uninitialised arrays hold when a set is
    constructed, after adding the bytes [bytes] the set contains exactly
    those: [contains b] is true iff [b] was added, [size_] counts the
    distinct bytes added and never exceeds [capacity], and no array access
    is out of bounds. *)
Theorem sparse_set_holds_added_bytes (sparse dense bytes : list Z) :
  length sparse = Z.to_nat SparseByteSet.capacity →
  length dense = Z.to_nat SparseByteSet.capacity →
  Forall is_byte sparse → Forall is_byte dense → Forall is_byte bytes →
  ∃ s, SparseByteSet.add_all bytes (SparseByteSet.construct sparse dense) = Ok s ∧
       (∀ b, is_byte b → SparseByteSet.contains b s = Ok (bool_decide (b ∈ bytes))) ∧
       SparseByteSet.size_ s = Z.of_nat (length (remove_dups bytes)) ∧
       SparseByteSet.size_ s ≤ SparseByteSet.capacity.
Proof.
  intros Hls Hld Hs Hd Hbytes.
  destruct (sbs_construct_wf sparse dense Hls Hld Hs Hd) as [Hwf0 Hm0].
  destruct (sbs_add_all bytes _ Hwf0 Hbytes) as (s & Hall & Hwf & Hm).
  assert (∀ b, b ∈ SparseByteSet.members s ↔ b ∈ bytes) as Hm'.
  { intros b. rewrite Hm, Hm0, elem_of_nil. tauto. }
  exists s. split; [done|]. split; [|split].
  - intros b Hb. rewrite sbs_contains by done. f_equal.
    apply bool_decide_ext, Hm'.
  - assert (SparseByteSet.members s ≡ₚ remove_dups bytes) as Hperm.
    { apply NoDup_Permutation.
      - by apply sbs_members_NoDup.
      - apply NoDup_remove_dups.
      - intros b. rewrite Hm'. symmetry. apply elem_of_remove_dups. }
    apply Permutation_length in Hperm. rewrite <- Hperm.
    unfold SparseByteSet.members. rewrite length_take.
    destruct Hwf as (_ & Hld' & _ & _ & Hsize & _). rewrite Hld'. lia.
  - by destruct Hwf as (_ & _ & _ & _ & [_ ?] & _).
Qed.

Lemma sparse_set_holds_added_bytes_witness :
  ∃ s, SparseByteSet.add_all [3; 200; 3]
         (SparseByteSet.construct (replicate 256 7) (replicate 256 9)) = Ok s ∧
       (∀ b, is_byte b →
          SparseByteSet.contains b s = Ok (bool_decide (b ∈ [3; 200; 3]))) ∧
       SparseByteSet.size_ s = Z.of_nat (length (remove_dups [3; 200; 3])) ∧
       SparseByteSet.size_ s ≤ SparseByteSet.capacity.
Proof.
  apply (sparse_set_holds_added_bytes (replicate 256 7) (replicate 256 9) [3; 200; 3]).
  - reflexivity.
  - reflexivity.
  - apply (bool_decide_unpack _). by vm_compute.
  - apply (bool_decide_unpack _). by vm_compute.
  - apply (bool_decide_unpack _). by vm_compute.
Defined.

(** X22.  [add] returns true exactly when the byte is new, and then increases
    [size_] by one; otherwise it returns false and leaves the set untouched.
    Either way the byte is contained afterwards, the membership of no other
    byte changes, and adding it again returns false. *)
Theorem sparse_set_add_reports_new (sparse dense bytes : list Z) (b : Z) :
  length sparse = Z.to_nat SparseByteSet.capacity →
  length dense = Z.to_nat SparseByteSet.capacity →
  Forall is_byte sparse → Forall is_byte dense → Forall is_byte bytes → is_byte b →
  ∃ s r s',
    SparseByteSet.add_all bytes (SparseByteSet.construct sparse dense) = Ok s ∧
    SparseByteSet.add b s = Ok (r, s') ∧
    r = bool_decide (b ∉ bytes) ∧
    (r = false → s' = s) ∧
    SparseByteSet.size_ s' = SparseByteSet.size_ s + (if r then 1 else 0) ∧
    SparseByteSet.contains b s' = Ok true ∧
    (∀ b', is_byte b' → b' ≠ b →
       SparseByteSet.contains b' s' = SparseByteSet.contains b' s) ∧
    SparseByteSet.add b s' = Ok (false, s').
Proof.
  intros Hls Hld Hs Hd Hbytes Hb.
  destruct (sbs_construct_wf sparse dense Hls Hld Hs Hd) as [Hwf0 Hm0].
  destruct (sbs_add_all bytes _ Hwf0 Hbytes) as (s & Hall & Hwf & Hm).
  destruct (sbs_add s b Hwf Hb) as (s' & Hadd & Hwf' & Hm').
  assert (b ∈ SparseByteSet.members s') as Hin'.
  { rewrite Hm'. case_bool_decide; [done|].
    rewrite elem_of_app, list_elem_of_singleton. tauto. }
  destruct (sbs_add s' b Hwf' Hb) as (s'' & Hadd' & _ & _).
  exists s, (negb (bool_decide (b ∈ SparseByteSet.members s))), s'.
  split; [done|]. split; [done|]. split; [|split; [|split; [|split; [|split]]]].
  - rewrite <- bool_decide_not. apply bool_decide_ext.
    rewrite Hm, Hm0, elem_of_nil. tauto.
  - intros Hr. apply negb_false_iff in Hr. unfold SparseByteSet.add in Hadd.
    rewrite sbs_contains, bind_Ok, Hr in Hadd by done. simpl in Hadd. congruence.
  - unfold SparseByteSet.add in Hadd. rewrite sbs_contains, bind_Ok in Hadd by done.
    cbv zeta in Hadd.
    destruct (negb (bool_decide (b ∈ SparseByteSet.members s))) eqn:Hr.
    + apply negb_true_iff, bool_decide_eq_false in Hr.
      pose proof (sbs_not_full s b Hwf Hb Hr) as Hlt.
      destruct Hwf as (_ & _ & _ & _ & Hsize & _).
      destruct (array_store (SparseByteSet.dense_ s) _ _) as [d|]; [|done].
      destruct (array_store (SparseByteSet.sparse_ s) _ _) as [sp|]; [|done].
      simpl in Hadd. injection Hadd as <-. simpl. unfold uint16.
      unfold SparseByteSet.capacity in *. rewrite Z.mod_small; lia.
    + injection Hadd as <-. lia.
  - rewrite sbs_contains by done. f_equal. by apply bool_decide_eq_true.
  - intros b' Hb' Hne. rewrite !sbs_contains by done. f_equal.
    apply bool_decide_ext. rewrite Hm'.
    destruct (bool_decide (b ∈ SparseByteSet.members s)); [done|].
    rewrite elem_of_app, list_elem_of_singleton. tauto.
  - rewrite Hadd'. rewrite bool_decide_eq_true_2 by done. simpl. f_equal. f_equal.
    unfold SparseByteSet.add in Hadd'.
    rewrite sbs_contains, bind_Ok, bool_decide_eq_true_2 in Hadd' by done.
    simpl in Hadd'. congruence.
Qed.

Lemma sparse_set_add_reports_new_witness :
  ∃ s r s',
    SparseByteSet.add_all [3; 200]
      (SparseByteSet.construct (replicate 256 7) (replicate 256 9)) = Ok s ∧
    SparseByteSet.add 7 s = Ok (r, s') ∧
    r = bool_decide (7 ∉ [3; 200]) ∧
    (r = false → s' = s) ∧
    SparseByteSet.size_ s' = SparseByteSet.size_ s + (if r then 1 else 0) ∧
    SparseByteSet.contains 7 s' = Ok true ∧
    (∀ b', is_byte b' → b' ≠ 7 →
       SparseByteSet.contains b' s' = SparseByteSet.contains b' s) ∧
    SparseByteSet.add 7 s' = Ok (false, s').
Proof.
  apply (sparse_set_add_reports_new (replicate 256 7) (replicate 256 9) [3; 200] 7).
  - reflexivity.
  - reflexivity.
  - apply (bool_decide_unpack _). by vm_compute.
  - apply (bool_decide_unpack _). by vm_compute.
  - apply (bool_decide_unpack _). by vm_compute.
  - apply (bool_decide_unpack _). by vm_compute.
Defined.

(** X23.  [reset] empties a set in any state: [size_] is 0, no byte is
    contained, and the bytes added afterwards are exactly the ones
    contained. *)
Theorem sparse_set_reset_empties (s : SparseByteSet.state) (bytes : list Z) :
  Forall is_byte bytes →
  SparseByteSet.size_ (SparseByteSet.reset s) = 0 ∧
  (∀ b, is_byte b → SparseByteSet.contains b (SparseByteSet.reset s) = Ok false) ∧
  ∃ s', SparseByteSet.add_all bytes (SparseByteSet.reset s) = Ok s' ∧
        ∀ b, is_byte b → SparseByteSet.contains b s' = Ok (bool_decide (b ∈ bytes)).
Proof.
  intros Hbytes.
  assert (Forall is_byte (replicate (Z.to_nat SparseByteSet.capacity) 0)) as Hz.
  { apply Forall_replicate. unfold is_byte. lia. }
  destruct (sbs_construct_wf (replicate (Z.to_nat SparseByteSet.capacity) 0)
              (replicate (Z.to_nat SparseByteSet.capacity) 0)) as [Hwf0 Hm0];
    [by rewrite length_replicate..|done|done|].
  change (SparseByteSet.construct _ _) with (SparseByteSet.reset s) in *.
  split; [done|]. split.
  - intros b Hb. rewrite sbs_contains by done. by rewrite Hm0.
  - destruct (sbs_add_all bytes _ Hwf0 Hbytes) as (s' & Hall & Hwf & Hm).
    exists s'. split; [done|]. intros b Hb. rewrite sbs_contains by done. f_equal.
    apply bool_decide_ext. rewrite Hm, Hm0, elem_of_nil. tauto.
Qed.

Lemma sparse_set_reset_empties_witness :
  SparseByteSet.size_
    (SparseByteSet.reset (SparseByteSet.mk_state 2 (replicate 256 1) (replicate 256 1))) = 0 ∧
  (∀ b, is_byte b →
     SparseByteSet.contains b
       (SparseByteSet.reset (SparseByteSet.mk_state 2 (replicate 256 1) (replicate 256 1)))
     = Ok false) ∧
  ∃ s', SparseByteSet.add_all [0; 255]
          (SparseByteSet.reset (SparseByteSet.mk_state 2 (replicate 256 1) (replicate 256 1)))
        = Ok s' ∧
        ∀ b, is_byte b → SparseByteSet.contains b s' = Ok (bool_decide (b ∈ [0; 255])).
Proof.
  apply (sparse_set_reset_empties
           (SparseByteSet.mk_state 2 (replicate 256 1) (replicate 256 1)) [0; 255]).
  apply (bool_decide_unpack _). by vm_compute.
Defined.

(** * The disjoint set *)

(** ** Forests *)

Section forest.
Import DisjointSet.
Implicit Types (nodes : list Node) (i j k p r d : nat) (n : Node).

Lemma root_at_lt nodes i r d :
  root_at nodes i r d → (i < length nodes)%nat ∧ (r < length nodes)%nat.
Proof.
  induction 1 as [i n Hi Hp|i n p r d Hi Hp Hne Hr [_ IH]].
  - apply lookup_lt_Some in Hi. done.
  - apply lookup_lt_Some in Hi. done.
Qed.

Lemma root_at_root nodes i r d : root_at nodes i r d → root_at nodes r r 0.
Proof. induction 1; [by econstructor|done]. Qed.

Lemma root_at_fun nodes i r d r' d' :
  root_at nodes i r d → root_at nodes i r' d' → r = r' ∧ d = d'.
Proof.
  intros Hr. revert r' d'.
  induction Hr as [i n Hi Hp|i n p r d Hi Hp Hne Hr IH]; intros r' d' Hr'.
  - inversion Hr' as [i' n' Hi' Hp'|i' n' p' r'' d'' Hi' Hp' Hne' Hr'']; subst; [done|].
    rewrite Hi in Hi'. injection Hi' as <-. lia.
  - inversion Hr' as [i' n' Hi' Hp'|i' n' p' r'' d'' Hi' Hp' Hne' Hr'']; subst.
    + rewrite Hi in Hi'. injection Hi' as <-. lia.
    + rewrite Hi in Hi'. injection Hi' as <-.
      assert (p' = p) as -> by lia.
      destruct (IH _ _ Hr'') as [-> ->]. done.
Qed.

Lemma root_at_path nodes i r d :
  root_at nodes i r d →
  ∃ l : list nat, length l = S d ∧ NoDup l ∧
    ∀ x, x ∈ l → ∃ d', (d' ≤ d)%nat ∧ root_at nodes x r d'.
Proof.
  induction 1 as [i n Hi Hp|i n p r d Hi Hp Hne Hr (l & Hlen & Hnd & Hall)].
  - exists [i]. split; [done|]. split; [apply NoDup_singleton|].
    intros x ->%list_elem_of_singleton. exists 0%nat. split; [lia|].
    by econstructor.
  - exists (i :: l). split; [simpl; lia|]. split.
    + apply NoDup_cons. split; [|done]. intros Hin.
      destruct (Hall i Hin) as (d' & Hd' & Hr').
      destruct (root_at_fun _ _ _ _ _ _ Hr' (root_at_step _ _ _ _ _ _ Hi Hp Hne Hr)).
      lia.
    + intros x [->|Hx]%elem_of_cons.
      * exists (S d). split; [lia|]. by econstructor.
      * destruct (Hall x Hx) as (d' & Hd' & Hr'). exists d'. split; [lia|done].
Qed.

(* a path to the root visits pairwise distinct slots of the vector *)
Lemma root_at_depth nodes i r d : root_at nodes i r d → (d < length nodes)%nat.
Proof.
  intros (l & Hlen & Hnd & Hall)%root_at_path.
  assert (l ⊆+ seq 0 (length nodes)) as Hsub.
  { apply NoDup_submseteq; [done|]. intros x Hx.
    destruct (Hall x Hx) as (d' & _ & Hr'). apply root_at_lt in Hr' as [Hx' _].
    apply elem_of_seq. lia. }
  apply submseteq_length in Hsub. rewrite length_seq in Hsub. lia.
Qed.

(* the relation reads the parent links only *)
Lemma root_at_ext nodes nodes' i r d :
  (∀ k, parent <$> nodes' !! k = parent <$> nodes !! k) →
  root_at nodes i r d → root_at nodes' i r d.
Proof.
  intros Hext. induction 1 as [i n Hi Hp|i n p r d Hi Hp Hne Hr IH].
  - pose proof (Hext i) as He. rewrite Hi in He. simpl in He.
    destruct (nodes' !! i) as [n'|] eqn:Hi'; [|done]. injection He as He.
    apply (root_at_self _ i n'); [done|congruence].
  - pose proof (Hext i) as He. rewrite Hi in He. simpl in He.
    destruct (nodes' !! i) as [n'|] eqn:Hi'; [|done]. injection He as He.
    apply (root_at_step _ i n' p); [done|congruence|done..].
Qed.

(** Path splitting: pointing a slot at its grandparent changes no root and
    lengthens no path. *)
Lemma root_at_split nodes i ni p np g :
  nodes !! i = Some ni → parent ni = Z.of_nat p → p ≠ i →
  nodes !! p = Some np → parent np = Z.of_nat g →
  ∀ k r d, root_at nodes k r d →
    ∃ d', (d' ≤ d)%nat ∧
          root_at (<[i:=mk_Node (Z.of_nat g) (rank ni)]> nodes) k r d'.
Proof.
  intros Hi Hpi Hne Hp Hpp k r d Hr.
  induction Hr as [k n Hk Hpk|k n q r d Hk Hpk Hneq Hr (d0 & Hd0 & IH)].
  - assert (k ≠ i) as Hki.
    { intros ->. rewrite Hi in Hk. injection Hk as <-. lia. }
    exists 0%nat. split; [lia|].
    apply (root_at_self _ k n); [by rewrite list_lookup_insert_ne|done].
  - destruct (decide (k = i)) as [->|Hki].
    + rewrite Hi in Hk. injection Hk as <-. assert (q = p) as -> by lia.
      assert (<[i:=mk_Node (Z.of_nat g) (rank ni)]> nodes !! i
              = Some (mk_Node (Z.of_nat g) (rank ni))) as Hi'.
      { apply list_lookup_insert_eq. by eapply lookup_lt_Some. }
      assert (<[i:=mk_Node (Z.of_nat g) (rank ni)]> nodes !! p = Some np) as Hp'
        by by rewrite list_lookup_insert_ne.
      inversion IH as [p' n' Hp'' Hpp''|p' n' g' r' d1 Hp'' Hpp'' Hneg Hg]; subst.
      * (* the parent is the root *)
        rewrite Hp' in Hp''. injection Hp'' as <-. assert (g = r) as -> by lia.
        exists 1%nat. split; [lia|].
        by apply (root_at_step _ i (mk_Node (Z.of_nat r) (rank ni)) r).
      * rewrite Hp' in Hp''. injection Hp'' as <-. assert (g' = g) as -> by lia.
        assert (g ≠ i) as Hgi.
        { intros ->.
          inversion Hr as [p' n' Hp2 Hpp2|p' n' g' r' d2 Hp2 Hpp2 Hneg2 Hg2]; subst.
          - rewrite Hp in Hp2. injection Hp2 as <-. lia.
          - rewrite Hp in Hp2. injection Hp2 as <-. assert (g' = i) as -> by lia.
            destruct (root_at_fun _ _ _ _ _ _ Hg2
                        (root_at_step _ _ _ _ _ _ Hi Hpi Hne Hr)). lia. }
        exists (S d1). split; [lia|].
        by apply (root_at_step _ i (mk_Node (Z.of_nat g) (rank ni)) g).
    + exists (S d0). split; [lia|].
      apply (root_at_step _ k n q); [by rewrite list_lookup_insert_ne|done..].
Qed.

(** Linking: making the root [b] a child of the root [a] moves the slots
    under [b] to [a] and leaves every other representative as it was. *)
Lemma root_at_link nodes a b na nb rk :
  a ≠ b → nodes !! a = Some na → parent na = Z.of_nat a →
  nodes !! b = Some nb → parent nb = Z.of_nat b →
  ∀ k r d, root_at nodes k r d →
    root_at (<[b:=mk_Node (Z.of_nat a) rk]> nodes) k
      (if decide (r = b) then a else r) (if decide (r = b) then S d else d).
Proof.
  intros Hab Ha Hpa Hb Hpb k r d Hr.
  assert (<[b:=mk_Node (Z.of_nat a) rk]> nodes !! b = Some (mk_Node (Z.of_nat a) rk))
    as Hb' by (apply list_lookup_insert_eq; by eapply lookup_lt_Some).
  induction Hr as [k n Hk Hpk|k n q r d Hk Hpk Hneq Hr IH].
  - case_decide as Hkb.
    + subst k. apply (root_at_step _ b (mk_Node (Z.of_nat a) rk) a); [done..|].
      apply (root_at_self _ a na); [by rewrite list_lookup_insert_ne|done].
    + apply (root_at_self _ k n); [by rewrite list_lookup_insert_ne|done].
  - assert (k ≠ b) as Hkb.
    { intros ->. rewrite Hb in Hk. injection Hk as <-. lia. }
    case_decide as Hrb.
    + apply (root_at_step _ k n q); [by rewrite list_lookup_insert_ne|done..].
    + apply (root_at_step _ k n q); [by rewrite list_lookup_insert_ne|done..].
Qed.
End forest.

(** ** [find] *)

Section find.
Import DisjointSet.
Implicit Types (nodes : list Node) (i j k p r d : nat) (n : Node).

Lemma roots_kept_refl nodes : roots_kept nodes nodes.
Proof. split; [done|]. split; [done|]. intros k r d Hr. by exists d. Qed.

Lemma roots_kept_trans nodes1 nodes2 nodes3 :
  roots_kept nodes1 nodes2 → roots_kept nodes2 nodes3 → roots_kept nodes1 nodes3.
Proof.
  intros (Hl1 & Hr1 & Hk1) (Hl2 & Hr2 & Hk2). split; [congruence|]. split.
  - intros k. by rewrite Hr2, Hr1.
  - intros k r d Hr. destruct (Hk1 k r d Hr) as [d' Hr']. by apply (Hk2 k r d').
Qed.

Lemma find_loop_spec (fuel : nat) : ∀ nodes i r d,
  root_at nodes i r d → (d < fuel)%nat →
  ∃ nodes', find_loop fuel (Z.of_nat i) nodes = Ok (Z.of_nat r, nodes') ∧
            roots_kept nodes nodes'.
Proof.
  induction fuel as [|fuel IH]; intros nodes i r d Hr Hd; [lia|].
  simpl find_loop.
  inversion Hr as [i' n Hi Hp|i' n p r' d0 Hi Hp Hne Hr0]; subst.
  - rewrite (vec_subscript_Some _ _ _ Hi), bind_Ok, Hp, Z.eqb_refl.
    exists nodes. split; [done|]. apply roots_kept_refl.
  - rewrite (vec_subscript_Some _ _ _ Hi), bind_Ok, Hp.
    rewrite (proj2 (Z.eqb_neq _ _)) by lia.
    destruct (root_at_lt _ _ _ _ Hr0) as [Hplt _].
    destruct (lookup_lt_is_Some_2 _ _ Hplt) as [np Hnp].
    rewrite (vec_subscript_Some _ _ _ Hnp), bind_Ok.
    assert (∃ g dg, parent np = Z.of_nat g ∧ (dg ≤ d0)%nat ∧ root_at nodes g r dg)
      as (g & dg & Hg & Hdg & Hrg).
    { inversion Hr0 as [p' n' Hp' Hpp'|p' n' g r' d1 Hp' Hpp' Hneg Hg]; subst.
      - rewrite Hnp in Hp'. injection Hp' as <-. exists r, 0%nat. done.
      - rewrite Hnp in Hp'. injection Hp' as <-. exists g, d1.
        split; [done|]. split; [lia|done]. }
    unfold set_parent. rewrite (vec_subscript_Some _ _ _ Hi), !bind_Ok, Nat2Z.id, Hg.
    pose proof (root_at_split nodes i n p np g Hi Hp Hne Hnp Hg) as Hsplit.
    destruct (Hsplit g r dg Hrg) as (dg' & Hdg' & Hrg').
    destruct (IH _ g r dg' Hrg') as (nodes' & Hfind & Hkept); [lia|].
    exists nodes'. split; [done|].
    eapply roots_kept_trans; [|exact Hkept].
    split; [by rewrite length_insert|]. split.
    + intros k. destruct (decide (k = i)) as [->|Hki].
      * rewrite list_lookup_insert_eq by (by eapply lookup_lt_Some). by rewrite Hi.
      * by rewrite list_lookup_insert_ne.
    + intros k r' d' Hr'. destruct (Hsplit k r' d' Hr') as (d'' & _ & ?). by exists d''.
Qed.
End find.

Section disjoint_set_facts.
Import DisjointSet.
Context {T : Type} `{Countable T}.
Implicit Types (s : @state T _ _) (x y a b : T) (i j k r d : nat) (z : Z).

Lemma roots_kept_back s nodes' k r d :
  ds_wf s → roots_kept (nodes_ s) nodes' →
  root_at nodes' k r d → ∃ d', root_at (nodes_ s) k r d'.
Proof.
  intros (_ & Hforest & _) (Hlen & _ & Hkept) Hr.
  destruct (root_at_lt _ _ _ _ Hr) as [Hk _]. rewrite Hlen in Hk.
  destruct (Hforest k Hk) as (r0 & d0 & Hr0).
  destruct (Hkept k r0 d0 Hr0) as [d1 Hr1].
  destruct (root_at_fun _ _ _ _ _ _ Hr Hr1) as [-> _]. by exists d0.
Qed.

Lemma ds_wf_kept s nodes' :
  ds_wf s → roots_kept (nodes_ s) nodes' →
  ds_wf (mk_state nodes' (index_map_ s)).
Proof.
  intros Hwf Hkept. pose proof Hwf as (Hmax & Hforest & Hrank & Hroot & Hidx & Hinj).
  pose proof Hkept as (Hlen & Hranks & Hk).
  split; [|split; [|split; [|split; [|split]]]]; simpl.
  - unfold vec_size in *. by rewrite Hlen.
  - intros i Hi. rewrite Hlen in Hi. destruct (Hforest i Hi) as (r & d & Hr).
    destruct (Hk i r d Hr) as [d' Hr']. by exists r, d'.
  - intros i n Hi. pose proof (Hranks i) as He. rewrite Hi in He. simpl in He.
    destruct (nodes_ s !! i) as [n0|] eqn:Hi0; [|done]. injection He as ->.
    by apply (Hrank i n0).
  - intros i n Hi Hp. pose proof (Hranks i) as He. rewrite Hi in He. simpl in He.
    destruct (nodes_ s !! i) as [n0|] eqn:Hi0; [|done]. injection He as ->.
    destruct (roots_kept_back s nodes' i i 0 Hwf Hkept) as [d' Hr'].
    { by apply (root_at_self _ i n). }
    apply root_at_root in Hr'.
    inversion Hr' as [i' n' Hi' Hp'|]; subst. rewrite Hi0 in Hi'. injection Hi' as <-.
    by apply (Hroot i n0).
  - intros x z Hx. unfold vec_size in *. rewrite Hlen. by apply (Hidx x).
  - exact Hinj.
Qed.

Lemma find_spec s z :
  ds_wf s → 0 ≤ z < vec_size (nodes_ s) →
  ∃ r d s', find z s = Ok (Z.of_nat r, s') ∧
            root_at (nodes_ s) (Z.to_nat z) r d ∧
            index_map_ s' = index_map_ s ∧
            roots_kept (nodes_ s) (nodes_ s') ∧
            ds_wf s'.
Proof.
  intros Hwf Hz. pose proof Hwf as (Hmax & Hforest & _).
  unfold vec_size in Hz.
  destruct (Hforest (Z.to_nat z)) as (r & d & Hr); [lia|].
  destruct (find_loop_spec (S (length (nodes_ s))) (nodes_ s) (Z.to_nat z) r d Hr)
    as (nodes' & Hfind & Hkept).
  { apply root_at_depth in Hr. lia. }
  rewrite Z2Nat.id in Hfind by lia.
  exists r, d, (mk_state nodes' (index_map_ s)).
  split; [|split; [done|split; [done|split; [done|]]]].
  - unfold find. by rewrite Hfind.
  - by apply ds_wf_kept.
Qed.

Lemma representative_fun s x r r' :
  representative s x r → representative s x r' → r = r'.
Proof.
  intros (i & d & Hi & Hr) (i' & d' & Hi' & Hr').
  rewrite Hi in Hi'. injection Hi' as Hi'. apply Nat2Z.inj in Hi'. subst i'.
  by destruct (root_at_fun _ _ _ _ _ _ Hr Hr').
Qed.

Lemma representative_exists s x z :
  ds_wf s → index_map_ s !! x = Some z → ∃ r, representative s x r.
Proof.
  intros (_ & Hforest & _ & _ & Hidx & _) Hx.
  pose proof (Hidx x z Hx) as Hz. unfold vec_size in Hz.
  destruct (Hforest (Z.to_nat z)) as (r & d & Hr); [lia|].
  exists r, (Z.to_nat z), d. split; [|done]. rewrite Hx. f_equal. lia.
Qed.

Lemma representative_kept s s' x r :
  ds_wf s → index_map_ s' = index_map_ s → roots_kept (nodes_ s) (nodes_ s') →
  representative s' x r ↔ representative s x r.
Proof.
  intros Hwf Him Hkept. split.
  - intros (i & d & Hi & Hr). rewrite Him in Hi.
    destruct (roots_kept_back s (nodes_ s') i r d Hwf Hkept Hr) as [d' Hr'].
    by exists i, d'.
  - intros (i & d & Hi & Hr). destruct Hkept as (_ & _ & Hk).
    destruct (Hk i r d Hr) as [d' Hr']. exists i, d'. by rewrite Him.
Qed.

Lemma same_set_kept s s' x y :
  ds_wf s → index_map_ s' = index_map_ s → roots_kept (nodes_ s) (nodes_ s') →
  same_set s' x y ↔ same_set s x y.
Proof.
  intros Hwf Him Hkept. unfold same_set.
  split; intros (r & Hx & Hy); exists r.
  - by rewrite <- !(representative_kept s s') by done.
  - by rewrite !(representative_kept s s') by done.
Qed.
End disjoint_set_facts.

(** ** [are_connected], [unite], [add] *)

Section disjoint_set_ops.
Import DisjointSet.
Context {T : Type} `{Countable T}.
Implicit Types (s : @state T _ _) (x y a b : T) (i j k r d : nat) (z : Z).

Lemma representative_index s x r :
  representative s x r → ∃ z, index_map_ s !! x = Some z.
Proof. intros (i & d & Hi & _). by eexists. Qed.

Lemma find_element s x z :
  ds_wf s → index_map_ s !! x = Some z →
  ∃ r s', find z s = Ok (Z.of_nat r, s') ∧
          representative s x r ∧
          index_map_ s' = index_map_ s ∧
          roots_kept (nodes_ s) (nodes_ s') ∧
          ds_wf s'.
Proof.
  intros Hwf Hx. pose proof Hwf as (_ & _ & _ & _ & Hidx & _).
  pose proof (Hidx x z Hx) as Hz.
  destruct (find_spec s z Hwf Hz) as (r & d & s' & Hfind & Hr & Him & Hkept & Hwf').
  exists r, s'. split; [done|]. split; [|done].
  exists (Z.to_nat z), d. split; [|done]. rewrite Hx. f_equal. lia.
Qed.

Lemma find_two s x y zx zy :
  ds_wf s → index_map_ s !! x = Some zx → index_map_ s !! y = Some zy →
  ∃ rx ry s1 s2,
    find zx s = Ok (Z.of_nat rx, s1) ∧ index_map_ s1 = index_map_ s ∧
    find zy s1 = Ok (Z.of_nat ry, s2) ∧ index_map_ s2 = index_map_ s ∧
    representative s x rx ∧ representative s y ry ∧
    roots_kept (nodes_ s) (nodes_ s2) ∧ ds_wf s2.
Proof.
  intros Hwf Hx Hy.
  destruct (find_element s x zx Hwf Hx) as (rx & s1 & Hf1 & Hrx & Him1 & Hk1 & Hwf1).
  assert (index_map_ s1 !! y = Some zy) as Hy1 by by rewrite Him1.
  destruct (find_element s1 y zy Hwf1 Hy1) as (ry & s2 & Hf2 & Hry & Him2 & Hk2 & Hwf2).
  exists rx, ry, s1, s2. split; [done|]. split; [done|]. split; [done|].
  split; [congruence|]. split; [done|]. split.
  - by apply (representative_kept s s1).
  - split; [|done]. by eapply roots_kept_trans.
Qed.

Lemma same_set_representatives s x y rx ry :
  representative s x rx → representative s y ry → same_set s x y ↔ rx = ry.
Proof.
  intros Hx Hy. split.
  - intros (r & Hx' & Hy').
    rewrite (representative_fun s x rx r Hx Hx').
    by rewrite (representative_fun s y ry r Hy Hy').
  - intros ->. by exists ry.
Qed.

Lemma are_connected_spec (lhs_first : bool) s x y zx zy :
  ds_wf s → index_map_ s !! x = Some zx → index_map_ s !! y = Some zy →
  ∃ (c : bool) s', are_connected lhs_first x y s = Ok (c, s') ∧
            (c = true ↔ same_set s x y) ∧
            index_map_ s' = index_map_ s ∧
            roots_kept (nodes_ s) (nodes_ s') ∧
            ds_wf s'.
Proof.
  intros Hwf Hx Hy. unfold are_connected, umap_at. destruct lhs_first.
  - destruct (find_two s x y zx zy Hwf Hx Hy)
      as (rx & ry & s1 & s2 & Hf1 & Him1 & Hf2 & Him2 & Hrx & Hry & Hkept & Hwf2).
    rewrite Hx, bind_Ok, Hf1. simpl. rewrite Him1, Hy, bind_Ok, Hf2. simpl.
    eexists _, s2. split; [done|]. split; [|done].
    rewrite (same_set_representatives s x y rx ry Hrx Hry), Z.eqb_eq. lia.
  - destruct (find_two s y x zy zx Hwf Hy Hx)
      as (ry & rx & s1 & s2 & Hf1 & Him1 & Hf2 & Him2 & Hry & Hrx & Hkept & Hwf2).
    rewrite Hy, bind_Ok, Hf1. simpl. rewrite Him1, Hx, bind_Ok, Hf2. simpl.
    eexists _, s2. split; [done|]. split; [|done].
    rewrite (same_set_representatives s x y rx ry Hrx Hry), Z.eqb_eq. lia.
Qed.

Lemma representative_root s x r :
  representative s x r → ∃ n, nodes_ s !! r = Some n ∧ parent n = Z.of_nat r.
Proof.
  intros (i & d & _ & Hr). apply root_at_root in Hr.
  inversion Hr as [r' n Hn Hp|]; subst. by exists n.
Qed.

Lemma unite_spec s x y zx zy :
  ds_wf s → index_map_ s !! x = Some zx → index_map_ s !! y = Some zy →
  ∃ s' rx ry,
    unite x y s = Ok s' ∧ ds_wf s' ∧
    index_map_ s' = index_map_ s ∧
    length (nodes_ s') = length (nodes_ s) ∧
    representative s x rx ∧ representative s y ry ∧
    ∀ a r, representative s' a r ↔
           ∃ r0, representative s a r0 ∧ r = if decide (r0 = ry) then rx else r0.
Proof.
  intros Hwf Hx Hy.
  destruct (find_two s x y zx zy Hwf Hx Hy)
    as (rx & ry & s1 & s2 & Hf1 & Him1 & Hf2 & Him2 & Hrx & Hry & Hkept & Hwf2).
  exists (if decide (rx = ry) then s2
          else mk_state (<[ry:=mk_Node (Z.of_nat rx) 1]> (nodes_ s2)) (index_map_ s2)),
    rx, ry.
  unfold unite, umap_at. rewrite Hx, bind_Ok, Hf1. simpl.
  rewrite Him1, Hy, bind_Ok, Hf2. simpl.
  pose proof (λ a r, representative_kept s s2 a r Hwf Him2 Hkept) as Hrep2.
  case_decide as Hne.
  { subst ry. rewrite Z.eqb_refl. split; [done|]. split; [done|]. split; [done|].
    split; [by destruct Hkept|]. split; [done|]. split; [done|].
    intros a r. rewrite Hrep2. split.
    - intros Hr. exists r. split; [done|]. by case_decide.
    - intros (r0 & Hr0 & ->). by case_decide; subst. }
  rewrite (proj2 (Z.eqb_neq _ _)) by lia.
  destruct (representative_root s2 x rx) as (nrx & Hnrx & Hprx); [by apply Hrep2|].
  destruct (representative_root s2 y ry) as (nry & Hnry & Hpry); [by apply Hrep2|].
  pose proof Hwf2 as (Hmax2 & Hforest2 & Hrank2 & Hroot2 & Hidx2 & Hinj2).
  pose proof (Hroot2 rx nrx Hnrx Hprx) as Hrk_x.
  pose proof (Hroot2 ry nry Hnry Hpry) as Hrk_y.
  pose proof (lookup_lt_Some _ _ _ Hnry) as Hlt_y.
  rewrite (vec_subscript_Some _ _ _ Hnrx), bind_Ok.
  rewrite (vec_subscript_Some _ _ _ Hnry), bind_Ok.
  rewrite Hrk_x, Hrk_y. simpl.
  unfold set_parent. rewrite (vec_subscript_Some _ _ _ Hnry), !bind_Ok, Nat2Z.id.
  rewrite (vec_subscript_Some _ rx nrx) by by rewrite list_lookup_insert_ne.
  rewrite bind_Ok.
  rewrite (vec_subscript_Some _ ry (mk_Node (Z.of_nat rx) (rank nry)))
    by by rewrite list_lookup_insert_eq.
  rewrite bind_Ok, Hrk_x, Hrk_y. simpl.
  unfold incr_rank.
  rewrite (vec_subscript_Some _ ry (mk_Node (Z.of_nat rx) 0))
    by by rewrite list_lookup_insert_eq.
  rewrite !bind_Ok, Nat2Z.id, list_insert_insert_eq. simpl.
  change (wrap (0 + 1)) with 1.
  pose proof (root_at_link (nodes_ s2) rx ry nrx nry 1 Hne Hnrx Hprx Hnry Hpry) as Hlink.
  set (nodes4 := <[ry:=mk_Node (Z.of_nat rx) 1]> (nodes_ s2)) in *.
  assert (∀ k n, k ≠ ry → nodes4 !! k = Some n ↔ nodes_ s2 !! k = Some n) as Hother.
  { intros k n Hk. subst nodes4. by rewrite list_lookup_insert_ne. }
  assert (nodes4 !! ry = Some (mk_Node (Z.of_nat rx) 1)) as Hry4.
  { subst nodes4. by rewrite list_lookup_insert_eq. }
  assert (length nodes4 = length (nodes_ s2)) as Hlen4.
  { subst nodes4. by rewrite length_insert. }
  split; [done|]. split; [|split; [done|split; [|split; [done|split; [done|]]]]].
  - split; [|split; [|split; [|split; [|split]]]]; simpl.
    + unfold vec_size in *. by rewrite Hlen4.
    + intros i Hi. rewrite Hlen4 in Hi. destruct (Hforest2 i Hi) as (r & d & Hr).
      eexists _, _. by apply Hlink.
    + intros i n Hi. destruct (decide (i = ry)) as [->|Hiy].
      * rewrite Hry4 in Hi. injection Hi as <-. simpl. lia.
      * apply (Hrank2 i n). by apply Hother.
    + intros i n Hi Hp. destruct (decide (i = ry)) as [->|Hiy].
      * rewrite Hry4 in Hi. injection Hi as <-. simpl in Hp. lia.
      * apply (Hroot2 i n); [by apply Hother|done].
    + intros a z Ha. unfold vec_size in *. rewrite Hlen4. by apply (Hidx2 a).
    + exact Hinj2.
  - simpl. rewrite Hlen4. by destruct Hkept.
  - intros a r. split.
    + intros (i & d & Hi & Hr). simpl in Hi, Hr.
      destruct (root_at_lt _ _ _ _ Hr) as [Hilt _]. rewrite Hlen4 in Hilt.
      destruct (Hforest2 i Hilt) as (r0 & d0 & Hr0).
      exists r0. split.
      * apply Hrep2. by exists i, d0.
      * by destruct (root_at_fun _ _ _ _ _ _ Hr (Hlink i r0 d0 Hr0)).
    + intros (r0 & Hr0 & ->). apply Hrep2 in Hr0 as (i & d & Hi & Hr).
      eexists i, _. split; [done|]. simpl. by apply Hlink.
Qed.
End disjoint_set_ops.

Section disjoint_set_add.
Import DisjointSet.
Context {T : Type} `{Countable T}.
Implicit Types (s : @state T _ _) (x y a b : T) (i j k r d : nat) (z : Z)
  (nodes : list Node).

Lemma root_at_app nodes n k r d :
  root_at nodes k r d → root_at (nodes ++ [n]) k r d.
Proof.
  induction 1 as [i n' Hi Hp|i n' p r d Hi Hp Hne Hr IH].
  - apply (root_at_self _ i n'); [by apply lookup_app_l_Some|done].
  - apply (root_at_step _ i n' p); [by apply lookup_app_l_Some|done..].
Qed.

Lemma root_at_app_new nodes :
  root_at (nodes ++ [Node_init (vec_size nodes)]) (length nodes) (length nodes) 0.
Proof.
  apply (root_at_self _ _ (Node_init (vec_size nodes))); [|done].
  by rewrite lookup_app_r, Nat.sub_diag by lia.
Qed.

Lemma add_spec s x :
  ds_wf s → index_map_ s !! x = None → vec_size (nodes_ s) < max_size →
  ∃ s', add x s = Ok (vec_size (nodes_ s), s') ∧ ds_wf s' ∧
        index_map_ s' = <[x:=vec_size (nodes_ s)]> (index_map_ s) ∧
        nodes_ s' = nodes_ s ++ [Node_init (vec_size (nodes_ s))] ∧
        representative s' x (length (nodes_ s)) ∧
        ∀ a r, a ≠ x → representative s' a r ↔ representative s a r.
Proof.
  intros Hwf Hx Hmax. pose proof Hwf as (_ & Hforest & Hrank & Hroot & Hidx & Hinj).
  unfold add, vec_emplace_back, umap_emplace.
  rewrite (proj2 (Z.leb_gt _ _)) by done. rewrite bind_Ok, Hx. simpl.
  eexists. split; [done|]. simpl.
  assert (∀ i n, (nodes_ s ++ [Node_init (vec_size (nodes_ s))]) !! i = Some n →
            nodes_ s !! i = Some n ∨
            (i = length (nodes_ s) ∧ n = Node_init (vec_size (nodes_ s)))) as Hcases.
  { intros i n [?|[Hi Hn]]%lookup_app_Some; [by left|right].
    apply list_lookup_singleton_Some in Hn as [Hi' <-]. split; [lia|done]. }
  split; [|split; [done|split; [done|split]]].
  - split; [|split; [|split; [|split; [|split]]]]; simpl.
    + unfold vec_size in *. rewrite length_app. simpl. lia.
    + intros i Hi. rewrite length_app in Hi. simpl in Hi.
      destruct (decide (i = length (nodes_ s))) as [->|Hne].
      * eexists _, _. apply root_at_app_new.
      * destruct (Hforest i) as (r & d & Hr); [lia|].
        exists r, d. by apply root_at_app.
    + intros i n [Hi|[-> ->]]%Hcases; [by apply (Hrank i n)|simpl; lia].
    + intros i n [Hi|[-> ->]]%Hcases Hp; [by apply (Hroot i n)|done].
    + intros a z. unfold vec_size. rewrite length_app. simpl.
      rewrite lookup_insert. case_decide as Ha.
      * intros [= <-]. unfold vec_size. lia.
      * intros Hz%Hidx. unfold vec_size in Hz. lia.
    + intros a b z. rewrite !lookup_insert.
      case_decide as Ha; case_decide as Hb; subst; [done|..].
      * intros [= <-] Hz%Hidx. lia.
      * intros Hz%Hidx [= <-]. lia.
      * apply Hinj.
  - exists (length (nodes_ s)), 0%nat. simpl. split; [by rewrite lookup_insert_eq|].
    apply root_at_app_new.
  - intros a r Ha. split.
    + intros (i & d & Hi & Hr). simpl in Hi, Hr. rewrite lookup_insert_ne in Hi by done.
      pose proof (Hidx a _ Hi) as Hlt. unfold vec_size in Hlt.
      destruct (Hforest i) as (r0 & d0 & Hr0); [lia|].
      pose proof (root_at_app _ (Node_init (vec_size (nodes_ s))) _ _ _ Hr0) as Hr0'.
      destruct (root_at_fun _ _ _ _ _ _ Hr Hr0') as [-> _]. by exists i, d0.
    + intros (i & d & Hi & Hr). exists i, d. simpl.
      rewrite lookup_insert_ne by done. split; [done|]. by apply root_at_app.
Qed.

Lemma add_present s x z :
  index_map_ s !! x = Some z →
  add x s = if max_size <=? vec_size (nodes_ s) then Err length_error
            else Err assertion_failure.
Proof.
  intros Hx. unfold add, vec_emplace_back, umap_emplace.
  destruct (max_size <=? vec_size (nodes_ s)); [done|]. by rewrite bind_Ok, Hx.
Qed.
End disjoint_set_add.

(** ** Construction *)

Section disjoint_set_construct.
Import DisjointSet.
Context {T : Type} `{Countable T}.
Implicit Types (s : @state T _ _) (x y a b : T) (i j k r d : nat) (z : Z)
  (inputs : list T) (ps : list (T * Z)) (acc : gmap T Z).

Let emplace_step (index_map : gmap T Z) (p : T * Z) : gmap T Z :=
  let '(x, i) := p in (umap_emplace x i index_map).1.1.

Lemma emplace_step_lookup acc p x :
  emplace_step acc p !! x
  = match acc !! x with
    | Some z => Some z
    | None => if decide (p.1 = x) then Some p.2 else None
    end.
Proof.
  destruct p as [x' z']. unfold emplace_step, umap_emplace. simpl.
  destruct (acc !! x') as [z0|] eqn:Hx'; simpl.
  - destruct (acc !! x) as [z|] eqn:Hx; [done|]. case_decide; [congruence|done].
  - rewrite lookup_insert. case_decide as Hxx; [subst; by rewrite Hx'|].
    by destruct (acc !! x).
Qed.

Lemma fold_emplace_keeps ps : ∀ acc x z,
  acc !! x = Some z → fold_left emplace_step ps acc !! x = Some z.
Proof.
  induction ps as [|p ps IH]; intros acc x z Hx; [done|]. simpl. apply IH.
  by rewrite emplace_step_lookup, Hx.
Qed.

Lemma fold_emplace_sound ps : ∀ acc x z,
  fold_left emplace_step ps acc !! x = Some z → acc !! x = Some z ∨ (x, z) ∈ ps.
Proof.
  induction ps as [|p ps IH]; intros acc x z Hx; [by left|]. simpl in Hx.
  apply IH in Hx as [Hx|Hx]; [|right; by right].
  rewrite emplace_step_lookup in Hx. destruct (acc !! x) as [z0|]; [by left|].
  destruct p as [x' z']. simpl in Hx.
  case_decide as Hp; [|done]. injection Hx as <-. subst x. right. by left.
Qed.

Lemma fold_emplace_complete ps : ∀ acc x z,
  (x, z) ∈ ps → is_Some (fold_left emplace_step ps acc !! x).
Proof.
  induction ps as [|p ps IH]; intros acc x z Hx; [by apply elem_of_nil in Hx|].
  simpl. apply elem_of_cons in Hx as [<-|Hx]; [|by eapply IH].
  destruct (acc !! x) as [z0|] eqn:Hacc.
  - exists z0. apply fold_emplace_keeps. by rewrite emplace_step_lookup, Hacc.
  - exists z. apply fold_emplace_keeps. rewrite emplace_step_lookup, Hacc. simpl.
    by rewrite decide_True.
Qed.

Lemma init_index_map_fold inputs :
  init_index_map inputs
  = fold_left emplace_step (zip inputs (range (vec_size inputs) 0)) ∅.
Proof.
  unfold init_index_map. cbv zeta. f_equal.
Qed.

Lemma fold_emplace_first ps1 : ∀ acc x z ps2,
  acc !! x = None → x ∉ ps1.*1 →
  fold_left emplace_step (ps1 ++ (x, z) :: ps2) acc !! x = Some z.
Proof.
  induction ps1 as [|p ps1 IH]; intros acc x z ps2 Hacc Hx.
  - change (fold_left emplace_step ([] ++ (x, z) :: ps2) acc)
      with (fold_left emplace_step ps2 (emplace_step acc (x, z))).
    apply fold_emplace_keeps. rewrite emplace_step_lookup, Hacc. simpl.
    by rewrite decide_True.
  - rewrite fmap_cons in Hx. apply not_elem_of_cons in Hx as [Hp Hx].
    change (fold_left emplace_step ((p :: ps1) ++ (x, z) :: ps2) acc)
      with (fold_left emplace_step (ps1 ++ (x, z) :: ps2) (emplace_step acc p)).
    apply IH; [|done]. rewrite emplace_step_lookup, Hacc.
    by rewrite decide_False.
Qed.

Lemma init_nodes_lookup inputs i :
  vec_size inputs ≤ max_size → (i < length inputs)%nat →
  init_nodes (vec_size inputs) !! i = Some (Node_init (Z.of_nat i)).
Proof.
  intros Hmax Hi. pose proof max_size_lt. unfold init_nodes, fmap_vec, vec_size in *.
  rewrite list_lookup_fmap, lookup_range by lia. done.
Qed.

Lemma length_init_nodes inputs : length (init_nodes (vec_size inputs)) = length inputs.
Proof.
  unfold init_nodes, fmap_vec, vec_size. rewrite length_fmap, length_range. lia.
Qed.

Lemma init_index_map_lookup inputs x z :
  vec_size inputs ≤ max_size →
  init_index_map inputs !! x = Some z ↔
  ∃ i, z = Z.of_nat i ∧ inputs !! i = Some x ∧ ∀ j, (j < i)%nat → inputs !! j ≠ Some x.
Proof.
  intros Hmax. pose proof max_size_lt as Hlt. rewrite init_index_map_fold.
  set (ps := zip inputs (range (vec_size inputs) 0)).
  assert (∀ i y w, ps !! i = Some (y, w) ↔ inputs !! i = Some y ∧ w = Z.of_nat i)
    as Hps.
  { intros i y w. subst ps. rewrite lookup_zip. split.
    - intros [Hy Hw]. split; [done|]. pose proof (lookup_lt_Some _ _ _ Hy).
      unfold vec_size in *. rewrite lookup_range in Hw by lia. congruence.
    - intros [Hy ->]. split; [done|]. pose proof (lookup_lt_Some _ _ _ Hy).
      unfold vec_size in *. by rewrite lookup_range by lia. }
  assert (∀ i y, inputs !! i = Some y → (∀ j, (j < i)%nat → inputs !! j ≠ Some y) →
            fold_left emplace_step ps ∅ !! y = Some (Z.of_nat i)) as Hfirst.
  { intros i y Hy Hmin.
    assert (ps !! i = Some (y, Z.of_nat i)) as Hpi by by apply Hps.
    rewrite <- (take_drop_middle ps i _ Hpi).
    apply fold_emplace_first; [done|].
    intros [[y' w] [Hy' [j Hj]%list_elem_of_lookup]]%list_elem_of_fmap. simpl in Hy'.
    subst y'. apply lookup_take_Some in Hj as [Hj Hji].
    apply Hps in Hj as [Hj _]. by apply (Hmin j). }
  split.
  - intros Hx. pose proof Hx as Hx'.
    apply fold_emplace_sound in Hx' as [Hx'|[i Hi]%list_elem_of_lookup]; [done|].
    apply Hps in Hi as [Hi _].
    (* the least index at which [x] occurs *)
    assert (∃ i0, inputs !! i0 = Some x ∧ ∀ j, (j < i0)%nat → inputs !! j ≠ Some x)
      as (i0 & Hi0 & Hmin).
    { apply list_elem_of_lookup_2, elem_of_first_split in Hi as (l1 & l2 & Hl & Hl1).
      exists (length l1). rewrite Hl. split; [by apply list_lookup_middle|].
      intros j Hj Hlj. rewrite lookup_app_l in Hlj by done.
      apply Hl1. by eapply list_elem_of_lookup_2. }
    exists i0. split; [|done]. pose proof (Hfirst i0 x Hi0 Hmin). congruence.
  - intros (i & -> & Hi & Hmin). by apply Hfirst.
Qed.

Lemma construct_root inputs i :
  vec_size inputs ≤ max_size → (i < length inputs)%nat →
  root_at (nodes_ (construct inputs)) i i 0.
Proof.
  intros Hmax Hi. apply (root_at_self _ i (Node_init (Z.of_nat i))); [|done].
  by apply init_nodes_lookup.
Qed.

Lemma construct_wf inputs : vec_size inputs ≤ max_size → ds_wf (construct inputs).
Proof.
  intros Hmax.
  assert (∀ i n, nodes_ (construct inputs) !! i = Some n → n = Node_init (Z.of_nat i))
    as Hnodes.
  { intros i n Hi.
    change (nodes_ (construct inputs)) with (init_nodes (vec_size inputs)) in Hi.
    pose proof (lookup_lt_Some _ _ _ Hi) as Hlt.
    rewrite length_init_nodes in Hlt.
    rewrite init_nodes_lookup in Hi by done. congruence. }
  split; [|split; [|split; [|split; [|split]]]];
    change (nodes_ (construct inputs)) with (init_nodes (vec_size inputs));
    change (index_map_ (construct inputs)) with (init_index_map inputs).
  - pose proof (length_init_nodes inputs) as Hlen. unfold vec_size in *. lia.
  - intros i Hi. rewrite length_init_nodes in Hi. exists i, 0%nat.
    by apply (construct_root inputs).
  - intros i n ->%Hnodes. simpl. lia.
  - by intros i n ->%Hnodes.
  - intros x z (i & -> & Hi & _)%init_index_map_lookup; [|done].
    apply lookup_lt_Some in Hi. pose proof (length_init_nodes inputs) as Hlen.
    unfold vec_size in *. lia.
  - intros x y z (i & -> & Hi & _)%init_index_map_lookup; [|done].
    intros (j & Hj & Hy & _)%init_index_map_lookup; [|done].
    apply Nat2Z.inj in Hj. subst j. congruence.
Qed.

Lemma construct_representative inputs x r :
  vec_size inputs ≤ max_size →
  representative (construct inputs) x r ↔
  inputs !! r = Some x ∧ ∀ j, (j < r)%nat → inputs !! j ≠ Some x.
Proof.
  intros Hmax. split.
  - intros (i & d & Hi & Hr). simpl in Hi.
    apply init_index_map_lookup in Hi as (i' & Hii & Hi & Hmin); [|done].
    apply Nat2Z.inj in Hii. subst i'.
    pose proof (construct_root inputs i Hmax (lookup_lt_Some _ _ _ Hi)) as Hr'.
    by destruct (root_at_fun _ _ _ _ _ _ Hr Hr') as [-> _].
  - intros [Hr Hmin]. exists r, 0%nat. split.
    + simpl. apply init_index_map_lookup; [done|]. by exists r.
    + apply construct_root; [done|]. by eapply lookup_lt_Some.
Qed.

Lemma construct_same_set inputs x y :
  vec_size inputs ≤ max_size →
  same_set (construct inputs) x y ↔ x = y ∧ x ∈ inputs.
Proof.
  intros Hmax. split.
  - intros (r & [Hx _]%construct_representative & [Hy _]%construct_representative);
      [|done..].
    split; [congruence|]. by eapply list_elem_of_lookup_2.
  - intros [<- (l1 & l2 & Hl & Hl1)%elem_of_first_split].
    exists (length l1).
    assert (representative (construct inputs) x (length l1)) as Hr; [|done].
    apply construct_representative; [done|]. rewrite Hl.
    split; [by apply list_lookup_middle|].
    intros j Hj Hlj. rewrite lookup_app_l in Hlj by done.
    apply Hl1. by eapply list_elem_of_lookup_2.
Qed.
End disjoint_set_construct.



Section disjoint_set_check_facts.
Import DisjointSet.
Context {T : Type} `{Countable T}.
Implicit Types (s : @state T _ _) (nodes : list Node).

Lemma climb_sound nodes (fuel : nat) : ∀ i r,
  climb nodes fuel i = Some r → ∃ d, root_at nodes i r d.
Proof.
  induction fuel as [|fuel IH]; intros i r Hc; [done|]. simpl in Hc.
  destruct (nodes !! i) as [n|] eqn:Hi; [|done].
  case_decide as Hp.
  - injection Hc as <-. exists 0%nat. by apply (root_at_self _ i n).
  - case_decide as Hpos; [|done]. destruct (IH _ _ Hc) as [d Hr].
    exists (S d). apply (root_at_step _ i n (Z.to_nat (parent n))); [done|lia|lia|done].
Qed.

Lemma ds_wfb_sound s : ds_wfb s = true → ds_wf s.
Proof.
  unfold ds_wfb. rewrite !andb_true_iff, !bool_decide_eq_true, !forallb_forall.
  intros ((((Hmax & Hforest) & Hranks) & Hidx) & Hinj).
  assert (∀ i n, nodes_ s !! i = Some n →
            0 ≤ rank n ≤ 1 ∧ (parent n = Z.of_nat i → rank n = 0)) as Hranks'.
  { intros i n Hi. specialize (Hranks (i, n)).
    rewrite andb_true_iff, !bool_decide_eq_true in Hranks. apply Hranks.
    apply list_elem_of_In, list_elem_of_lookup. exists i.
    by rewrite list_lookup_imap, Hi. }
  split; [done|]. split; [|split; [|split; [|split]]].
  - intros i Hi. specialize (Hforest i). rewrite bool_decide_eq_true in Hforest.
    destruct Hforest as [r Hr]; [apply in_seq; lia|].
    destruct (climb_sound _ _ _ _ Hr) as [d Hd]. by exists r, d.
  - intros i n Hi. by apply (Hranks' i n).
  - intros i n Hi. by apply (Hranks' i n).
  - intros x z Hx. by apply (Hidx x z).
  - intros x y z Hx Hy. apply elem_of_map_to_list in Hx, Hy.
    apply list_elem_of_lookup in Hx as [i Hi], Hy as [j Hj].
    assert (i = j) as ->.
    { apply (NoDup_lookup _ i j z Hinj); rewrite list_lookup_fmap.
      - by rewrite Hi.
      - by rewrite Hj. }
    congruence.
Qed.
End disjoint_set_check_facts.

(** ** The public methods *)

(** X24.  A freshly constructed disjoint set is well formed, maps every input
    element to the index of its first occurrence, and puts every element in
    a set of its own: two elements are connected iff they are equal. *)
Theorem construct_singletons {T : Type} `{Countable T} (inputs : list T)
    (lhs_first : bool) (x y : T) :
  vec_size inputs ≤ max_size →
  ds_wf (DisjointSet.construct inputs) ∧
  (∀ i : nat, DisjointSet.index_map_ (DisjointSet.construct inputs) !! x
              = Some (Z.of_nat i) ↔
     inputs !! i = Some x ∧ ∀ j, (j < i)%nat → inputs !! j ≠ Some x) ∧
  (same_set (DisjointSet.construct inputs) x y ↔ x = y ∧ x ∈ inputs) ∧
  (x ∈ inputs → y ∈ inputs →
   ∃ s', DisjointSet.are_connected lhs_first x y (DisjointSet.construct inputs)
         = Ok (bool_decide (x = y), s')).
Proof.
  intros Hmax. pose proof (construct_wf inputs Hmax) as Hwf.
  split; [done|]. split; [|split; [by apply construct_same_set|]].
  - intros i. simpl. rewrite init_index_map_lookup by done. split.
    + intros (i' & Hi & ?). apply Nat2Z.inj in Hi. by subst.
    + intros ?. by exists i.
  - intros Hx Hy.
    assert (∀ a, a ∈ inputs → ∃ z, DisjointSet.index_map_ (DisjointSet.construct inputs) !! a
                                  = Some z) as Hpresent.
    { intros a Ha.
      assert (same_set (DisjointSet.construct inputs) a a) as (r & Hr & _)
        by by apply construct_same_set.
      by apply representative_index in Hr. }
    destruct (Hpresent x Hx) as [zx Hzx]. destruct (Hpresent y Hy) as [zy Hzy].
    destruct (are_connected_spec lhs_first _ x y zx zy Hwf Hzx Hzy)
      as (c & s' & Hc & Hiff & _).
    exists s'. rewrite Hc. f_equal. f_equal.
    rewrite construct_same_set in Hiff by done.
    destruct c; symmetry.
    + apply bool_decide_eq_true. by apply Hiff.
    + apply bool_decide_eq_false. intros Hxy.
      assert (false = true) by (apply Hiff; done). done.
Qed.

Lemma construct_singletons_witness :
  ds_wf (DisjointSet.construct [10; 20; 10; 30]) ∧
  (∀ i : nat, DisjointSet.index_map_ (DisjointSet.construct [10; 20; 10; 30]) !! 10
              = Some (Z.of_nat i) ↔
     [10; 20; 10; 30] !! i = Some 10 ∧
     ∀ j, (j < i)%nat → [10; 20; 10; 30] !! j ≠ Some 10) ∧
  (same_set (DisjointSet.construct [10; 20; 10; 30]) 10 30
   ↔ 10 = 30 ∧ 10 ∈ [10; 20; 10; 30]) ∧
  (10 ∈ [10; 20; 10; 30] → 30 ∈ [10; 20; 10; 30] →
   ∃ s', DisjointSet.are_connected true 10 30 (DisjointSet.construct [10; 20; 10; 30])
         = Ok (bool_decide (10 = 30), s')).
Proof.
  apply (construct_singletons [10; 20; 10; 30] true 10 30). by vm_compute.
Defined.

(** X25.  On a well-formed disjoint set, [are_connected] of two present elements
    returns, in either evaluation order of its operands, whether they have
    the same representative; path splitting changes neither the index map
    nor which elements are connected. *)
Theorem are_connected_decides_same_set {T : Type} `{Countable T}
    (s : @DisjointSet.state T _ _) (x y : T) :
  ds_wf s → is_Some (DisjointSet.index_map_ s !! x) →
  is_Some (DisjointSet.index_map_ s !! y) →
  ∃ c : bool,
    (c = true ↔ same_set s x y) ∧
    ∀ lhs_first, ∃ s',
      DisjointSet.are_connected lhs_first x y s = Ok (c, s') ∧
      ds_wf s' ∧
      DisjointSet.index_map_ s' = DisjointSet.index_map_ s ∧
      ∀ a b, same_set s' a b ↔ same_set s a b.
Proof.
  intros Hwf [zx Hx] [zy Hy].
  destruct (are_connected_spec true s x y zx zy Hwf Hx Hy)
    as (c & s1 & Hc1 & Hiff1 & Him1 & Hk1 & Hwf1).
  exists c. split; [done|]. intros lhs_first.
  destruct (are_connected_spec lhs_first s x y zx zy Hwf Hx Hy)
    as (c' & s' & Hc & Hiff & Him & Hk & Hwf').
  assert (c' = c) as ->.
  { destruct c, c'; try done.
    - by apply Hiff, Hiff1.
    - symmetry. by apply Hiff1, Hiff. }
  exists s'. split; [done|]. split; [done|]. split; [done|].
  intros a b. by apply same_set_kept.
Qed.

Lemma are_connected_decides_same_set_witness :
  ∃ c : bool,
    (c = true ↔ same_set example_disjoint_set 2 1) ∧
    ∀ lhs_first, ∃ s',
      DisjointSet.are_connected lhs_first 2 1 example_disjoint_set = Ok (c, s') ∧
      ds_wf s' ∧
      DisjointSet.index_map_ s' = DisjointSet.index_map_ example_disjoint_set ∧
      ∀ a b, same_set s' a b ↔ same_set example_disjoint_set a b.
Proof.
  apply (are_connected_decides_same_set example_disjoint_set 2 1).
  - apply ds_wfb_sound. by vm_compute.
  - apply (bool_decide_unpack _). by vm_compute.
  - apply (bool_decide_unpack _). by vm_compute.
Defined.

(** X26.  [unite(x, y)] of two present elements merges their sets and nothing
    else: afterwards [x] and [y] are connected, and two elements are
    connected iff they were before, or one was connected to [x] and the
    other to [y]. *)
Theorem unite_merges_sets {T : Type} `{Countable T}
    (s : @DisjointSet.state T _ _) (x y : T) :
  ds_wf s → is_Some (DisjointSet.index_map_ s !! x) →
  is_Some (DisjointSet.index_map_ s !! y) →
  ∃ s', DisjointSet.unite x y s = Ok s' ∧
        ds_wf s' ∧
        DisjointSet.index_map_ s' = DisjointSet.index_map_ s ∧
        same_set s' x y ∧
        ∀ a b, same_set s' a b ↔
               same_set s a b ∨
               (same_set s a x ∧ same_set s y b) ∨
               (same_set s a y ∧ same_set s x b).
Proof.
  intros Hwf [zx Hx] [zy Hy].
  destruct (unite_spec s x y zx zy Hwf Hx Hy)
    as (s' & rx & ry & Hu & Hwf' & Him & Hlen & Hrx & Hry & Hrep).
  assert (∀ a b, same_set s' a b ↔
            same_set s a b ∨ (same_set s a x ∧ same_set s y b) ∨
            (same_set s a y ∧ same_set s x b)) as Hsame.
  { intros a b. split.
    - intros (r & (ra & Ha & Hra)%Hrep & (rb & Hb & Hrb)%Hrep).
      rewrite (same_set_representatives s a b ra rb Ha Hb).
      rewrite (same_set_representatives s a x ra rx Ha Hrx).
      rewrite (same_set_representatives s y b ry rb Hry Hb).
      rewrite (same_set_representatives s a y ra ry Ha Hry).
      rewrite (same_set_representatives s x b rx rb Hrx Hb).
      repeat case_decide; subst; tauto.
    - assert (∀ c d rc rd, representative s c rc → representative s d rd →
                (if decide (rc = ry) then rx else rc)
                = (if decide (rd = ry) then rx else rd) → same_set s' c d) as Hjoin.
      { intros c d rc rd Hc Hd Heq. exists (if decide (rc = ry) then rx else rc).
        split; apply Hrep; [by exists rc|exists rd; by rewrite Heq]. }
      intros [(r & Ha & Hb)|[[(r1 & Ha & Hx1) (r2 & Hy2 & Hb)]|
                              [(r1 & Ha & Hy1) (r2 & Hx2 & Hb)]]].
      + by apply (Hjoin a b r r).
      + pose proof (representative_fun s x _ _ Hx1 Hrx).
        pose proof (representative_fun s y _ _ Hy2 Hry). subst.
        apply (Hjoin a b rx ry); [done..|]. by repeat case_decide.
      + pose proof (representative_fun s y _ _ Hy1 Hry).
        pose proof (representative_fun s x _ _ Hx2 Hrx). subst.
        apply (Hjoin a b ry rx); [done..|]. by repeat case_decide. }
  exists s'. split; [done|]. split; [done|]. split; [done|]. split; [|done].
  apply Hsame. right. left. split; [by exists rx|by exists ry].
Qed.

Lemma unite_merges_sets_witness :
  ∃ s', DisjointSet.unite 3 2 example_disjoint_set = Ok s' ∧
        ds_wf s' ∧
        DisjointSet.index_map_ s' = DisjointSet.index_map_ example_disjoint_set ∧
        same_set s' 3 2 ∧
        ∀ a b, same_set s' a b ↔
               same_set example_disjoint_set a b ∨
               (same_set example_disjoint_set a 3 ∧ same_set example_disjoint_set 2 b) ∨
               (same_set example_disjoint_set a 2 ∧ same_set example_disjoint_set 3 b).
Proof.
  apply (unite_merges_sets example_disjoint_set 3 2).
  - apply ds_wfb_sound. by vm_compute.
  - apply (bool_decide_unpack _). by vm_compute.
  - apply (bool_decide_unpack _). by vm_compute.
Defined.

(** X27.  [unite(x, y)] always makes the representative of [x] the representative
    of the union: every representative has rank 0 (the rank that is
    incremented is that of the root that has just become a child), so the
    rank comparison never swaps the two roots; no rank exceeds 1. *)
Theorem unite_keeps_first_representative {T : Type} `{Countable T}
    (s : @DisjointSet.state T _ _) (x y : T) :
  ds_wf s → is_Some (DisjointSet.index_map_ s !! x) →
  is_Some (DisjointSet.index_map_ s !! y) →
  ∃ s' rx,
    DisjointSet.unite x y s = Ok s' ∧
    representative s x rx ∧
    representative s' x rx ∧
    representative s' y rx ∧
    (∀ a r n, representative s' a r → DisjointSet.nodes_ s' !! r = Some n →
       DisjointSet.rank n = 0) ∧
    (∀ i n, DisjointSet.nodes_ s' !! i = Some n → 0 ≤ DisjointSet.rank n ≤ 1).
Proof.
  intros Hwf [zx Hx] [zy Hy].
  destruct (unite_spec s x y zx zy Hwf Hx Hy)
    as (s' & rx & ry & Hu & Hwf' & Him & Hlen & Hrx & Hry & Hrep).
  exists s', rx. split; [done|]. split; [done|]. split; [|split; [|split]].
  - apply Hrep. exists rx. split; [done|]. by case_decide.
  - apply Hrep. exists ry. split; [done|]. by rewrite decide_True.
  - intros a r n (n' & Hn' & Hp)%representative_root Hn.
    rewrite Hn in Hn'. injection Hn' as <-.
    destruct Hwf' as (_ & _ & _ & Hroot & _). by apply (Hroot r n).
  - by destruct Hwf' as (_ & _ & Hrank & _).
Qed.

Lemma unite_keeps_first_representative_witness :
  ∃ s' rx,
    DisjointSet.unite 3 2 example_disjoint_set = Ok s' ∧
    representative example_disjoint_set 3 rx ∧
    representative s' 3 rx ∧
    representative s' 2 rx ∧
    (∀ a r n, representative s' a r → DisjointSet.nodes_ s' !! r = Some n →
       DisjointSet.rank n = 0) ∧
    (∀ i n, DisjointSet.nodes_ s' !! i = Some n → 0 ≤ DisjointSet.rank n ≤ 1).
Proof.
  apply (unite_keeps_first_representative example_disjoint_set 3 2).
  - apply ds_wfb_sound. by vm_compute.
  - apply (bool_decide_unpack _). by vm_compute.
  - apply (bool_decide_unpack _). by vm_compute.
Defined.

(** X28.  [add] of a new element returns the previous number of nodes as its
    index and puts the element in a set of its own, changing no other set;
    adding a present element fails the assertion, and at [max_size]
    [emplace_back] fails first. *)
Theorem add_new_element {T : Type} `{Countable T}
    (s : @DisjointSet.state T _ _) (x : T) :
  ds_wf s →
  (DisjointSet.index_map_ s !! x = None →
   vec_size (DisjointSet.nodes_ s) < max_size →
   ∃ s', DisjointSet.add x s = Ok (vec_size (DisjointSet.nodes_ s), s') ∧
         ds_wf s' ∧
         DisjointSet.index_map_ s' !! x = Some (vec_size (DisjointSet.nodes_ s)) ∧
         ∀ a b, same_set s' a b ↔ same_set s a b ∨ (a = x ∧ b = x)) ∧
  (is_Some (DisjointSet.index_map_ s !! x) →
   vec_size (DisjointSet.nodes_ s) < max_size →
   DisjointSet.add x s = Err assertion_failure) ∧
  (max_size ≤ vec_size (DisjointSet.nodes_ s) →
   DisjointSet.add x s = Err length_error).
Proof.
  intros Hwf. split; [|split].
  - intros Hx Hmax.
    destruct (add_spec s x Hwf Hx Hmax) as (s' & Hadd & Hwf' & Him & Hnodes & Hnew & Hold).
    exists s'. split; [done|]. split; [done|]. split; [by rewrite Him, lookup_insert_eq|].
    assert (∀ a r, representative s a r → a ≠ x) as Hne.
    { intros a r (i & d & Hi & _) ->. congruence. }
    assert (∀ a r, a ≠ x → representative s' a r →
              r ≠ length (DisjointSet.nodes_ s)) as Hlt.
    { intros a r Ha (i & d & _ & Hr)%Hold; [|done].
      apply root_at_lt in Hr as [_ Hr]. lia. }
    intros a b. split.
    + intros (r & Ha & Hb).
      destruct (decide (a = x)) as [->|Hax]; destruct (decide (b = x)) as [->|Hbx].
      * by right.
      * pose proof (representative_fun s' x _ _ Ha Hnew). subst r.
        by destruct (Hlt b _ Hbx Hb).
      * pose proof (representative_fun s' x _ _ Hb Hnew). subst r.
        by destruct (Hlt a _ Hax Ha).
      * left. exists r. split; by apply Hold.
    + intros [(r & Ha & Hb)|[-> ->]].
      * exists r. split; (apply Hold; [by eapply Hne|done]).
      * by exists (length (DisjointSet.nodes_ s)).
  - intros [z Hx] Hmax. rewrite (add_present s x z Hx).
    by rewrite (proj2 (Z.leb_gt _ _)) by done.
  - intros Hmax. unfold DisjointSet.add, vec_emplace_back.
    by rewrite (proj2 (Z.leb_le _ _)) by done.
Qed.

Lemma add_new_element_witness :
  (DisjointSet.index_map_ example_disjoint_set !! 7 = None →
   vec_size (DisjointSet.nodes_ example_disjoint_set) < max_size →
   ∃ s', DisjointSet.add 7 example_disjoint_set
         = Ok (vec_size (DisjointSet.nodes_ example_disjoint_set), s') ∧
         ds_wf s' ∧
         DisjointSet.index_map_ s' !! 7
         = Some (vec_size (DisjointSet.nodes_ example_disjoint_set)) ∧
         ∀ a b, same_set s' a b ↔ same_set example_disjoint_set a b ∨ (a = 7 ∧ b = 7)) ∧
  (is_Some (DisjointSet.index_map_ example_disjoint_set !! 7) →
   vec_size (DisjointSet.nodes_ example_disjoint_set) < max_size →
   DisjointSet.add 7 example_disjoint_set = Err assertion_failure) ∧
  (max_size ≤ vec_size (DisjointSet.nodes_ example_disjoint_set) →
   DisjointSet.add 7 example_disjoint_set = Err length_error).
Proof.
  apply (add_new_element example_disjoint_set 7).
  apply ds_wfb_sound. by vm_compute.
Defined.

(** X29.  [unite] and [are_connected] are [noexcept] and look elements up with
    [at]: if either element is absent, the range error cannot leave the
    function and the program terminates. *)
Theorem absent_element_terminates {T : Type} `{Countable T}
    (s : @DisjointSet.state T _ _) (x y : T) (lhs_first : bool) :
  ds_wf s →
  DisjointSet.index_map_ s !! x = None ∨ DisjointSet.index_map_ s !! y = None →
  DisjointSet.unite x y s = Err terminate ∧
  DisjointSet.are_connected lhs_first x y s = Err terminate.
Proof.
  intros Hwf Habsent.
  unfold DisjointSet.unite, DisjointSet.are_connected, umap_at.
  destruct Habsent as [Hx|Hy].
  - split; [by rewrite Hx|]. destruct lhs_first; [by rewrite Hx|].
    destruct (DisjointSet.index_map_ s !! y) as [zy|] eqn:Hy; [|done].
    destruct (find_element s y zy Hwf Hy) as (r & s1 & Hf & _ & Him & _).
    rewrite !bind_Ok, Hf. simpl. by rewrite Him, Hx.
  - assert (∀ zx, DisjointSet.index_map_ s !! x = Some zx →
              ∃ r s1, DisjointSet.find zx s = Ok (Z.of_nat r, s1) ∧
                      DisjointSet.index_map_ s1 !! y = None) as Hfind.
    { intros zx Hx.
      destruct (find_element s x zx Hwf Hx) as (r & s1 & Hf & _ & Him & _).
      exists r, s1. by rewrite Him. }
    split.
    + destruct (DisjointSet.index_map_ s !! x) as [zx|] eqn:Hx; [|done].
      destruct (Hfind zx eq_refl) as (r & s1 & Hf & Hy1).
      rewrite !bind_Ok, Hf. simpl. by rewrite Hy1.
    + destruct lhs_first; [|by rewrite Hy].
      destruct (DisjointSet.index_map_ s !! x) as [zx|] eqn:Hx; [|done].
      destruct (Hfind zx eq_refl) as (r & s1 & Hf & Hy1).
      rewrite !bind_Ok, Hf. simpl. by rewrite Hy1.
Qed.

Lemma absent_element_terminates_witness :
  DisjointSet.unite 1 9 example_disjoint_set = Err terminate ∧
  DisjointSet.are_connected false 1 9 example_disjoint_set = Err terminate.
Proof.
  apply (absent_element_terminates example_disjoint_set 1 9 false).
  - apply ds_wfb_sound. by vm_compute.
  - right. reflexivity.
Defined.

(** ** [get_sets] *)

Lemma foldM_ext {A B} (f g : B → A → result B) (l : list A) (b : B) :
  (∀ b a, f b a = g b a) → foldM f l b = foldM g l b.
Proof.
  intros Hfg. revert b. induction l as [|a l IH]; intros b; [done|]. simpl.
  rewrite Hfg. destruct (g b a) as [b'|e]; [apply IH|done].
Qed.

Section disjoint_set_get_sets.
Import DisjointSet.
Context {T : Type} `{Countable T}.
Implicit Types (s : @state T _ _) (x y a b : T) (i j k r d : nat) (z : Z)
  (sets : gmap Z (list T)) (entries : list (T * Z)) (seen : list T).

(* what the loop has built once it has visited the elements [seen] *)
Let collected (s : @state T _ _) seen sets : Prop :=
  (∀ x, x ∈ seen → ∃ r l, representative s x r ∧
                           sets !! Z.of_nat r = Some l ∧ x ∈ l) ∧
  (∀ z l, sets !! z = Some l →
     l ≠ [] ∧ NoDup l ∧
     ∀ x, x ∈ l → x ∈ seen ∧ ∃ r, z = Z.of_nat r ∧ representative s x r).

Let visit (acc : gmap Z (list T) * @state T _ _) (e : T * Z)
    : result (gmap Z (list T) * @state T _ _) :=
  let '(sets, s) := acc in
  let '(x, index) := e in
  '(r, s) ← find index s;
  Ok (<[r:=default [] (sets !! r) ++ [x]]> sets, s).

Lemma collected_visit s seen sets x r :
  collected s seen sets → x ∉ seen → representative s x r →
  collected s (seen ++ [x])
    (<[Z.of_nat r:=default [] (sets !! Z.of_nat r) ++ [x]]> sets).
Proof.
  intros [Hseen Hsets] Hx Hr. split.
  - intros x' [Hx'|Hx']%elem_of_app; [|apply list_elem_of_singleton in Hx' as ->].
    + destruct (Hseen x' Hx') as (r' & l & Hr' & Hl & Hin).
      exists r'. destruct (decide (r' = r)) as [->|Hne].
      * eexists. split; [done|]. rewrite lookup_insert_eq, Hl. simpl.
        split; [done|]. apply elem_of_app. by left.
      * exists l. split; [done|]. split; [|done].
        rewrite lookup_insert_ne by lia. done.
    + exists r. eexists. split; [done|]. rewrite lookup_insert_eq.
      split; [done|]. apply elem_of_app. right. by left.
  - intros z l. rewrite lookup_insert. case_decide as Hz.
    + intros [= <-]. subst z. split; [by destruct (default _ _)|]. split.
      * apply NoDup_app. destruct (sets !! Z.of_nat r) as [l0|] eqn:Hl0; simpl.
        -- destruct (Hsets _ _ Hl0) as (_ & Hnd & Hall).
           split; [done|]. split; [|apply NoDup_singleton].
           intros x' Hx' Hxx. apply list_elem_of_singleton in Hxx as ->.
           by destruct (Hall x Hx').
        -- split; [apply NoDup_nil_2|]. split; [|apply NoDup_singleton].
           by intros x' Hx'%elem_of_nil.
      * intros x' [Hx'|Hx']%elem_of_app; [|apply list_elem_of_singleton in Hx' as ->].
        -- destruct (sets !! Z.of_nat r) as [l0|] eqn:Hl0; simpl in Hx';
             [|by apply elem_of_nil in Hx'].
           destruct (Hsets _ _ Hl0) as (_ & _ & Hall).
           destruct (Hall x' Hx') as [Hin Hrep]. split; [|done].
           apply elem_of_app. by left.
        -- split; [apply elem_of_app; right; by left|]. by exists r.
    + intros Hl. destruct (Hsets _ _ Hl) as (Hne & Hnd & Hall).
      split; [done|]. split; [done|]. intros x' Hx'.
      destruct (Hall x' Hx') as [Hin Hrep]. split; [|done].
      apply elem_of_app. by left.
Qed.

Lemma get_sets_loop s entries : ∀ sets sc seen,
  ds_wf s → ds_wf sc → index_map_ sc = index_map_ s →
  roots_kept (nodes_ s) (nodes_ sc) →
  NoDup (entries.*1) → (∀ x, x ∈ entries.*1 → x ∉ seen) →
  (∀ x z, (x, z) ∈ entries → index_map_ s !! x = Some z) →
  collected s seen sets →
  ∃ sets' s', foldM visit entries (sets, sc) = Ok (sets', s') ∧
              ds_wf s' ∧ index_map_ s' = index_map_ s ∧
              roots_kept (nodes_ s) (nodes_ s') ∧
              collected s (seen ++ entries.*1) sets'.
Proof.
  induction entries as [|[x z] entries IH];
    intros sets sc seen Hwf Hwfc Him Hkept Hnd Hfresh Hentries Hcol.
  { exists sets, sc. simpl. by rewrite app_nil_r. }
  rewrite fmap_cons in Hnd, Hfresh. simpl in Hnd, Hfresh.
  apply NoDup_cons in Hnd as [Hx Hnd].
  assert (index_map_ sc !! x = Some z) as Hxz.
  { rewrite Him. apply Hentries. by left. }
  destruct (find_element sc x z Hwfc Hxz) as (r & s1 & Hf & Hr & Him1 & Hk1 & Hwf1).
  assert (representative s x r) as Hr' by by apply (representative_kept s sc).
  destruct (IH (<[Z.of_nat r:=default [] (sets !! Z.of_nat r) ++ [x]]> sets) s1
              (seen ++ [x])) as (sets' & s' & Hfold & Hwf' & Him' & Hk' & Hcol').
  - done.
  - done.
  - congruence.
  - by eapply roots_kept_trans.
  - done.
  - intros x' Hx' [Hin|Hin]%elem_of_app.
    + apply (Hfresh x'); [by right|done].
    + apply list_elem_of_singleton in Hin as ->. done.
  - intros x' z' Hin. apply Hentries. by right.
  - apply collected_visit; [done| |done]. apply Hfresh. by left.
  - exists sets', s'. split.
    + simpl. rewrite Hf. simpl. exact Hfold.
    + split; [done|]. split; [done|]. split; [done|].
      by rewrite fmap_cons, cons_middle, app_assoc.
Qed.

Lemma get_sets_from_fold entries s :
  get_sets_from entries s = noexcept (foldM visit entries (∅, s)).
Proof.
  unfold get_sets_from. f_equal. apply foldM_ext. by intros [sets' s'] [x index].
Qed.
End disjoint_set_get_sets.

(** X30.  [get_sets], in whatever order the index map is visited, returns one
    non-empty, duplicate-free vector per representative, holding exactly the
    elements with that representative: every element appears in the vector
    of its representative and in no other. *)
Theorem get_sets_partitions {T : Type} `{Countable T}
    (s : @DisjointSet.state T _ _) (entries : list (T * Z)) :
  ds_wf s → entries ≡ₚ map_to_list (DisjointSet.index_map_ s) →
  ∃ sets s',
    DisjointSet.get_sets_from entries s = Ok (sets, s') ∧
    ds_wf s' ∧
    (∀ a b, same_set s' a b ↔ same_set s a b) ∧
    (∀ x r, representative s x r →
       ∃ l, sets !! Z.of_nat r = Some l ∧ x ∈ l) ∧
    (∀ z l, sets !! z = Some l →
       l ≠ [] ∧ NoDup l ∧
       ∀ x, x ∈ l → ∃ r, z = Z.of_nat r ∧ representative s x r).
Proof.
  intros Hwf Hperm.
  destruct (get_sets_loop s entries ∅ s [] Hwf Hwf eq_refl (roots_kept_refl _))
    as (sets & s' & Hfold & Hwf' & Him & Hkept & Hseen & Hsets).
  - rewrite Hperm. apply NoDup_fst_map_to_list.
  - intros x _ Hx. by apply elem_of_nil in Hx.
  - intros x z Hin. rewrite Hperm in Hin. by apply elem_of_map_to_list.
  - split; [by intros x Hx%elem_of_nil|]. intros z l Hl. by rewrite lookup_empty in Hl.
  - exists sets, s'. rewrite get_sets_from_fold, Hfold.
    split; [done|]. split; [done|]. split; [|split].
    + intros a b. by apply same_set_kept.
    + intros x r Hr. pose proof Hr as (i & d & Hi & _).
      destruct (Hseen x) as (r' & l & Hr' & Hl & Hin).
      { simpl. apply list_elem_of_fmap. exists (x, Z.of_nat i). split; [done|].
        rewrite Hperm. by apply elem_of_map_to_list. }
      rewrite (representative_fun s x r r' Hr Hr'). by exists l.
    + intros z l Hl. destruct (Hsets z l Hl) as (Hne & Hnd & Hall).
      split; [done|]. split; [done|]. intros x Hx. by destruct (Hall x Hx).
Qed.

Lemma get_sets_partitions_witness :
  ∃ sets s',
    DisjointSet.get_sets_from [(3, 2); (1, 0); (2, 1)] example_disjoint_set
    = Ok (sets, s') ∧
    ds_wf s' ∧
    (∀ a b, same_set s' a b ↔ same_set example_disjoint_set a b) ∧
    (∀ x r, representative example_disjoint_set x r →
       ∃ l, sets !! Z.of_nat r = Some l ∧ x ∈ l) ∧
    (∀ z l, sets !! z = Some l →
       l ≠ [] ∧ NoDup l ∧
       ∀ x, x ∈ l → ∃ r, z = Z.of_nat r ∧ representative example_disjoint_set x r).
Proof.
  apply (get_sets_partitions example_disjoint_set [(3, 2); (1, 0); (2, 1)]).
  - apply ds_wfb_sound. by vm_compute.
  - apply (bool_decide_unpack _). by vm_compute.
Defined.

(** ** Scenarios of the remaining tests *)

(* [RangeTest]: [range(0)], [range(4)] and [range(4, 100)] *)
Example range_scenarios :
  range 0 0 = [] ∧ range 4 0 = [0; 1; 2; 3] ∧ range 4 100 = [100; 101; 102; 103].
Proof. by vm_compute. Qed.

(* [ResizeTest.full], the characters written as their codes *)
Example resize_full : resize [97; 98; 99; 100] 2 = Ok [97; 98].
Proof. by vm_compute. Qed.

(* [ShiftToValueTest]: [distinct], [repeated_selects_first], [not_found] *)
Example shift_to_value_scenarios :
  shift_to_value [0; 1; 2; 3; 4; 5; 6; 7; 8; 9] 5 = [5; 6; 7; 8; 9; 0; 1; 2; 3; 4] ∧
  shift_to_value [0; 10; 10; 10; 20] 10 = [10; 10; 10; 20; 0] ∧
  shift_to_value [0; 10; 10; 10; 20] 1 = [0; 10; 10; 10; 20].
Proof. by vm_compute. Qed.

(* [FmapTest.range_non_empty], with a numeric function in place of
   [to_string] *)
Example fmap_range_non_empty :
  fmap_iter (λ n, 10 * n) [1; 2; 3; 4; 5] 0 3 = [10; 20; 30].
Proof. by vm_compute. Qed.

(* [SparseByteSetTest]: nothing is contained at first; [add] answers true
   the first time and false the second *)
Example sparse_byte_set_scenario :
  let s0 := SparseByteSet.construct (replicate 256 0) (replicate 256 0) in
  SparseByteSet.contains 0 s0 = Ok false ∧
  SparseByteSet.contains 255 s0 = Ok false ∧
  ('(r1, s1) ← SparseByteSet.add 5 s0;
   '(r2, s2) ← SparseByteSet.add 5 s1;
   c ← SparseByteSet.contains 5 s2;
   Ok (r1, r2, c)) = Ok (true, false, true).
Proof. by vm_compute. Qed.

(* [unite(1, 2)] on the fresh set over 1, 2, 3 *)
Example example_disjoint_set_built :
  DisjointSet.unite 1 2 (DisjointSet.construct [1; 2; 3]) = Ok example_disjoint_set.
Proof. by vm_compute. Qed.

(* [DisjointSetTest.full], the characters 'a' to 'g' written as 1 to 7 *)
Example disjoint_set_full :
  (let s := DisjointSet.construct [1; 2; 3; 4; 5] in
   s ← DisjointSet.unite 1 2 s;
   s ← DisjointSet.unite 3 4 s;
   '(f, s) ← DisjointSet.add 6 s;
   '(g, s) ← DisjointSet.add 7 s;
   s ← DisjointSet.unite 1 4 s;
   s ← DisjointSet.unite 3 5 s;
   '(c1, s) ← DisjointSet.are_connected true 2 5 s;
   '(c2, s) ← DisjointSet.are_connected true 5 6 s;
   s ← DisjointSet.unite 5 6 s;
   s ← DisjointSet.unite 7 4 s;
   '(c3, s) ← DisjointSet.are_connected true 7 1 s;
   '(sets, s) ← DisjointSet.get_sets_from (map_to_list (DisjointSet.index_map_ s)) s;
   Ok (f, g, c1, c2, c3, length (map_to_list sets)))
  = Ok (5, 6, true, false, true, 1%nat).
Proof. by vm_compute. Qed.
